(** * Sunaba front end: tokeniser and parser

    A shallow embedding of the two stages of the Sunaba compiler front end,
    the tokeniser [parseToTokens], which the entry point and the
    specification call [tokenise], and the parser [parse] of [parser.ts],
    together with the properties of the specification that concern them.

    Conventions of the embedding.
    - A JavaScript string is the list of its UTF-16 code units.
    - Line numbers, offsets, indents and array lengths are [nat]; the value
      of a numeric literal is a [Z].
    - A [throw] is the [Throw] outcome of the [result] type.  A [ParseError]
      carries its message; a [TypeError] is what the engine raises when a
      property of [undefined] is read.
    - An index that the source initialises to [-1] and tests against [-1]
      is an [option nat], [None] standing for [-1].
    - The call stack is taken to be as deep as the recursion needs: the
      RangeError that the engine raises when [parseExpression] nests too
      many calls, one for each token of a long line, has no counterpart,
      and no theorem lists all that [parse] can throw. *)

From Stdlib Require Import String Ascii ZArith NArith Arith Lia Bool List.
From Stdlib Require Import DecimalString Sorted.
Import ListNotations.

Set Implicit Arguments.
Set Warnings "-register-all".

(** ** JavaScript values used by both stages *)

Module JS.

Definition code_unit := N.
Definition jsstring := list code_unit.

(** A string literal of the source as code units (ASCII only). *)
Definition lit (s : string) : jsstring := map N_of_ascii (list_ascii_of_string s).

(** [a === b] on strings. *)
Fixpoint str_eqb (a b : jsstring) : bool :=
  match a, b with
  | [], [] => true
  | x :: a', y :: b' => N.eqb x y && str_eqb a' b'
  | _, _ => false
  end.

(** [Array.prototype.slice] and [String.prototype.slice] with both bounds
    given; a negative bound counts from the end. *)
Definition slice {A : Type} (l : list A) (from to : Z) : list A :=
  let len := Z.of_nat (length l) in
  let k := if (from <? 0)%Z then Z.max (len + from) 0 else Z.min from len in
  let final := if (to <? 0)%Z then Z.max (len + to) 0 else Z.min to len in
  firstn (Z.to_nat (final - k)) (skipn (Z.to_nat k) l).

(** [slice] on bounds that are known not to be negative. *)
Definition sliceN {A : Type} (l : list A) (from to : nat) : list A :=
  firstn (to - from) (skipn from l).

(** [l.slice(from)]. *)
Definition sliceFrom {A : Type} (l : list A) (from : nat) : list A := skipn from l.

(** Template-literal rendering of a non-negative integer. *)
Definition show (n : nat) : string := NilZero.string_of_uint (Nat.to_uint n).

Inductive error : Type :=
| ParseError (message : string)
| TypeError
| JsError (message : string)
| OutOfFuel.

Inductive result (A : Type) : Type :=
| Ok (a : A)
| Throw (e : error).
Arguments Throw {A} e.

Definition bind {A B : Type} (r : result A) (k : A -> result B) : result B :=
  match r with
  | Ok a => k a
  | Throw e => Throw e
  end.

(** [xs.map(f)] for an [f] that may throw: the first throw aborts the map. *)
Fixpoint mapM {A B : Type} (f : A -> result B) (xs : list A) : result (list B) :=
  match xs with
  | [] => Ok []
  | x :: xs' =>
      bind (f x) (fun y => bind (mapM f xs') (fun ys => Ok (y :: ys)))
  end.

End JS.

Import JS.

Notation "x <- e ;; k" := (bind e (fun x => k))
  (at level 61, e at next level, right associativity).

Declare Scope js_scope.
Delimit Scope js_scope with js.
Notation "a === b" := (str_eqb a b) (at level 70, no associativity) : js_scope.
Local Open Scope js_scope.

(** ** The tokeniser *)

Module Tokeniser.

(** *** Lines *)

(** The class [\s], which is also what [trim] removes. *)
Definition isWhiteSpace (c : code_unit) : bool :=
  ((9 <=? c) && (c <=? 13))%N || (c =? 0x20)%N || (c =? 0xa0)%N ||
  (c =? 0x1680)%N || ((0x2000 <=? c) && (c <=? 0x200a))%N ||
  (c =? 0x2028)%N || (c =? 0x2029)%N || (c =? 0x202f)%N ||
  (c =? 0x205f)%N || (c =? 0x3000)%N || (c =? 0xfeff)%N.

(** [source.matchAll(lineRegExp)]: the first capture group of every match,
    in order.  [lineRegExp] is, with the flags [g] and [u], a greedy run of
    [.] (the capture) followed by either an optional CR and an LF, or the
    end of the input.  [acc] is the run of [.]-characters read so far,
    reversed.  A match ends at LF, at CR LF or at the end of the input; at a
    CR that no LF follows, and at LS or PS, the expression matches nowhere
    in the run before it, and the search resumes after that character.  A
    non-empty match that ends at the end of the input is followed by one
    more, empty, match there. *)
Fixpoint matchAllLines (acc : jsstring) (source : jsstring) : list jsstring :=
  match source with
  | [] => match acc with
          | [] => [ [] ]
          | _ :: _ => [ rev acc; [] ]
          end
  | c :: rest =>
      if (c =? 10)%N then rev acc :: matchAllLines [] rest
      else if (c =? 13)%N then
        match rest with
        | d :: rest' =>
            if (d =? 10)%N then rev acc :: matchAllLines [] rest'
            else matchAllLines [] rest
        | [] => matchAllLines [] rest
        end
      else if (c =? 0x2028)%N || (c =? 0x2029)%N then matchAllLines [] rest
      else matchAllLines (c :: acc) rest
  end.

Fixpoint takeWhile {A : Type} (p : A -> bool) (l : list A) : list A :=
  match l with
  | [] => []
  | x :: l' => if p x then x :: takeWhile p l' else []
  end.

Fixpoint dropWhile {A : Type} (p : A -> bool) (l : list A) : list A :=
  match l with
  | [] => []
  | x :: l' => if p x then dropWhile p l' else l
  end.

(** [raw.match(/^\s*/)![0]] *)
Definition leadingSpace (raw : jsstring) : jsstring := takeWhile isWhiteSpace raw.

(** [raw.trim()] *)
Definition trim (raw : jsstring) : jsstring :=
  rev (dropWhile isWhiteSpace (rev (dropWhile isWhiteSpace raw))).

(** The loop over the leading white space: a tab counts 8, anything else 1. *)
Definition countSpace (ws : jsstring) : nat :=
  fold_left (fun space char => if (char =? 9)%N then space + 8 else S space) ws 0.

(** What [iterateLine] yields. *)
Record Line : Type := mkLine {
  line_column : nat;
  line_space : nat;
  line_text : jsstring
}.

Fixpoint iterateMatches (column : nat) (matches : list jsstring) : list Line :=
  match matches with
  | [] => []
  | raw :: more =>
      match raw with
      | [] => iterateMatches (S column) more
      | _ :: _ =>
          mkLine column (countSpace (leadingSpace raw)) (trim raw)
            :: iterateMatches (S column) more
      end
  end.

Definition iterateLine (source : jsstring) : list Line :=
  iterateMatches 0 (matchAllLines [] source).

(** *** Code points *)

Definition isLeadSurrogate (c : code_unit) : bool := ((0xD800 <=? c) && (c <=? 0xDBFF))%N.
Definition isTrailSurrogate (c : code_unit) : bool := ((0xDC00 <=? c) && (c <=? 0xDFFF))%N.

Definition EOL : jsstring := Eval cbv in lit "EOL".

(** The string iterator pairs a lead surrogate with the trail surrogate that
    follows it; [row] advances by the length of what was yielded. *)
Fixpoint iterateCodePointFrom (row : nat) (text : jsstring) : list (nat * jsstring) :=
  match text with
  | [] => [ (row, EOL) ]
  | c :: rest =>
      match rest with
      | d :: rest' =>
          if isLeadSurrogate c && isTrailSurrogate d
          then (row, [c; d]) :: iterateCodePointFrom (row + 2) rest'
          else (row, [c]) :: iterateCodePointFrom (row + 1) rest
      | [] => (row, [c]) :: iterateCodePointFrom (row + 1) rest
      end
  end.

Definition iterateCodePoint (text : jsstring) : list (nat * jsstring) :=
  iterateCodePointFrom 0 text.

(** [codePoint.charCodeAt(0)]; every code point handed to the two
    predicates below has at least one unit. *)
Definition charCodeAt0 (codePoint : jsstring) : N := hd 0%N codePoint.

Definition isNumberCodePoint (codePoint : jsstring) : bool :=
  if codePoint === EOL then false
  else
    let code := charCodeAt0 codePoint in
    ((48 <=? code) && (code <=? 57))%N.

Definition isIdentifierCodePoint (codePoint : jsstring) : bool :=
  if codePoint === EOL then false
  else if (codePoint === lit "@") || (codePoint === lit "$") || (codePoint === lit "?")
          || (codePoint === lit "_") || (codePoint === lit "'") then true
  else
    let code := charCodeAt0 codePoint in
    ((97 <=? code) && (code <=? 122))%N ||
    ((65 <=? code) && (code <=? 90))%N ||
    ((48 <=? code) && (code <=? 57))%N ||
    (0x100 <=? code)%N.

(** *** Tokens *)

Inductive TokenType : Type :=
| IdentifierToken (value : jsstring)
| MemoryToken
| IfToken
| WhileToken
| DefToken
| ConstToken
| NumericLiteralToken (value : jsstring)
| OperatorToken (value : jsstring)
| SeparatorToken
| AssignmentToken
| ParentheseStartToken
| ParentheseEndToken
| BracketStartToken
| BracketEndToken.

(** [Token & { row: number }] *)
Record Token : Type := mkToken {
  type : TokenType;
  row : nat
}.

Record LineToken : Type := mkLineToken {
  column : nat;
  indent : nat;
  tokens : list Token
}.

(** *** The state machine of one line *)

Inductive State : Type :=
| identifier
| literal
| minus
| angle_or_exclamation
| slash.

(** The variables of the code-point loop: [tokens], [state] ([None] is
    [null]), [startRow], and [multiLineCommentCount], which outlives the
    line. *)
Record Scan : Type := mkScan {
  scan_tokens : list Token;
  state : option State;
  startRow : nat;
  multiLineCommentCount : nat
}.

(** How one iteration of the loop labelled [loop] ends. *)
Inductive Flow : Type :=
| ContinueLoop (s : Scan)
| BreakLoop (s : Scan).

(** [tokens.push({ type, row })] followed by [state = null]. *)
Definition emit (s : Scan) (t : TokenType) (r : nat) : Scan :=
  mkScan (scan_tokens s ++ [mkToken t r]) None (startRow s) (multiLineCommentCount s).

(** [tokens.push({ type, row })]. *)
Definition pushToken (s : Scan) (t : TokenType) (r : nat) : Scan :=
  mkScan (scan_tokens s ++ [mkToken t r]) (state s) (startRow s) (multiLineCommentCount s).

(** [state = st; startRow = row]. *)
Definition enter (s : Scan) (st : State) (r : nat) : Scan :=
  mkScan (scan_tokens s) (Some st) r (multiLineCommentCount s).

Definition setCount (s : Scan) (n : nat) : Scan :=
  mkScan (scan_tokens s) (state s) (startRow s) n.

(** The keyword test made on a completed identifier run. *)
Definition wordToken (word : jsstring) : TokenType :=
  if word === lit "memory" then MemoryToken
  else if word === lit "if" then IfToken
  else if word === lit "while" then WhileToken
  else if word === lit "def" then DefToken
  else if word === lit "const" then ConstToken
  else IdentifierToken word.

(** The part of the loop body after the [switch]: the test [state !== null]
    and the dispatch on the code point. *)
Definition startToken (s : Scan) (row : nat) (codePoint : jsstring) : Flow :=
  match state s with
  | Some _ => ContinueLoop s
  | None =>
      if codePoint === lit "#" then BreakLoop s
      else if codePoint === lit "-" then ContinueLoop (enter s minus row)
      else if (codePoint === lit "<") || (codePoint === lit ">") || (codePoint === lit "!")
      then ContinueLoop (enter s angle_or_exclamation row)
      else if codePoint === lit "/" then ContinueLoop (enter s slash row)
      else if (codePoint === lit "+") || (codePoint === lit "=") || (codePoint === lit "*")
      then ContinueLoop (pushToken s (OperatorToken codePoint) (row + 1))
      else if codePoint === lit "," then ContinueLoop (pushToken s SeparatorToken (row + 1))
      else if codePoint === lit "(" then ContinueLoop (pushToken s ParentheseStartToken (row + 1))
      else if codePoint === lit ")" then ContinueLoop (pushToken s ParentheseEndToken (row + 1))
      else if codePoint === lit "[" then ContinueLoop (pushToken s BracketStartToken (row + 1))
      else if codePoint === lit "]" then ContinueLoop (pushToken s BracketEndToken (row + 1))
      else if isNumberCodePoint codePoint then ContinueLoop (enter s literal row)
      else if isIdentifierCodePoint codePoint then ContinueLoop (enter s identifier row)
      else ContinueLoop s
  end.

(** One iteration of the loop over the code points of [text]. *)
Definition scanCodePoint (column : nat) (text : jsstring) (s : Scan)
    (row : nat) (codePoint : jsstring) : result Flow :=
  if 0 <? multiLineCommentCount s then
    let operator := slice text (Z.of_nat row - 1) (Z.of_nat row + 1) in
    if operator === lit "/*" then Ok (ContinueLoop (setCount s (multiLineCommentCount s + 1)))
    else if operator === lit "*/" then Ok (ContinueLoop (setCount s (multiLineCommentCount s - 1)))
    else Ok (ContinueLoop s)
  else
    match state s with
    | Some identifier =>
        if isIdentifierCodePoint codePoint then Ok (ContinueLoop s)
        else
          let word := sliceN text (startRow s) row in
          Ok (startToken (emit s (wordToken word) (startRow s + 1)) row codePoint)
    | Some literal =>
        if isNumberCodePoint codePoint then Ok (ContinueLoop s)
        else
          let number := sliceN text (startRow s) row in
          Ok (startToken (emit s (NumericLiteralToken number) (startRow s + 1)) row codePoint)
    | Some minus =>
        if codePoint === lit ">"
        then Ok (ContinueLoop (emit s AssignmentToken (startRow s + 1)))
        else Ok (startToken (emit s (OperatorToken (lit "-")) (startRow s + 1)) row codePoint)
    | Some angle_or_exclamation =>
        if codePoint === lit "="
        then Ok (ContinueLoop
                   (emit s (OperatorToken (sliceN text (startRow s) (row + 1))) (startRow s + 1)))
        else
          let operator := sliceN text (startRow s) row in
          if operator === lit "!"
          then Throw (ParseError (show (column + 1) ++ " " ++ show (startRow s + 1)
                                    ++ ": There should be only '=' after the '!'")%string)
          else Ok (startToken (emit s (OperatorToken operator) (startRow s + 1)) row codePoint)
    | Some slash =>
        if codePoint === lit "*"
        then Ok (ContinueLoop (mkScan (scan_tokens s) None (startRow s) 1))
        else Ok (startToken (emit s (OperatorToken (lit "/")) (startRow s + 1)) row codePoint)
    | None => Ok (startToken s row codePoint)
    end.

(** The loop labelled [loop]. *)
Fixpoint scanLine (column : nat) (text : jsstring) (s : Scan)
    (codePoints : list (nat * jsstring)) : result Scan :=
  match codePoints with
  | [] => Ok s
  | (row, codePoint) :: more =>
      match scanCodePoint column text s row codePoint with
      | Throw e => Throw e
      | Ok (ContinueLoop s') => scanLine column text s' more
      | Ok (BreakLoop s') => Ok s'
      end
  end.

(** *** The indent stack *)

(** [indents.indexOf(space)] *)
Fixpoint indexOf (space : nat) (indents : list nat) : option nat :=
  match indents with
  | [] => None
  | x :: rest =>
      if x =? space then Some 0
      else match indexOf space rest with
           | Some i => Some (S i)
           | None => None
           end
  end.

(** The update of [indents] made for a line ([column] is 0-based here, as
    in [iterateLine]). *)
Definition updateIndents (column space : nat) (indents : list nat) : result (list nat) :=
  match indexOf space indents with
  | None =>
      if space <? last indents 0
      then Throw (ParseError (show (column + 1) ++ ": Invalid indent space")%string)
      else Ok (indents ++ [space])
  | Some indentIndex => Ok (firstn (indentIndex + 1) indents)
  end.

(** *** The whole source *)

(** The variables of [parseToTokens] that live across lines. *)
Record Lexer : Type := mkLexer {
  lineTokens : list LineToken;
  indents : list nat;
  commentCount : nat
}.

Definition initialLexer : Lexer := mkLexer [] [0] 0.

(** The body of the loop over the lines. *)
Definition tokeniseLine (lx : Lexer) (ln : Line) : result Lexer :=
  s <- scanLine (line_column ln) (line_text ln)
         (mkScan [] None 0 (commentCount lx)) (iterateCodePoint (line_text ln)) ;;
  indents' <- updateIndents (line_column ln) (line_space ln) (indents lx) ;;
  Ok (mkLexer
        (match scan_tokens s with
         | [] => lineTokens lx
         | _ :: _ =>
             lineTokens lx ++
               [mkLineToken (line_column ln + 1) (length indents' - 1) (scan_tokens s)]
         end)
        indents'
        (multiLineCommentCount s)).

Fixpoint tokeniseLines (lx : Lexer) (lines : list Line) : result Lexer :=
  match lines with
  | [] => Ok lx
  | ln :: more => lx' <- tokeniseLine lx ln ;; tokeniseLines lx' more
  end.

(** [lineTokens[lineTokens.length - 1]], [None] when it is [undefined]. *)
Definition lastEmitted (lts : list LineToken) : option LineToken :=
  nth_error lts (length lts - 1).

Definition parseToTokens (source : jsstring) : result (list LineToken) :=
  lx <- tokeniseLines initialLexer (iterateLine source) ;;
  if negb (commentCount lx =? 0) then
    match lastEmitted (lineTokens lx) with
    | None => Throw TypeError
    | Some lt =>
        Throw (ParseError (show (column lt) ++ ": The multi-line comment is not closed")%string)
    end
  else Ok (lineTokens lx).

(** The name under which the entry point imports the tokeniser. *)
Definition tokenise := parseToTokens.

End Tokeniser.

(** ** The parser *)

Module Parser.

Import Tokeniser.

(** *** Expressions *)

Inductive Expression : Type :=
| UnaryExpression (operator : jsstring) (argument : Expression)
| BinaryExpression (operator : jsstring) (left right : Expression)
| MemberExpression (target : Expression) (property : Expression)
| CallExpression (callee : Expression) (arguments : list Expression)
| Identifier (name : jsstring)
| NumericLiteral (value : Z).

(** [ExpressionState]; [null] is [None]. *)
Inductive ExpressionState : Type :=
| binary (left : Expression)
| unary (operator : jsstring).

(** *** Numbers *)

Definition isDigit (c : code_unit) : bool := ((48 <=? c) && (c <=? 57))%N.

(** The digits of a run, most significant first, read in base 10. *)
Definition digitsValue (digits : jsstring) : Z :=
  fold_left (fun acc c => (10 * acc + (Z.of_N c - 48))%Z) digits 0%Z.

(** [Number.parseInt(s, 10)]: leading white space is skipped, one sign is
    read, and the longest run of decimal digits that follows is the value;
    with no digit the answer is [NaN], here [None].  The value is kept as
    the exact integer.  The Number that the engine returns is its nearest
    double, which is this integer below [2^53] and is not below [2^53]
    otherwise; the range test made on it by [parseExpression] has the same
    outcome on both, and an accepted value is exact.  The sign of a zero is
    not represented. *)
Definition parseInt10 (s : jsstring) : option Z :=
  let s1 := dropWhile isWhiteSpace s in
  let '(negative, s2) :=
    match s1 with
    | c :: rest =>
        if (c =? 45)%N then (true, rest)
        else if (c =? 43)%N then (false, rest)
        else (false, s1)
    | [] => (false, s1)
    end in
  match takeWhile isDigit s2 with
  | [] => None
  | digits => Some (if negative then - digitsValue digits else digitsValue digits)%Z
  end.

(** [ToInt32] on an integer. *)
Definition toInt32 (v : Z) : Z := ((v + 2 ^ 31) mod 2 ^ 32 - 2 ^ 31)%Z.

(** [a | b]. *)
Definition bitOr (a b : Z) : Z := Z.lor (toInt32 a) (toInt32 b).

(** *** Balanced regions *)

Definition isBracketStart (t : Token) : bool :=
  match type t with BracketStartToken => true | _ => false end.

(** The loop that looks for the closing bracket, over the entries
    [(index, token)] of [tokens.slice(1)]; the answer is [bracketEndIndex]. *)
Fixpoint scanBracket (count : Z) (index : nat) (entries : list Token) : option nat :=
  match entries with
  | [] => None
  | token :: more =>
      match type token with
      | BracketStartToken => scanBracket (count + 1) (S index) more
      | BracketEndToken =>
          let count := (count - 1)%Z in
          if (count =? 0)%Z then Some (index + 1)
          else scanBracket count (S index) more
      | _ => scanBracket count (S index) more
      end
  end.

(** The loop that looks for the closing parenthesis of a parenthesised
    expression, over the entries of [tokens]; the answer is
    [parentheseEndIndex]. *)
Fixpoint scanParenthese (count : Z) (index : nat) (entries : list Token) : option nat :=
  match entries with
  | [] => None
  | token :: more =>
      match type token with
      | ParentheseStartToken => scanParenthese (count + 1) (S index) more
      | ParentheseEndToken =>
          let count := (count - 1)%Z in
          if (count =? 0)%Z then Some index
          else scanParenthese count (S index) more
      | _ => scanParenthese count (S index) more
      end
  end.

(** The loop that splits a parenthesised list at its top-level separators,
    over the entries of [tokens.slice(offset)].  In a call the list opens at
    [tokens[1]] and [offset] is 1; in a [def] it opens at [tokens[2]] and
    [offset] is 2.  The answer is the slices pushed and the index of the
    closing parenthesis. *)
Fixpoint scanList (offset : nat) (tokens : list Token) (count : Z) (start : nat)
    (slices : list (list Token)) (index : nat) (entries : list Token)
    : list (list Token) * option nat :=
  match entries with
  | [] => (slices, None)
  | token :: more =>
      match type token with
      | ParentheseStartToken =>
          scanList offset tokens (count + 1) start slices (S index) more
      | ParentheseEndToken =>
          let count := (count - 1)%Z in
          if (count =? 0)%Z then
            (if negb (start + offset + 1 =? index + offset)
             then slices ++ [sliceN tokens (start + offset + 1) (index + offset)]
             else slices,
             Some (index + offset))
          else scanList offset tokens count start slices (S index) more
      | SeparatorToken =>
          if (count =? 1)%Z then
            scanList offset tokens count index
              (slices ++ [sliceN tokens (start + offset + 1) (index + offset)])
              (S index) more
          else scanList offset tokens count start slices (S index) more
      | _ => scanList offset tokens count start slices (S index) more
      end
  end.

(** *** [parseExpression] *)

(** [state?.type === "unary" ? { type: "UnaryExpression", ... } : e] *)
Definition wrapUnary (state : option ExpressionState) (e : Expression) : Expression :=
  match state with
  | Some (unary operator) => UnaryExpression operator e
  | _ => e
  end.

(** The [while] loop that rotates the root to the left while its right
    child is a [BinaryExpression]; the root is given by its three fields. *)
Fixpoint leftRotate (operator : jsstring) (left right : Expression) : Expression :=
  match right with
  | BinaryExpression operator' left' right' =>
      leftRotate operator' (BinaryExpression operator left left') right'
  | _ => BinaryExpression operator left right
  end.

Definition at2 (column r : nat) (message : string) : error :=
  ParseError (show column ++ " " ++ show r ++ ": " ++ message)%string.

Definition at1 (column : nat) (message : string) : error :=
  ParseError (show column ++ ": " ++ message)%string.

Section Body.

(** The recursive calls, with [column] fixed. *)
Variable recur : list Token -> option ExpressionState -> result Expression.
Variable column : nat.

(** What follows an operand [expression] that ends before [remains]. *)
Definition continueWith (expression : Expression) (remains : list Token) : result Expression :=
  match remains with
  | [] => Ok expression
  | _ :: _ => recur remains (Some (binary expression))
  end.

(** The bracket form shared by the [IdentifierToken] and [MemoryToken]
    cases, from the search for the closing bracket on. *)
Definition parseMember (tokens : list Token) (state : option ExpressionState)
    (target : Expression) (bracketRow : nat) : result Expression :=
  match scanBracket 0 0 (sliceFrom tokens 1) with
  | None => Throw (at2 column bracketRow "The bracket is not closed")
  | Some bracketEndIndex =>
      let propertyTokens := sliceN tokens 2 bracketEndIndex in
      match propertyTokens with
      | [] => Throw (at2 column bracketRow "The contents of the bracket are empty")
      | _ :: _ =>
          property <- recur propertyTokens None ;;
          let member := MemberExpression target property in
          continueWith (wrapUnary state member) (sliceFrom tokens (bracketEndIndex + 1))
      end
  end.

Definition parseExpressionBody (tokens : list Token) (state : option ExpressionState)
    : result Expression :=
  match tokens with
  | [] => Throw (at1 column "Syntax Error")
  | token :: _ =>
      match type token with
      | IfToken | WhileToken | DefToken | ConstToken | AssignmentToken =>
          Throw (at2 column (row token)
                   "It contains words that must not be included in the expression")
      | _ =>
          match state with
          | Some (binary lhs) =>
              match type token with
              | OperatorToken value =>
                  rhs <- recur (sliceFrom tokens 1) None ;;
                  Ok (leftRotate value lhs rhs)
              | _ => Throw (at2 column (row token) "Syntax Error")
              end
          | _ =>
              match type token with
              | BracketStartToken | BracketEndToken | ParentheseEndToken | SeparatorToken =>
                  Throw (at2 column (row token) "Syntax Error")
              | IdentifierToken value =>
                  let identifier := Identifier value in
                  match sliceFrom tokens 1 with
                  | [] => Ok (wrapUnary state identifier)
                  | token1 :: _ =>
                      match type token1 with
                      | BracketStartToken =>
                          parseMember tokens state identifier (row token1)
                      | ParentheseStartToken =>
                          let '(argumentTokens, parentheseEndIndex) :=
                            scanList 1 tokens 0 0 [] 0 (sliceFrom tokens 1) in
                          match parentheseEndIndex with
                          | None => Throw (at2 column (row token1) "The parenthese is not closed")
                          | Some parentheseEndIndex =>
                              arguments <- mapM (fun tokens => recur tokens None) argumentTokens ;;
                              let call := CallExpression identifier arguments in
                              continueWith (wrapUnary state call)
                                (sliceFrom tokens (parentheseEndIndex + 1))
                          end
                      | _ =>
                          recur (sliceFrom tokens 1)
                            (Some (binary (wrapUnary state identifier)))
                      end
                  end
              | MemoryToken =>
                  match sliceFrom tokens 1 with
                  | [] =>
                      Throw (at2 column (row token + 6)
                               "It must be a bracket after `memory` keyword")
                  | token1 :: _ =>
                      if negb (isBracketStart token1) then
                        Throw (at2 column (row token1)
                                 "It must be a bracket after `memory` keyword")
                      else
                        parseMember tokens state (Identifier (lit "memory")) (row token1)
                  end
              | NumericLiteralToken digits =>
                  match parseInt10 digits with
                  | None => Throw (at2 column (row token) "Out of range integer value")
                  | Some raw =>
                      let value :=
                        match state with
                        | Some (unary operator) =>
                            if operator === lit "-" then (- raw)%Z else raw
                        | _ => raw
                        end in
                      if negb (value =? bitOr value 0)%Z then
                        Throw (at2 column (row token) "Out of range integer value")
                      else
                        let literal := NumericLiteral value in
                        continueWith literal (sliceFrom tokens 1)
                  end
              | OperatorToken operator =>
                  if negb (operator === lit "+") && negb (operator === lit "-") then
                    Throw (at2 column (row token) "Invalid operator")
                  else recur (sliceFrom tokens 1) (Some (unary operator))
              | ParentheseStartToken =>
                  match scanParenthese 0 0 tokens with
                  | None => Throw (at2 column (row token) "The parenthese is not closed")
                  | Some parentheseEndIndex =>
                      let parentheseTokens := sliceN tokens 1 parentheseEndIndex in
                      match parentheseTokens with
                      | [] =>
                          Throw (at2 column (row token)
                                   "The parenthese of the bracket are empty")
                      | _ :: _ =>
                          parentheseExpression <- recur parentheseTokens None ;;
                          let expression := wrapUnary state parentheseExpression in
                          if parentheseEndIndex =? length tokens - 1 then Ok expression
                          else recur (sliceFrom tokens (parentheseEndIndex + 1))
                                 (Some (binary expression))
                      end
                  end
              | IfToken | WhileToken | DefToken | ConstToken | AssignmentToken =>
                  Throw (JsError "Unexpected token type")
              end
          end
      end
  end.

End Body.

(** The recursion of [parseExpression] is on slices of [tokens] that are
    shorter than [tokens]; [fuel] bounds its depth.  The bound is that of
    the recursion alone, not of the call stack of the engine. *)
Fixpoint parseExpressionFuel (fuel : nat) (column : nat) (tokens : list Token)
    (state : option ExpressionState) : result Expression :=
  match fuel with
  | 0 => Throw OutOfFuel
  | S fuel' => parseExpressionBody (parseExpressionFuel fuel' column) column tokens state
  end.

Definition parseExpression (column : nat) (tokens : list Token)
    (state : option ExpressionState) : result Expression :=
  parseExpressionFuel (S (length tokens)) column tokens state.

(** *** Statements *)

(** The syntax tree as [JSON] shows it. *)
Inductive Statement : Type :=
| AssignmentStatement (left right : Expression)
| ExpressionStatement (expression : Expression)
| IfStatement (test : Expression) (body : list Statement)
| WhileStatement (test : Expression) (body : list Statement)
| ConstantStatement (left right : Expression)
| FunctionDeclaration (id : Expression) (params : list Expression) (body : list Statement).

Record Program : Type := mkProgram { program_body : list Statement }.

(** [parse] builds the tree by mutation: the [body] array of a block
    statement is also a frame of the [statements] stack, and later lines are
    pushed to it after the statement itself has been pushed to its parent.
    The arrays therefore live in a store and statements refer to their body
    by reference. *)
Definition ref := nat.

Inductive StatementObject : Type :=
| AssignmentObject (left right : Expression)
| ExpressionObject (expression : Expression)
| IfObject (test : Expression) (body : ref)
| WhileObject (test : Expression) (body : ref)
| ConstantObject (left right : Expression)
| FunctionObject (id : Expression) (params : list Expression) (body : ref).

Record Heap : Type := mkHeap {
  next : ref;
  arrays : ref -> list StatementObject
}.

Definition emptyHeap : Heap := mkHeap 0 (fun _ => []).

(** [const body = []] *)
Definition alloc (h : Heap) : ref * Heap :=
  (next h, mkHeap (S (next h)) (fun r => if r =? next h then [] else arrays h r)).

(** [array.push(x)] on the array at [r]. *)
Definition push (h : Heap) (r : ref) (x : StatementObject) : Heap :=
  mkHeap (next h) (fun r' => if r' =? r then arrays h r ++ [x] else arrays h r').

(** The tree below the array at [r]; a body is allocated after the array
    that holds its statement, so [next h] is enough [fuel] from any array. *)
Fixpoint readStatements (fuel : nat) (h : Heap) (r : ref) : list Statement :=
  match fuel with
  | 0 => []
  | S fuel' =>
      map (fun object =>
             match object with
             | AssignmentObject l r => AssignmentStatement l r
             | ExpressionObject e => ExpressionStatement e
             | IfObject test body => IfStatement test (readStatements fuel' h body)
             | WhileObject test body => WhileStatement test (readStatements fuel' h body)
             | ConstantObject l r => ConstantStatement l r
             | FunctionObject id params body =>
                 FunctionDeclaration id params (readStatements fuel' h body)
             end)
          (arrays h r)
  end.

(** *** [parse] *)

(** The variables of [parse]; a frame of [statements] that is [None] is a
    hole left by [statements.length = indent + 1] when it lengthens the
    array. *)
Record ParseState : Type := mkParseState {
  heap : Heap;
  statements : list (option ref);
  minIndent : option nat;
  maxIndent : option nat;
  lastLineToken : option LineToken
}.

(** [statements.length = n] *)
Definition setLength (n : nat) (statements : list (option ref)) : list (option ref) :=
  firstn n statements ++ repeat None (n - length statements).

(** [statements[i]], [None] when it is [undefined]. *)
Definition frame (statements : list (option ref)) (i : nat) : option ref :=
  match nth_error statements i with
  | Some (Some r) => Some r
  | _ => None
  end.

(** [statements[i].push(object)] *)
Definition pushTo (h : Heap) (statements : list (option ref)) (i : nat)
    (object : StatementObject) : result Heap :=
  match frame statements i with
  | None => Throw TypeError
  | Some r => Ok (push h r object)
  end.

Fixpoint findIndex {A : Type} (p : A -> bool) (l : list A) : option nat :=
  match l with
  | [] => None
  | x :: l' =>
      if p x then Some 0
      else match findIndex p l' with
           | Some i => Some (S i)
           | None => None
           end
  end.

Definition isAssignment (t : Token) : bool :=
  match type t with AssignmentToken => true | _ => false end.

Definition isIdentifierNode (e : Expression) : bool :=
  match e with Identifier _ => true | _ => false end.

Definition isAssignable (e : Expression) : bool :=
  match e with MemberExpression _ _ | Identifier _ => true | _ => false end.

(** The [if] and [while] cases, which differ in the keyword of the message
    and in the statement built. *)
Definition parseBlock (h : Heap) (statements : list (option ref))
    (column indent : nat) (token : Token) (tokens : list Token)
    (lineToken : LineToken)
    (keyword : string) (make : Expression -> ref -> StatementObject)
    : result ParseState :=
  let testTokens := sliceFrom tokens 1 in
  match testTokens with
  | [] =>
      Throw (at2 column (row token + 2)
               ("There is no condition in the `" ++ keyword ++ "` statement")%string)
  | _ :: _ =>
      test <- parseExpression column testTokens None ;;
      let '(body, h) := alloc h in
      h <- pushTo h statements (length statements - 1) (make test body) ;;
      Ok (mkParseState h (statements ++ [Some body]) (Some (indent + 1)) None
            (Some lineToken))
  end.

(** The body of the loop over the lines. *)
Definition parseLine (ps : ParseState) (lineToken : LineToken) : result ParseState :=
  let column := column lineToken in
  let indent := indent lineToken in
  let tokens := tokens lineToken in
  if match minIndent ps with Some m => indent <? m | None => false end
     || match maxIndent ps with Some m => m <? indent | None => false end
  then Throw (at1 column "Invalid indent space")
  else
    let statements := setLength (indent + 1) (statements ps) in
    let h := heap ps in
    match tokens with
    | [] => Throw TypeError
    | token :: _ =>
        match type token with
        | NumericLiteralToken _ | OperatorToken _ | AssignmentToken
        | ParentheseStartToken | ParentheseEndToken
        | BracketStartToken | BracketEndToken | SeparatorToken =>
            Throw (at1 column "Syntax Error")
        | IdentifierToken _ | MemoryToken =>
            match findIndex isAssignment tokens with
            | Some index =>
                let assignmentRow := match nth_error tokens index with
                                     | Some t => row t
                                     | None => 0
                                     end in
                let leftTokens := sliceN tokens 0 index in
                match leftTokens with
                | [] =>
                    Throw (at2 column assignmentRow
                             "The left side of the assignment operator is empty")
                | leftToken :: _ =>
                    lhs <- parseExpression column leftTokens None ;;
                    if negb (isAssignable lhs) then
                      Throw (at2 column (row leftToken)
                               "The left side of the assignment operator is not assignable")
                    else
                      let rightTokens := sliceFrom tokens (index + 1) in
                      match rightTokens with
                      | [] =>
                          Throw (at2 column assignmentRow
                                   "The right side of the assignment operator is empty")
                      | _ :: _ =>
                          rhs <- parseExpression column rightTokens None ;;
                          h <- pushTo h statements (length statements - 1)
                                 (AssignmentObject lhs rhs) ;;
                          Ok (mkParseState h statements None (Some indent) (Some lineToken))
                      end
                end
            | None =>
                expression <- parseExpression column tokens None ;;
                match expression with
                | CallExpression _ _ =>
                    h <- pushTo h statements (length statements - 1)
                           (ExpressionObject expression) ;;
                    Ok (mkParseState h statements None (Some indent) (Some lineToken))
                | _ => Throw (at1 column "This expression has no effect")
                end
            end
        | IfToken => parseBlock h statements column indent token tokens lineToken "if" IfObject
        | WhileToken => parseBlock h statements column indent token tokens lineToken "while" WhileObject
        | ConstToken =>
            if negb (indent =? 0) then
              Throw (at2 column (row token)
                       "`const` keyword must be in the root scope (no indent)")
            else
              match nth_error tokens 1 with
              | None => Throw TypeError
              | Some identifierToken =>
                  match type identifierToken with
                  | IdentifierToken _ =>
                      identifier <- parseExpression column [identifierToken] None ;;
                      match nth_error tokens 2 with
                      | None => Throw TypeError
                      | Some assignmentToken =>
                          if negb (isAssignment assignmentToken) then
                            Throw (at2 column (row assignmentToken) "Invalid `const` statement")
                          else
                            let rightTokens := sliceFrom tokens 3 in
                            match rightTokens with
                            | [] =>
                                Throw (at2 column (row assignmentToken)
                                         "The right side of the assignment operator is empty")
                            | _ :: _ =>
                                rhs <- parseExpression column rightTokens None ;;
                                h <- pushTo h statements 0 (ConstantObject identifier rhs) ;;
                                Ok (mkParseState h statements None (Some indent) (Some lineToken))
                            end
                      end
                  | _ =>
                      Throw (at2 column (row identifierToken)
                               "`const` keyword must be followed by an identifier")
                  end
              end
        | DefToken =>
            if negb (indent =? 0) then
              Throw (at2 column (row token)
                       "`def` keyword must be in the root scope (no indent)")
            else
              match nth_error tokens 1 with
              | None => Throw TypeError
              | Some identifierToken =>
                  match type identifierToken with
                  | IdentifierToken _ =>
                      identifier <- parseExpression column [identifierToken] None ;;
                      match nth_error tokens 2 with
                      | None => Throw TypeError
                      | Some parentheseStartToken =>
                          match type parentheseStartToken with
                          | ParentheseStartToken =>
                              let '(paramtokens, parentheseEndIndex) :=
                                scanList 2 tokens 0 0 [] 0 (sliceFrom tokens 2) in
                              match parentheseEndIndex with
                              | None =>
                                  Throw (at2 column (row identifierToken)
                                           "The parenthese is not closed")
                              | Some _ =>
                                  params <- mapM (fun tokens => parseExpression column tokens None)
                                              paramtokens ;;
                                  if existsb (fun expression => negb (isIdentifierNode expression))
                                       params
                                  then Throw (at1 column "Invalid parameters")
                                  else
                                    let '(body, h) := alloc h in
                                    h <- pushTo h statements 0
                                           (FunctionObject identifier params body) ;;
                                    Ok (mkParseState h (statements ++ [Some body])
                                          (Some (indent + 1)) None (Some lineToken))
                              end
                          | _ =>
                              Throw (at2 column (row parentheseStartToken)
                                       "Invalid `def` statement")
                          end
                      end
                  | _ =>
                      Throw (at2 column (row identifierToken)
                               "`def` keyword must be followed by an identifier")
                  end
              end
        end
    end.

Fixpoint parseLines (ps : ParseState) (lineTokens : list LineToken) : result ParseState :=
  match lineTokens with
  | [] => Ok ps
  | lineToken :: more => ps' <- parseLine ps lineToken ;; parseLines ps' more
  end.

(** The state before the first line: [body] is the array at reference 0. *)
Definition initialState : ParseState :=
  let '(body, h) := alloc emptyHeap in
  mkParseState h [Some body] None None None.

Definition noBodyMessage : string :=
  "There is no body for the last `if` or `while` or `def` statement".

(** What [parse] returns or throws once the loop has ended in [ps]. *)
Definition finish (ps : ParseState) : result Program :=
  match minIndent ps, lastLineToken ps with
  | Some _, Some lt => Throw (at1 (column lt) noBodyMessage)
  | _, _ => Ok (mkProgram (readStatements (next (heap ps)) (heap ps) 0))
  end.

Definition parse (lineTokens : list LineToken) : result Program :=
  ps <- parseLines initialState lineTokens ;;
  finish ps.

(** The entry point of the package: [parse(tokenise(source))]. *)
Definition compile (source : jsstring) : result Program :=
  lineTokens <- tokenise source ;;
  parse lineTokens.

End Parser.

(** ** Vocabulary of the properties *)

Module Props.

Import Tokeniser Parser.

(** The text of a token as it stands in its line. *)
Definition lexeme (t : TokenType) : jsstring :=
  match t with
  | IdentifierToken value => value
  | MemoryToken => lit "memory"
  | IfToken => lit "if"
  | WhileToken => lit "while"
  | DefToken => lit "def"
  | ConstToken => lit "const"
  | NumericLiteralToken value => value
  | OperatorToken value => value
  | SeparatorToken => lit ","
  | AssignmentToken => lit "->"
  | ParentheseStartToken => lit "("
  | ParentheseEndToken => lit ")"
  | BracketStartToken => lit "["
  | BracketEndToken => lit "]"
  end.

(** [t] records the place where its text stands in [text]: [row t] is one
    more than a code-unit offset at which [text] reads the lexeme of [t]. *)
Definition tokenAt (text : jsstring) (t : Token) : Prop :=
  1 <= row t /\
  sliceN text (row t - 1) (row t - 1 + length (lexeme (type t))) = lexeme (type t).

(** What the code-point loop keeps true of its variables when the next
    code point stands at offset [next]: the tokens pushed so far record
    their place, and a pending [-] or [/] stands just before [next],
    outside any comment. *)
Definition scanInvariant (text : jsstring) (next : nat) (s : Scan) : Prop :=
  Forall (tokenAt text) (scan_tokens s) /\
  match state s with
  | Some minus =>
      multiLineCommentCount s = 0 /\ startRow s + 1 = next /\
      sliceN text (startRow s) (startRow s + 1) = lit "-"
  | Some slash =>
      multiLineCommentCount s = 0 /\ startRow s + 1 = next /\
      sliceN text (startRow s) (startRow s + 1) = lit "/"
  | _ => True
  end.

(** The code point yielded at offset [r] is the sentinel or is read from
    the text there. *)
Definition codePointAt (text : jsstring) (r : nat) (codePoint : jsstring) : Prop :=
  codePoint = EOL \/ sliceN text r (r + length codePoint) = codePoint.

(** The scan with which a turn of the code-point loop ends. *)
Definition scanOf (f : Flow) : Scan :=
  match f with
  | ContinueLoop s => s
  | BreakLoop s => s
  end.


(** Token types and values of a line, without the rows. *)
Definition tokenTypes (lt : LineToken) : list TokenType := map type (tokens lt).

(** The rows of a line. *)
Definition tokenRows (lt : LineToken) : list nat := map row (tokens lt).

(** The 1-based number of the last non-empty line of a source. *)
Definition lastLineNumber (source : jsstring) : nat :=
  match rev (iterateLine source) with
  | ln :: _ => line_column ln + 1
  | [] => 0
  end.

(** The digits of a run, most significant first, as a positional sum. *)
Fixpoint decimal (digits : jsstring) : Z :=
  match digits with
  | [] => 0
  | c :: rest => (Z.of_N c - 48) * 10 ^ Z.of_nat (length rest) + decimal rest
  end%Z.

(** A non-empty run of ASCII digits. *)
Definition isDigitString (digits : jsstring) : Prop :=
  digits <> [] /\ forallb isDigit digits = true.

Definition fitsInt32 (v : Z) : Prop := (- 2 ^ 31 <= v < 2 ^ 31)%Z.

(** The states in which [parseExpression] expects an operand. *)
Definition expectsOperand (state : option ExpressionState) : Prop :=
  match state with
  | Some (binary _) => False
  | _ => True
  end.

(** The value read from a literal whose digits denote [raw] in [state]. *)
Definition signed (state : option ExpressionState) (raw : Z) : Z :=
  match state with
  | Some (unary operator) => if operator === lit "-" then (- raw)%Z else raw
  | _ => raw
  end.

Definition isBinary (e : Expression) : bool :=
  match e with BinaryExpression _ _ _ => true | _ => false end.

Definition isCall (e : Expression) : bool :=
  match e with CallExpression _ _ => true | _ => false end.

(** No [BinaryExpression] of [e] has a [BinaryExpression] as its right
    child. *)
Fixpoint leftNormal (e : Expression) : bool :=
  match e with
  | UnaryExpression _ argument => leftNormal argument
  | BinaryExpression _ l r => negb (isBinary r) && leftNormal l && leftNormal r
  | MemberExpression target property => leftNormal target && leftNormal property
  | CallExpression callee arguments => leftNormal callee && forallb leftNormal arguments
  | Identifier _ => true
  | NumericLiteral _ => true
  end.

(** The same on the expressions of a statement and of its body. *)
Fixpoint leftNormalStatement (s : Statement) : bool :=
  match s with
  | AssignmentStatement l r => leftNormal l && leftNormal r
  | ExpressionStatement e => leftNormal e
  | IfStatement test body => leftNormal test && forallb leftNormalStatement body
  | WhileStatement test body => leftNormal test && forallb leftNormalStatement body
  | ConstantStatement l r => leftNormal l && leftNormal r
  | FunctionDeclaration id params body =>
      leftNormal id && forallb leftNormal params && forallb leftNormalStatement body
  end.

Definition isEmpty {A : Type} (l : list A) : bool :=
  match l with [] => true | _ :: _ => false end.

(** Every [if], [while] and [def] of [s], at any depth, has a body that is
    not empty. *)
Fixpoint bodiesNonEmpty (s : Statement) : bool :=
  match s with
  | IfStatement _ body => negb (isEmpty body) && forallb bodiesNonEmpty body
  | WhileStatement _ body => negb (isEmpty body) && forallb bodiesNonEmpty body
  | FunctionDeclaration _ _ body => negb (isEmpty body) && forallb bodiesNonEmpty body
  | _ => true
  end.

(** Every [ExpressionStatement] of [s], at any depth, holds a call. *)
Fixpoint statementsAreCalls (s : Statement) : bool :=
  match s with
  | ExpressionStatement e => isCall e
  | IfStatement _ body => forallb statementsAreCalls body
  | WhileStatement _ body => forallb statementsAreCalls body
  | FunctionDeclaration _ _ body => forallb statementsAreCalls body
  | _ => true
  end.

(** The reference of the body of a block statement. *)
Definition bodyOf (object : StatementObject) : option ref :=
  match object with
  | IfObject _ body => Some body
  | WhileObject _ body => Some body
  | FunctionObject _ _ body => Some body
  | _ => None
  end.

(** The body that the last line has opened and that no line has reached
    yet: the top frame, while [minIndent] is set. *)
Definition pending (ps : ParseState) (b : ref) : Prop :=
  exists m, minIndent ps = Some m /\ frame (statements ps) m = Some b.

(** What the line loop of [parse] keeps true of its variables. *)
Record parseInvariant (ps : ParseState) : Prop := mkParseInvariant {
  inv_bodies :
    forall r object b,
      r < next (heap ps) -> In object (arrays (heap ps) r) -> bodyOf object = Some b ->
      r < b /\ b < next (heap ps) /\ (arrays (heap ps) b <> [] \/ pending ps b);
  inv_frames :
    forall i r, frame (statements ps) i = Some r -> r < next (heap ps);
  inv_min :
    forall m, minIndent ps = Some m ->
      1 <= m /\ length (statements ps) = m + 1 /\
      (exists b, frame (statements ps) m = Some b) /\
      lastLineToken ps <> None;
  inv_calls :
    forall r e, In (ExpressionObject e) (arrays (heap ps) r) -> isCall e = true;
  inv_root : 0 < next (heap ps)
}.

(** The indent of a line is allowed by [minIndent] and [maxIndent]. *)
Definition indentAllowed (ps : ParseState) (lt : LineToken) : Prop :=
  (forall m, minIndent ps = Some m -> m <= indent lt) /\
  (forall m, maxIndent ps = Some m -> indent lt <= m).

(** What a line that [parseLine] accepts does to the variables of [parse]:
    it pushes one statement, to the top frame or, for [const] and [def],
    to the program body; a block statement comes with a fresh body, which
    becomes the top frame. *)
Inductive lineEffect (ps : ParseState) (lt : LineToken) : ParseState -> Prop :=
| effect_statement (i : nat) (r : ref) (object : StatementObject) :
    frame (setLength (indent lt + 1) (statements ps)) i = Some r ->
    i = indent lt \/ (i = 0 /\ indent lt = 0) ->
    bodyOf object = None ->
    (forall e, object = ExpressionObject e -> isCall e = true) ->
    lineEffect ps lt
      (mkParseState (push (heap ps) r object)
         (setLength (indent lt + 1) (statements ps))
         None (Some (indent lt)) (Some lt))
| effect_block (i : nat) (r : ref) (object : StatementObject) :
    frame (setLength (indent lt + 1) (statements ps)) i = Some r ->
    i = indent lt \/ (i = 0 /\ indent lt = 0) ->
    bodyOf object = Some (next (heap ps)) ->
    lineEffect ps lt
      (mkParseState (push (snd (alloc (heap ps))) r object)
         (setLength (indent lt + 1) (statements ps) ++ [Some (next (heap ps))])
         (Some (indent lt + 1)) None (Some lt)).

(** The first token of a line opens a block. *)
Definition opensBlock (lt : LineToken) : Prop :=
  match tokens lt with
  | token :: _ =>
      match type token with
      | IfToken | WhileToken | DefToken => True
      | _ => False
      end
  | [] => False
  end.

(** The first token of a line is an identifier or [memory], and the line
    has no [->]. *)
Definition isBareExpressionLine (lt : LineToken) : Prop :=
  match tokens lt with
  | token :: _ =>
      match type token with
      | IdentifierToken _ | MemoryToken => findIndex isAssignment (tokens lt) = None
      | _ => False
      end
  | [] => False
  end.

(** The line loop of the tokeniser ends with a block comment still open. *)
Definition commentOpenAtEnd (source : jsstring) : Prop :=
  exists lx,
    tokeniseLines initialLexer (iterateLine source) = Ok lx /\ commentCount lx <> 0.

(** A source of several lines, given line by line and joined by LF. *)
Definition unlines (lines : list string) : jsstring :=
  match lines with
  | [] => []
  | first :: more => fold_left (fun acc l => acc ++ 10%N :: lit l) more (lit first)
  end.

(** Token lines used to exercise the theorems: [if x], then [y -> 1] one
    level in, then [f(1)] at the root. *)
Definition sampleLines : list LineToken :=
  [ mkLineToken 1 0 [mkToken IfToken 1; mkToken (IdentifierToken (lit "x")) 4];
    mkLineToken 2 1 [mkToken (IdentifierToken (lit "y")) 1; mkToken AssignmentToken 3;
                     mkToken (NumericLiteralToken (lit "1")) 6];
    mkLineToken 3 0 [mkToken (IdentifierToken (lit "f")) 1; mkToken ParentheseStartToken 2;
                     mkToken (NumericLiteralToken (lit "1")) 3;
                     mkToken ParentheseEndToken 4] ].

Definition sampleProgram : Program :=
  mkProgram
    [ IfStatement (Identifier (lit "x"))
        [AssignmentStatement (Identifier (lit "y")) (NumericLiteral 1)];
      ExpressionStatement (CallExpression (Identifier (lit "f")) [NumericLiteral 1]) ].



(** Two runs of a computation agree, and the first did not run out of
    fuel. *)
Definition settled {A : Type} (r1 r2 : result A) : Prop :=
  r1 = r2 /\ r1 <> Throw OutOfFuel.

(** *** Vocabulary of the further properties *)

(** What the string iterator yields at offset [r] of [text]: the sentinel
    once the text is used up, one code unit, or a surrogate pair. *)
Definition yielded (text : jsstring) (r : nat) (codePoint : jsstring) : Prop :=
  (codePoint = EOL /\ skipn r text = []) \/
  (exists u, codePoint = [u] /\ sliceN text r (r + 1) = [u]) \/
  (exists u v,
     codePoint = [u; v] /\ isLeadSurrogate u = true /\ isTrailSurrogate v = true /\
     sliceN text r (r + 2) = [u; v]).

(** The rows of the tokens pushed so far increase, and stay at or below the
    offset where the token in progress starts, or below the next offset
    when none is in progress. *)
Definition rowOrder (r : nat) (s : Scan) : Prop :=
  StronglySorted lt (map row (scan_tokens s)) /\
  match state s with
  | Some _ => startRow s < r /\ Forall (fun t => row t <= startRow s) (scan_tokens s)
  | None => Forall (fun t => row t <= r) (scan_tokens s)
  end.

(** The code units that an identifier may hold: those of the characters
    that [isIdentifierCodePoint] accepts, a trail surrogate included. *)
Definition isIdentifierUnit (c : code_unit) : bool :=
  (c =? 64)%N || (c =? 36)%N || (c =? 63)%N || (c =? 95)%N || (c =? 39)%N ||
  ((97 <=? c) && (c <=? 122))%N || ((65 <=? c) && (c <=? 90))%N ||
  ((48 <=? c) && (c <=? 57))%N || (0x100 <=? c)%N.

(** The values of the type [Operator]. *)
Definition operators : list jsstring :=
  map lit ["+"; "-"; "*"; "/"; "="; "!="; ">"; ">="; "<"; "<="]%string.

(** A run of identifier characters that does not start with a digit. *)
Definition isWord (w : jsstring) : Prop :=
  w <> [] /\ forallb isIdentifierUnit w = true /\ isDigit (hd 0%N w) = false.

(** The value that a token carries is one that its type allows: an
    identifier is a word that is not a keyword, a numeric literal is a run
    of digits, an operator is one of the ten. *)
Definition validToken (t : Token) : Prop :=
  match type t with
  | IdentifierToken value => isWord value /\ wordToken value = IdentifierToken value
  | NumericLiteralToken value => isDigitString value
  | OperatorToken value => In value operators
  | _ => True
  end.

(** What the code-point loop keeps true of the values it is building. *)
Definition valueInvariant (text : jsstring) (r : nat) (s : Scan) : Prop :=
  Forall validToken (scan_tokens s) /\
  (0 < multiLineCommentCount s -> state s = None) /\
  match state s with
  | Some identifier => startRow s <= r /\ isWord (sliceN text (startRow s) r)
  | Some literal => startRow s <= r /\ isDigitString (sliceN text (startRow s) r)
  | Some angle_or_exclamation =>
      startRow s <= r /\
      In (sliceN text (startRow s) r) (map lit ["<"; ">"; "!"]%string)
  | _ => True
  end.

(** The entries of the indent stack increase from 0. *)
Definition stackOrdered (indents : list nat) : Prop :=
  hd_error indents = Some 0 /\ StronglySorted lt indents.

(** A string without any of the characters that [.] does not match: LF,
    CR, LS, PS. *)
Definition noTerminator (raw : jsstring) : Prop :=
  forallb (fun c => negb ((c =? 10) || (c =? 13) || (c =? 0x2028) || (c =? 0x2029))%N) raw
  = true.

(** Lines joined by a separator. *)
Fixpoint joinWith (separator : jsstring) (lines : list jsstring) : jsstring :=
  match lines with
  | [] => []
  | [l] => l
  | l :: more => l ++ separator ++ joinWith separator more
  end.

Definition LF : jsstring := [10%N].
Definition CRLF : jsstring := [13%N; 10%N].

(** [e] is the result of [parseExpression] on some tokens of column [c],
    called as [parse] calls it. *)
Definition parsedAt (c : nat) (e : Expression) : Prop :=
  exists tokens, parseExpression c tokens None = Ok e.

(** The statement is a [const] or a [def]. *)
Definition isDeclaration (object : StatementObject) : bool :=
  match object with
  | ConstantObject _ _ | FunctionObject _ _ _ => true
  | _ => false
  end.

(** The statement has a body. *)
Definition isBlock (object : StatementObject) : bool :=
  match bodyOf object with Some _ => true | None => false end.

(** The statement object that an accepted line pushes, [b] being the
    reference of the body allocated for it when it opens a block: its
    fields are results of [parseExpression] that passed the tests that
    [parseLine] makes on them. *)
Definition statementFrom (lt : LineToken) (b : ref) (object : StatementObject) : Prop :=
  match object with
  | AssignmentObject l r =>
      isAssignable l = true /\ parsedAt (column lt) l /\ parsedAt (column lt) r
  | ExpressionObject e => isCall e = true /\ parsedAt (column lt) e
  | IfObject test body => body = b /\ parsedAt (column lt) test
  | WhileObject test body => body = b /\ parsedAt (column lt) test
  | ConstantObject l r =>
      isIdentifierNode l = true /\ parsedAt (column lt) l /\ parsedAt (column lt) r
  | FunctionObject id params body =>
      body = b /\ isIdentifierNode id = true /\
      Forall (fun p => isIdentifierNode p = true /\ parsedAt (column lt) p) params
  end.

(** The variables of [parse] after a line that pushed [object] to the
    array [r]. *)
Definition afterLine (ps : ParseState) (lt : LineToken) (r : ref)
    (object : StatementObject) : ParseState :=
  if isBlock object then
    mkParseState (push (snd (alloc (heap ps))) r object)
      (setLength (indent lt + 1) (statements ps) ++ [Some (next (heap ps))])
      (Some (indent lt + 1)) None (Some lt)
  else
    mkParseState (push (heap ps) r object)
      (setLength (indent lt + 1) (statements ps))
      None (Some (indent lt)) (Some lt).

(** Literals fit 32 bits, prefix operators are [+] or [-], and the target
    of a member and the callee of a call are identifiers. *)
Fixpoint wellFormed (e : Expression) : bool :=
  match e with
  | UnaryExpression operator argument =>
      ((operator === lit "+") || (operator === lit "-")) && wellFormed argument
  | BinaryExpression _ l r => wellFormed l && wellFormed r
  | MemberExpression target property => isIdentifierNode target && wellFormed property
  | CallExpression callee arguments => isIdentifierNode callee && forallb wellFormed arguments
  | Identifier _ => true
  | NumericLiteral value => ((- 2 ^ 31 <=? value) && (value <? 2 ^ 31))%Z
  end.

(** The state with which [parseExpression] is entered holds nothing that
    is not well formed. *)
Definition stateWellFormed (state : option ExpressionState) : Prop :=
  match state with
  | Some (binary l) => wellFormed l = true
  | Some (unary operator) => (operator === lit "+") || (operator === lit "-") = true
  | None => True
  end.

(** The fields of a statement have the types that the interfaces of the
    syntax tree give them, at any depth. *)
Fixpoint typedStatement (s : Statement) : bool :=
  match s with
  | AssignmentStatement l r => isAssignable l && wellFormed l && wellFormed r
  | ExpressionStatement e => isCall e && wellFormed e
  | IfStatement test body => wellFormed test && forallb typedStatement body
  | WhileStatement test body => wellFormed test && forallb typedStatement body
  | ConstantStatement l r => isIdentifierNode l && wellFormed r
  | FunctionDeclaration id params body =>
      isIdentifierNode id && forallb isIdentifierNode params && forallb typedStatement body
  end.

(** The same on a statement object, its body left aside. *)
Definition typedObject (object : StatementObject) : bool :=
  match object with
  | AssignmentObject l r => isAssignable l && wellFormed l && wellFormed r
  | ExpressionObject e => isCall e && wellFormed e
  | IfObject test _ => wellFormed test
  | WhileObject test _ => wellFormed test
  | ConstantObject l r => isIdentifierNode l && wellFormed r
  | FunctionObject id params _ => isIdentifierNode id && forallb isIdentifierNode params
  end.

(** No [const] and no [def] in [s] or below it. *)
Fixpoint declarationFree (s : Statement) : bool :=
  match s with
  | ConstantStatement _ _ | FunctionDeclaration _ _ _ => false
  | IfStatement _ body => forallb declarationFree body
  | WhileStatement _ body => forallb declarationFree body
  | _ => true
  end.

(** No [const] and no [def] below [s]. *)
Definition declarationsAtRoot (s : Statement) : bool :=
  match s with
  | IfStatement _ body => forallb declarationFree body
  | WhileStatement _ body => forallb declarationFree body
  | FunctionDeclaration _ _ body => forallb declarationFree body
  | _ => true
  end.

(** What the line loop of [parse] keeps true of where declarations are. *)
Definition rootInvariant (ps : ParseState) : Prop :=
  0 < next (heap ps) /\
  frame (statements ps) 0 = Some 0 /\
  (forall r object, In object (arrays (heap ps) r) -> isDeclaration object = true -> r = 0) /\
  (forall r object b, In object (arrays (heap ps) r) -> bodyOf object = Some b -> b <> 0).

(** The indents of the lines follow the blocks: the first line is at
    indent 0, the line after a line that opens a block is one level in, and
    the line after any other line is at the same level or further out. *)
Fixpoint indentsFollowBlocks (previous : option LineToken) (lines : list LineToken) : Prop :=
  match lines with
  | [] => True
  | lt :: more =>
      match previous with
      | None => indent lt = 0
      | Some p =>
          (opensBlock p -> indent lt = indent p + 1) /\
          (~ opensBlock p -> indent lt <= indent p)
      end /\ indentsFollowBlocks (Some lt) more
  end.

(** What the line loop of [parse] keeps true of the stack of frames, given
    the last line it accepted. *)
Definition frameInvariant (previous : option LineToken) (ps : ParseState) : Prop :=
  match previous with
  | None => length (statements ps) = 1 /\ minIndent ps = None /\ maxIndent ps = None
  | Some p =>
      (opensBlock p ->
         length (statements ps) = indent p + 2 /\ minIndent ps = Some (indent p + 1)) /\
      (~ opensBlock p ->
         length (statements ps) = indent p + 1 /\ minIndent ps = None /\
         maxIndent ps = Some (indent p))
  end.

(** The operands and the operators of a tree of binary operators, read
    from left to right; an operand is any expression that is not a
    [BinaryExpression], an operator is kept as [inr]. *)
Fixpoint inorder (e : Expression) : list (Expression + jsstring) :=
  match e with
  | BinaryExpression operator l r => inorder l ++ inr operator :: inorder r
  | _ => [inl e]
  end.

(** The tokens of [-x + 5]. *)
Definition sampleOperands : list Token :=
  [ mkToken (OperatorToken (lit "-")) 1; mkToken (IdentifierToken (lit "x")) 2;
    mkToken (OperatorToken (lit "+")) 4; mkToken (NumericLiteralToken (lit "5")) 6 ].

(** The line [lt] moved to the indent [deeper]. *)
Definition atIndent (deeper : nat) (lt : LineToken) : LineToken :=
  mkLineToken (column lt) deeper (tokens lt).

(** The error is a ParseError whose message starts with the line number
    [c], followed or not by a place in the line. *)
Definition locatedAt (c : nat) (e : error) : Prop :=
  (exists message, e = at1 c message) \/ (exists r message, e = at2 c r message).

Definition isParentheseStart (t : Token) : bool :=
  match type t with ParentheseStartToken => true | _ => false end.

Definition isParentheseEnd (t : Token) : bool :=
  match type t with ParentheseEndToken => true | _ => false end.

Definition isBracketEnd (t : Token) : bool :=
  match type t with BracketEndToken => true | _ => false end.

(** Openings less closings among [tokens]. *)
Fixpoint balance (opening closing : Token -> bool) (tokens : list Token) : Z :=
  match tokens with
  | [] => 0
  | t :: rest =>
      ((if opening t then 1 else if closing t then -1 else 0)
       + balance opening closing rest)%Z
  end.

(** [entries[j]] is the first closing at which the openings and the
    closings read so far, added to [count], cancel out. *)
Definition firstClose (opening closing : Token -> bool) (count : Z)
    (entries : list Token) (j : nat) : Prop :=
  (exists t, nth_error entries j = Some t /\ closing t = true) /\
  (count + balance opening closing (firstn (j + 1) entries) = 0)%Z /\
  forall i t,
    i < j -> nth_error entries i = Some t -> closing t = true ->
    (count + balance opening closing (firstn (i + 1) entries) <> 0)%Z.

Definition isSeparator (t : Token) : bool :=
  match type t with SeparatorToken => true | _ => false end.

(** Slices of tokens, each followed by the separator that ends it. *)
Definition withSeparators (groups : list (list Token * Token)) : list Token :=
  flat_map (fun g => fst g ++ [snd g]) groups.

(** The tokens of [f(a, 2)]. *)
Definition sampleCall : list Token :=
  [ mkToken (IdentifierToken (lit "f")) 1; mkToken ParentheseStartToken 2;
    mkToken (IdentifierToken (lit "a")) 3; mkToken SeparatorToken 4;
    mkToken (NumericLiteralToken (lit "2")) 6; mkToken ParentheseEndToken 7 ].

(** Each entry holds the offset at which it starts, the first starting at
    [row] and every other where the one before it ends. *)
Fixpoint rowsFrom (row : nat) (codePoints : list (nat * jsstring)) : Prop :=
  match codePoints with
  | [] => True
  | (r, codePoint) :: rest => r = row /\ rowsFrom (row + length codePoint) rest
  end.

(** One code unit, or a lead surrogate and the trail surrogate after it. *)
Definition isCodePoint (codePoint : jsstring) : bool :=
  match codePoint with
  | [_] => true
  | [u; v] => isLeadSurrogate u && isTrailSurrogate v
  | _ => false
  end.

(** The kinds of statements. *)
Inductive Kind : Type :=
| AssignmentKind
| ExpressionKind
| IfKind
| WhileKind
| ConstantKind
| FunctionKind.

(** The kind and the depth of the statements of a tree whose root is at
    [depth], a statement before the statements of its body, the statements
    of a body in their order. *)
Fixpoint preorder (depth : nat) (s : Statement) : list (Kind * nat) :=
  match s with
  | AssignmentStatement _ _ => [(AssignmentKind, depth)]
  | ExpressionStatement _ => [(ExpressionKind, depth)]
  | IfStatement _ body => (IfKind, depth) :: flat_map (preorder (S depth)) body
  | WhileStatement _ body => (WhileKind, depth) :: flat_map (preorder (S depth)) body
  | ConstantStatement _ _ => [(ConstantKind, depth)]
  | FunctionDeclaration _ _ body =>
      (FunctionKind, depth) :: flat_map (preorder (S depth)) body
  end.

Definition objectKind (object : StatementObject) : Kind :=
  match object with
  | AssignmentObject _ _ => AssignmentKind
  | ExpressionObject _ => ExpressionKind
  | IfObject _ _ => IfKind
  | WhileObject _ _ => WhileKind
  | ConstantObject _ _ => ConstantKind
  | FunctionObject _ _ _ => FunctionKind
  end.

(** The kind of statement that the first token of a line asks for; a line
    that starts with an identifier or [memory] is an assignment when it has
    a [->]. *)
Definition lineKind (lt : LineToken) : option Kind :=
  match tokens lt with
  | token :: _ =>
      match type token with
      | IfToken => Some IfKind
      | WhileToken => Some WhileKind
      | ConstToken => Some ConstantKind
      | DefToken => Some FunctionKind
      | IdentifierToken _ | MemoryToken =>
          match findIndex isAssignment (tokens lt) with
          | Some _ => Some AssignmentKind
          | None => Some ExpressionKind
          end
      | _ => None
      end
  | [] => None
  end.

(** [preorder] on the tree below the array at [r]. *)
Fixpoint listing (fuel : nat) (h : Heap) (r : ref) (depth : nat) : list (Kind * nat) :=
  match fuel with
  | 0 => []
  | S fuel' =>
      flat_map (fun object =>
                  (objectKind object, depth) ::
                    match bodyOf object with
                    | Some b => listing fuel' h b (S depth)
                    | None => []
                    end)
        (arrays h r)
  end.

(** What the line loop of [parse] keeps true of the arrays, [spine] being
    the references that the stack of blocks holds: arrays are allocated
    before their contents, a frame of the stack is the body of the last
    statement of the frame below it, and of no other statement. *)
Record spineInvariant (h : Heap) (spine : list ref) : Prop := mkSpineInvariant {
  spine_root : nth_error spine 0 = Some 0;
  spine_sorted : StronglySorted lt spine;
  spine_bound : Forall (fun f => f < next h) spine;
  spine_empty : forall r, next h <= r -> arrays h r = [];
  spine_bodies :
    forall r object b,
      In object (arrays h r) -> bodyOf object = Some b -> r < b /\ b < next h;
  spine_parent :
    forall r pre object post b,
      arrays h r = pre ++ object :: post -> bodyOf object = Some b -> In b spine ->
      post = [] /\ exists i, nth_error spine i = Some r /\ nth_error spine (S i) = Some b;
  spine_child :
    forall i b,
      nth_error spine (S i) = Some b ->
      exists r pre object,
        nth_error spine i = Some r /\ arrays h r = pre ++ [object] /\
        bodyOf object = Some b
}.

(** The stack of blocks holds [spine], and the statements read from the
    program body are [done]. *)
Definition listingInvariant (done : list (Kind * nat)) (ps : ParseState) : Prop :=
  exists spine,
    statements ps = map Some spine /\
    spineInvariant (heap ps) spine /\
    listing (next (heap ps)) (heap ps) 0 0 = done.

(** The kind of statement that a line asks for, and its indent. *)
Definition lineEntry (lt : LineToken) : option Kind * nat := (lineKind lt, indent lt).

Definition someKind (entry : Kind * nat) : option Kind * nat := (Some (fst entry), snd entry).

(** The line [lt] with the tokens [more] after its own. *)
Definition followedBy (more : list Token) (lt : LineToken) : LineToken :=
  mkLineToken (column lt) (indent lt) (tokens lt ++ more).

(** The variables of [parse] agree, but for the last line, of which only
    the number is the same. *)
Definition sameButLast (ps ps' : ParseState) : Prop :=
  heap ps = heap ps' /\ statements ps = statements ps' /\
  minIndent ps = minIndent ps' /\ maxIndent ps = maxIndent ps' /\
  option_map column (lastLineToken ps) = option_map column (lastLineToken ps').

(** The line [def f(a)], as line 1. *)
Definition sampleDef : LineToken :=
  mkLineToken 1 0
    [ mkToken DefToken 1; mkToken (IdentifierToken (lit "f")) 5;
      mkToken ParentheseStartToken 6; mkToken (IdentifierToken (lit "a")) 7;
      mkToken ParentheseEndToken 8 ].

Definition isDeclarationWord (t : Token) : bool :=
  match type t with ConstToken | DefToken => true | _ => false end.

(** The line stops after [const] or [def], or after the identifier that
    follows it. *)
Definition truncatedDeclaration (lt : LineToken) : Prop :=
  match tokens lt with
  | [keyword] => isDeclarationWord keyword = true
  | [keyword; name] =>
      isDeclarationWord keyword = true /\ exists value, type name = IdentifierToken value
  | _ => False
  end.

(** The token is none of [if], [while], [def], [const] and [->]. *)
Definition allowedInExpression (t : Token) : bool :=
  match type t with
  | IfToken | WhileToken | DefToken | ConstToken | AssignmentToken => false
  | _ => true
  end.

(** *** The place of a token in its line *)

(** One more than the offset just after the text of a token. *)
Definition endRow (t : Token) : nat := row t + length (lexeme (type t)).

(** An identifier character other than a digit. *)
Definition isLetterUnit (u : code_unit) : bool := isIdentifierUnit u && negb (isDigit u).

(** A code unit that, standing just before the text of a token of type [t],
    would belong to the same run: an identifier character other than a
    digit before a word, any identifier character before a number. *)
Definition joinsBefore (t : TokenType) (u : code_unit) : bool :=
  match t with
  | IdentifierToken _ | MemoryToken | IfToken | WhileToken | DefToken | ConstToken =>
      isLetterUnit u
  | NumericLiteralToken _ => isIdentifierUnit u
  | _ => false
  end.

(** A code unit that, standing just after the text of a token of type [t],
    would have been read into it: an identifier character after a word, a
    digit after a number, [>] after [-], [=] after [<] or [>], [*] after
    [/]. *)
Definition joinsAfter (t : TokenType) (u : code_unit) : bool :=
  match t with
  | IdentifierToken _ | MemoryToken | IfToken | WhileToken | DefToken | ConstToken =>
      isIdentifierUnit u
  | NumericLiteralToken _ => isDigit u
  | OperatorToken value =>
      ((value === lit "-") && (u =? 62)%N) ||
      (((value === lit "<") || (value === lit ">")) && (u =? 61)%N) ||
      ((value === lit "/") && (u =? 42)%N)
  | _ => false
  end.

(** No code unit that [p] accepts stands at offset [i] of [text]. *)
Definition freeAt (text : jsstring) (i : nat) (p : code_unit -> bool) : Prop :=
  forall u, nth_error text i = Some u -> p u = false.

(** No code unit that [p] accepts stands just before offset [r] of
    [text]. *)
Definition freeBefore (text : jsstring) (r : nat) (p : code_unit -> bool) : Prop :=
  forall u, 1 <= r -> nth_error text (r - 1) = Some u -> p u = false.

(** The text of [t] is a whole token of [text]: nothing just before it or
    just after it would have been read into it. *)
Definition wholeIn (text : jsstring) (t : Token) : Prop :=
  freeBefore text (row t - 1) (joinsBefore (type t)) /\
  freeAt text (endRow t - 1) (joinsAfter (type t)).

(** [t] is placed in [text]: [row t] is one more than the offset at which
    its text begins.  At that offset [text] reads the text of [t], the
    value that [t] carries is one that its type allows, and the text is
    there as a whole token. *)
Definition placed (text : jsstring) (t : Token) : Prop :=
  tokenAt text t /\ validToken t /\ wholeIn text t.

(** The text of [t1] ends before the text of [t2] begins. *)
Definition apart (t1 t2 : Token) : Prop := endRow t1 <= row t2.

(** What the code-point loop keeps true of the places of its tokens when
    the next code point stands at offset [r]. *)
Definition placeInvariant (text : jsstring) (r : nat) (s : Scan) : Prop :=
  Forall (wholeIn text) (scan_tokens s) /\
  StronglySorted apart (scan_tokens s) /\
  match state s with
  | None =>
      Forall (fun t => endRow t <= r + 1) (scan_tokens s) /\
      (multiLineCommentCount s = 0 -> freeBefore text r isIdentifierUnit)
  | Some st =>
      startRow s < r /\
      Forall (fun t => endRow t <= startRow s + 1) (scan_tokens s) /\
      match st with
      | identifier => freeBefore text (startRow s) isLetterUnit
      | literal => freeBefore text (startRow s) isIdentifierUnit
      | _ => startRow s + 1 = r /\ freeBefore text r isIdentifierUnit
      end
  end.

(** *** The lines that give tokens *)

(** A source that ends inside a block comment: two lines with tokens, an
    empty line between them, and a last line inside the comment. *)
Definition openCommentSample : jsstring :=
  unlines ["x -> 1"; ""; "y -> 2 /* open"; "still open"]%string.


End Props.

Import Tokeniser Parser Props.

(** ** Strings, slices and results *)

Lemma str_eqb_eq (a b : jsstring) : (a === b) = true <-> a = b.
Proof.
  revert b; induction a as [|x a IH]; intros [|y b]; simpl; split; intro H;
    try reflexivity; try discriminate.
  - apply andb_true_iff in H as [Hx Hr]. apply N.eqb_eq in Hx.
    apply IH in Hr. now subst.
  - injection H as -> ->. rewrite N.eqb_refl. simpl. now apply IH.
Qed.

Lemma sliceN_length {A : Type} (l : list A) (a b : nat) :
  length (sliceN l a b) <= length l - a.
Proof.
  unfold sliceN. rewrite length_firstn, length_skipn. lia.
Qed.

Lemma sliceFrom_length {A : Type} (l : list A) (a : nat) :
  length (sliceFrom l a) = length l - a.
Proof. unfold sliceFrom. apply length_skipn. Qed.

(** Reading again the width of a slice at its start gives the slice. *)
Lemma sliceN_again {A : Type} (l : list A) (a b : nat) :
  sliceN l a (a + length (sliceN l a b)) = sliceN l a b.
Proof.
  unfold sliceN. replace (a + _ - a) with (length (firstn (b - a) (skipn a l))) by lia.
  generalize (skipn a l) (b - a). intros l' n.
  rewrite <- (firstn_all (firstn n l')) at 2.
  rewrite firstn_firstn. f_equal. rewrite length_firstn. lia.
Qed.

Lemma sliceN_glue {A : Type} (l : list A) (a : nat) (x y : A) :
  sliceN l a (a + 1) = [x] -> sliceN l (a + 1) (a + 2) = [y] ->
  sliceN l a (a + 2) = [x; y].
Proof.
  unfold sliceN.
  replace (a + 1 - a) with 1 by lia. replace (a + 2 - (a + 1)) with 1 by lia.
  replace (a + 2 - a) with 2 by lia.
  replace (a + 1) with (1 + a) by lia. rewrite <- skipn_skipn.
  destruct (skipn a l) as [|u [|v t]]; simpl; intros H1 H2; try discriminate.
  now injection H1 as ->; injection H2 as ->.
Qed.

Lemma bind_ok {A B : Type} (r : result A) (k : A -> result B) (b : B) :
  bind r k = Ok b -> exists a, r = Ok a /\ k a = Ok b.
Proof. destruct r as [a|e]; simpl; [eauto | discriminate]. Qed.

(** ** [parseExpression] does not depend on its fuel *)

Lemma settled_ok {A : Type} (a : A) : settled (Ok a) (Ok a).
Proof. split; [reflexivity | discriminate]. Qed.

Lemma settled_at1 {A : Type} column message :
  settled (A := A) (Throw (at1 column message)) (Throw (at1 column message)).
Proof. split; [reflexivity | discriminate]. Qed.

Lemma settled_at2 {A : Type} column r message :
  settled (A := A) (Throw (at2 column r message)) (Throw (at2 column r message)).
Proof. split; [reflexivity | discriminate]. Qed.

Lemma settled_bind {A B : Type} (r1 r2 : result A) (k1 k2 : A -> result B) :
  settled r1 r2 -> (forall a, settled (k1 a) (k2 a)) ->
  settled (bind r1 k1) (bind r2 k2).
Proof.
  intros [<- Hne] Hk. destruct r1 as [a|e]; simpl.
  - apply Hk.
  - split; [reflexivity | congruence].
Qed.

Lemma settled_mapM {A B : Type} (f g : A -> result B) (xs : list A) :
  Forall (fun x => settled (f x) (g x)) xs -> settled (mapM f xs) (mapM g xs).
Proof.
  induction 1 as [|x xs Hx _ IH]; simpl.
  - apply settled_ok.
  - apply settled_bind; [exact Hx|]. intro y.
    apply settled_bind; [exact IH|]. intro ys. apply settled_ok.
Qed.

Create HintDb settled.
#[local] Hint Resolve settled_ok settled_at1 settled_at2 : settled.

Lemma length_positive {A : Type} (l : list A) : l <> [] -> 0 < length l.
Proof. destruct l; simpl; [congruence | lia]. Qed.

(** Every slice that [scanList] pushes is cut from [tokens] after its
    first [offset + 1] elements. *)
Lemma scanList_slices (P : list Token -> Prop) offset tokens entries :
  (forall a b, P (sliceN tokens (a + offset + 1) b)) ->
  forall count start slices index,
    Forall P slices ->
    Forall P (fst (scanList offset tokens count start slices index entries)).
Proof.
  intros HP. induction entries as [|token more IH]; intros count start slices index Hs;
    simpl; [exact Hs|].
  destruct (type token); try (apply IH; exact Hs).
  - destruct (count =? 1)%Z; apply IH; [|exact Hs].
    apply Forall_app; split; [exact Hs|]. constructor; [apply HP | constructor].
  - destruct (count - 1 =? 0)%Z; [|apply IH; exact Hs].
    simpl. destruct (negb _); [|exact Hs].
    apply Forall_app; split; [exact Hs|]. constructor; [apply HP | constructor].
Qed.

Section FuelIndependence.

Variables recur1 recur2 : list Token -> option ExpressionState -> result Expression.
Variable column : nat.
Variable tokens : list Token.
Hypothesis recur_settled :
  forall t s, length t < length tokens -> settled (recur1 t s) (recur2 t s).

Lemma continueWith_settled expression remains :
  (remains <> [] -> length remains < length tokens) ->
  settled (continueWith recur1 expression remains) (continueWith recur2 expression remains).
Proof.
  intro H. destruct remains as [|t remains]; simpl.
  - apply settled_ok.
  - apply recur_settled. apply H. discriminate.
Qed.

Lemma sliceFrom_shorter n :
  tokens <> [] -> length (sliceFrom tokens (n + 1)) < length tokens.
Proof.
  intro H. rewrite sliceFrom_length. apply length_positive in H. lia.
Qed.

Lemma sliceN_shorter a b :
  tokens <> [] -> length (sliceN tokens (a + 1) b) < length tokens.
Proof.
  intro H. pose proof (sliceN_length tokens (a + 1) b).
  apply length_positive in H. lia.
Qed.

Lemma parseMember_settled state target bracketRow :
  tokens <> [] ->
  settled (parseMember recur1 column tokens state target bracketRow)
          (parseMember recur2 column tokens state target bracketRow).
Proof.
  intro Hne. unfold parseMember.
  destruct (scanBracket 0 0 (sliceFrom tokens 1)) as [bracketEndIndex|]; auto with settled.
  destruct (sliceN tokens 2 bracketEndIndex) as [|t0 property] eqn:Hp; auto with settled.
  apply settled_bind.
  - apply recur_settled. rewrite <- Hp. apply (sliceN_shorter 1 bracketEndIndex Hne).
  - intro property'. apply continueWith_settled. intros _. now apply sliceFrom_shorter.
Qed.

Ltac settle_step :=
  match goal with
  | |- settled (Ok _) (Ok _) => apply settled_ok
  | |- settled (Throw (at1 _ _)) _ => apply settled_at1
  | |- settled (Throw (at2 _ _ _)) _ => apply settled_at2
  | |- settled (Throw (JsError _)) _ => split; [reflexivity | discriminate]
  | |- settled (bind _ _) (bind _ _) => apply settled_bind; [|intro]
  | |- settled (continueWith _ _ _) _ => apply continueWith_settled; intros _
  | |- settled (parseMember _ _ _ _ _ _) _ => apply parseMember_settled
  | |- settled (mapM _ _) _ => apply settled_mapM
  | |- settled (match ?x with _ => _ end) _ => destruct x eqn:?
  end.

Lemma parseExpressionBody_settled state :
  settled (parseExpressionBody recur1 column tokens state)
          (parseExpressionBody recur2 column tokens state).
Proof.
  assert (Hcase : forall tks, tks = tokens ->
            settled (parseExpressionBody recur1 column tks state)
                    (parseExpressionBody recur2 column tks state)).
  2: { now apply Hcase. }
  intros [|token rest] Htokens; unfold parseExpressionBody; auto with settled.
  assert (Hne : tokens <> []) by (rewrite <- Htokens; discriminate).
  rewrite Htokens.
  destruct state as [[lhs|operator]|]; destruct (type token) eqn:Htype.
  all: repeat settle_step.
  all: try exact Hne.
  all: try (apply (sliceFrom_shorter 0 Hne)).
  all: try (apply recur_settled).
  all: try (apply (sliceFrom_shorter 0 Hne)).
  all: try (apply sliceFrom_shorter; exact Hne).
  all: try match goal with
           | H : sliceFrom tokens 1 = ?x |- length ?x < _ =>
               rewrite <- H; apply (sliceFrom_shorter 0 Hne)
           | H : sliceN tokens 1 _ = ?x |- length ?x < _ =>
               rewrite <- H; apply (sliceN_shorter 0 _ Hne)
           end.
  all: match goal with
       | H : scanList 1 tokens ?c ?s [] ?i ?e = (?slices, _) |- Forall _ ?slices =>
           pose proof (@scanList_slices (fun t => length t < length tokens) 1 tokens e
                         (fun a b => sliceN_shorter (a + 1) b Hne)
                         c s [] i (Forall_nil _)) as Hall;
           rewrite H in Hall; simpl in Hall;
           eapply Forall_impl; [|exact Hall];
           intros x Hx; apply recur_settled; exact Hx
       end.
Qed.

End FuelIndependence.

Lemma parseExpressionFuel_settled column :
  forall n m tokens state,
    length tokens < n -> length tokens < m ->
    settled (parseExpressionFuel n column tokens state)
            (parseExpressionFuel m column tokens state).
Proof.
  induction n as [|n IH]; intros m tokens state Hn Hm; [lia|].
  destruct m as [|m]; [lia|]. simpl.
  apply parseExpressionBody_settled. intros t s Ht. apply IH; lia.
Qed.

(** The equation that defines [parseExpression] in the source. *)
Lemma parseExpression_unfold column tokens state :
  parseExpression column tokens state =
  parseExpressionBody (parseExpression column) column tokens state.
Proof.
  unfold parseExpression at 1. simpl.
  apply parseExpressionBody_settled. intros t s Ht.
  apply parseExpressionFuel_settled; lia.
Qed.

(** [parseExpression] returns or throws on every input: the fuel given to
    it is never used up. *)
Lemma parseExpression_total column tokens state :
  parseExpression column tokens state <> Throw OutOfFuel.
Proof.
  unfold parseExpression. simpl.
  apply (parseExpressionBody_settled
           (parseExpressionFuel (length tokens) column)
           (parseExpressionFuel (length tokens) column)).
  intros t s Ht. apply parseExpressionFuel_settled; lia.
Qed.

(** ** Numeric literals *)

Lemma toInt32_zero : toInt32 0 = 0%Z.
Proof. reflexivity. Qed.

Lemma bitOr_zero (v : Z) : bitOr v 0 = toInt32 v.
Proof. unfold bitOr. rewrite toInt32_zero. apply Z.lor_0_r. Qed.

(** [value === (value | 0)] holds exactly of the 32-bit signed integers. *)
Lemma int32_test (v : Z) : (v =? bitOr v 0)%Z = true <-> fitsInt32 v.
Proof.
  rewrite bitOr_zero, Z.eqb_eq. unfold toInt32, fitsInt32.
  assert (H32 : (2 ^ 32 = 2 * 2 ^ 31)%Z) by reflexivity.
  assert (H31 : (0 < 2 ^ 31)%Z) by reflexivity.
  split; intro H.
  - pose proof (Z.mod_pos_bound (v + 2 ^ 31) (2 ^ 32) ltac:(reflexivity)). lia.
  - rewrite Z.mod_small; lia.
Qed.

Lemma digitsValue_decimal_from (digits : jsstring) (acc : Z) :
  fold_left (fun acc c => (10 * acc + (Z.of_N c - 48))%Z) digits acc =
  (acc * 10 ^ Z.of_nat (length digits) + decimal digits)%Z.
Proof.
  revert acc; induction digits as [|c digits IH]; intro acc; cbn [fold_left].
  - simpl. lia.
  - rewrite IH.
    change (decimal (c :: digits))
      with ((Z.of_N c - 48) * 10 ^ Z.of_nat (length digits) + decimal digits)%Z.
    change (length (c :: digits)) with (S (length digits)).
    rewrite Nat2Z.inj_succ, Z.pow_succ_r by lia. ring.
Qed.

(** Horner's rule reads the positional value. *)
Lemma digitsValue_decimal (digits : jsstring) : digitsValue digits = decimal digits.
Proof. unfold digitsValue. rewrite digitsValue_decimal_from. lia. Qed.

Lemma takeWhile_all {A : Type} (p : A -> bool) (l : list A) :
  forallb p l = true -> takeWhile p l = l.
Proof.
  induction l as [|x l IH]; simpl; [reflexivity|].
  intro H. apply andb_true_iff in H as [-> Hl]. now rewrite IH.
Qed.

Lemma digit_is_plain (c : code_unit) :
  isDigit c = true ->
  isWhiteSpace c = false /\ (c =? 45)%N = false /\ (c =? 43)%N = false.
Proof.
  unfold isDigit, isWhiteSpace. intro H. apply andb_true_iff in H as [H1 H2].
  apply N.leb_le in H1, H2.
  repeat split;
    repeat match goal with
           | |- context [(?a =? ?b)%N] =>
               let E := fresh in destruct (N.eqb_spec a b) as [E|E]; [lia|]
           | |- context [(?a <=? ?b)%N] =>
               let E := fresh in destruct (N.leb_spec a b) as [E|E]; try lia
           end; reflexivity.
Qed.

(** On a run of digits [parseInt] reads the whole run. *)
Lemma parseInt10_digits (digits : jsstring) :
  isDigitString digits -> parseInt10 digits = Some (decimal digits).
Proof.
  intros [Hne Hall]. unfold parseInt10.
  destruct digits as [|c rest]; [congruence|].
  pose proof Hall as Hc. simpl in Hc. apply andb_true_iff in Hc as [Hc _].
  destruct (digit_is_plain c Hc) as (Hws & Hm & Hp).
  cbn [dropWhile]. rewrite Hws, Hm, Hp.
  rewrite (takeWhile_all isDigit (c :: rest) Hall).
  now rewrite digitsValue_decimal.
Qed.

(** The [NumericLiteralToken] case of [parseExpression], on a run of
    digits. *)
Lemma literal_unfold column token digits rest state :
  type token = NumericLiteralToken digits ->
  isDigitString digits ->
  expectsOperand state ->
  parseExpression column (token :: rest) state =
  if negb (signed state (decimal digits) =? bitOr (signed state (decimal digits)) 0)%Z
  then Throw (at2 column (row token) "Out of range integer value")
  else continueWith (parseExpression column)
         (NumericLiteral (signed state (decimal digits))) rest.
Proof.
  intros Htype Hdigits Hstate.
  rewrite parseExpression_unfold. unfold parseExpressionBody.
  rewrite Htype, (parseInt10_digits Hdigits).
  destruct state as [[lhs|operator]|]; [destruct Hstate | reflexivity | reflexivity].
Qed.

(** An accepted literal: the test on its value passes. *)
Lemma literal_accepted column token digits rest state :
  type token = NumericLiteralToken digits ->
  isDigitString digits ->
  expectsOperand state ->
  fitsInt32 (signed state (decimal digits)) ->
  parseExpression column (token :: rest) state =
  continueWith (parseExpression column)
    (NumericLiteral (signed state (decimal digits))) rest.
Proof.
  intros Htype Hdigits Hstate Hfits.
  rewrite (@literal_unfold column token digits rest state Htype Hdigits Hstate).
  apply int32_test in Hfits. now rewrite Hfits.
Qed.

(** C6: a numeric literal whose digit run is [digits], met where an operand
    is expected, is read as the base-10 integer [digits], negated when the
    pending state is unary minus.  When that signed value fits a 32-bit
    signed integer the literal is accepted with that value: alone it is the
    result, and before further tokens it is the left operand of what
    follows.  Otherwise the parser throws the ParseError whose message is
    column, space, row, colon and "Out of range integer value". *)
Theorem numeric_literal_value column token digits state :
  type token = NumericLiteralToken digits ->
  isDigitString digits ->
  expectsOperand state ->
  let value := signed state (decimal digits) in
  (fitsInt32 value ->
     parseExpression column [token] state = Ok (NumericLiteral value) /\
     forall t rest,
       parseExpression column (token :: t :: rest) state =
       parseExpression column (t :: rest) (Some (binary (NumericLiteral value)))) /\
  (~ fitsInt32 value ->
     forall rest,
       parseExpression column (token :: rest) state =
       Throw (ParseError (show column ++ " " ++ show (row token)
                            ++ ": Out of range integer value")%string)).
Proof.
  intros Htype Hdigits Hstate value. split.
  - intro Hfits. split; [|intros t rest];
      rewrite (@literal_accepted column token digits _ state Htype Hdigits Hstate Hfits); reflexivity.
  - intros Hout rest. rewrite (@literal_unfold column token digits rest state Htype Hdigits Hstate).
    fold value. destruct (value =? bitOr value 0)%Z eqn:Htest; [|reflexivity].
    apply int32_test in Htest. contradiction.
Qed.

Lemma numeric_literal_value_witness :
  parseExpression 1 [mkToken (NumericLiteralToken (lit "2147483648")) 6]
    (Some (unary (lit "-"))) = Ok (NumericLiteral (-2147483648)) /\
  parseExpression 1 [mkToken (NumericLiteralToken (lit "2147483648")) 6] None =
    Throw (ParseError "1 6: Out of range integer value").
Proof.
  split.
  - apply (@numeric_literal_value 1 (mkToken (NumericLiteralToken (lit "2147483648")) 6)
             (lit "2147483648") (Some (unary (lit "-"))) eq_refl).
    + split; [intro H; discriminate H | reflexivity].
    + exact I.
    + vm_compute. split; [discriminate | reflexivity].
  - apply (@numeric_literal_value 1 (mkToken (NumericLiteralToken (lit "2147483648")) 6)
             (lit "2147483648") None eq_refl).
    + split; [intro H; discriminate H | reflexivity].
    + exact I.
    + vm_compute. intros [_ H]. discriminate H.
Defined.

(** ** Prefix operators *)









(** ** Runs on concrete sources *)

(** C1: the specification asks that no [BinaryExpression] of a parsed
    program have a [BinaryExpression] as its right child, and that the line
    [x -> 1 + 2 + 3 + 4] have the right side [((1 + 2) + 3) + 4].  The
    rotation loop of [parseExpression] only follows the right child of the
    root, so the right child that a rotation hands to the new left operand
    stays as it was: on this line the parser returns [(1 + (2 + 3)) + 4],
    whose inner node [1 + (2 + 3)] has a binary right child. *)
Theorem chain_of_four_is_not_left_normal :
  let one := NumericLiteral 1 in
  let two := NumericLiteral 2 in
  let three := NumericLiteral 3 in
  let four := NumericLiteral 4 in
  let plus := BinaryExpression (lit "+") in
  exists program,
    compile (lit "x -> 1 + 2 + 3 + 4") = Ok program /\
    program_body program =
      [AssignmentStatement (Identifier (lit "x")) (plus (plus one (plus two three)) four)] /\
    forallb leftNormalStatement (program_body program) = false /\
    program_body program <>
      [AssignmentStatement (Identifier (lit "x")) (plus (plus (plus one two) three) four)].
Proof.
  eexists. split; [vm_compute; reflexivity|].
  split; [reflexivity|]. split; [reflexivity | discriminate].
Qed.

(** What the rotation loop does achieve: the right child of the root it
    returns is not a [BinaryExpression]. *)
Lemma leftRotate_root operator l r :
  exists operator' l' r',
    leftRotate operator l r = BinaryExpression operator' l' r' /\ isBinary r' = false.
Proof.
  revert operator l.
  induction r as [o a _ | o' l' _ r' IH | t _ p _ | c _ args | n | v];
    intros op l; try (do 3 eexists; split; reflexivity).
  simpl. apply IH.
Qed.

(** A parenthesised right operand is rotated like any other binary right
    child: [(1 + 2) * (3 + 4)] comes out as [((1 + 2) * 3) + 4]. *)
Lemma parenthesised_right_operand_is_rotated :
  compile (lit "x -> (1 + 2) * (3 + 4)") =
    Ok (mkProgram
          [AssignmentStatement (Identifier (lit "x"))
             (BinaryExpression (lit "+")
                (BinaryExpression (lit "*")
                   (BinaryExpression (lit "+") (NumericLiteral 1) (NumericLiteral 2))
                   (NumericLiteral 3))
                (NumericLiteral 4))]).
Proof. reflexivity. Qed.

(** The rotation does give the left-associated tree on three operands. *)
Lemma chain_of_three_is_left_normal :
  compile (lit "x -> 1 + 2 + 3") =
    Ok (mkProgram
          [AssignmentStatement (Identifier (lit "x"))
             (BinaryExpression (lit "+")
                (BinaryExpression (lit "+") (NumericLiteral 1) (NumericLiteral 2))
                (NumericLiteral 3))]).
Proof. reflexivity. Qed.

(** C9: the specification asks that a line made of [const] alone be
    rejected with a ParseError placed at the [const] token.  [parse] tests
    [identifierToken?.type] and then reads [identifierToken.row] to build
    the message; with no second token that read is on [undefined], and what
    is thrown is a TypeError. *)
Theorem const_alone_throws_type_error (c r : nat) :
  parse [mkLineToken c 0 [mkToken ConstToken r]] = Throw TypeError /\
  compile (lit "const") = Throw TypeError.
Proof. split; reflexivity. Qed.

(** An indented [const], alone or not, is rejected at the [const] token. *)
Lemma const_indented_is_rejected :
  compile (lit "  const") =
    Throw (ParseError "1 1: `const` keyword must be in the root scope (no indent)").
Proof. reflexivity. Qed.

(** C4, as stated: the two sources do not tokenise to the same result; the
    rows of the tokens after the comment count the comment. *)
Lemma nested_comment_shifts_rows :
  tokenise (lit "/* a /* b */ c */ x -> 1") <> tokenise (lit "x -> 1").
Proof. vm_compute. discriminate. Qed.

(** C4, amended: both sources tokenise, each to one line; the two lines
    have the same column, the same indent and the same tokens up to their
    rows, and every row of the first is the row of its counterpart plus 18,
    the width of the comment and of the space after it. *)
Theorem nested_comment_same_tokens :
  exists lt lt',
    tokenise (lit "/* a /* b */ c */ x -> 1") = Ok [lt] /\
    tokenise (lit "x -> 1") = Ok [lt'] /\
    column lt = column lt' /\
    indent lt = indent lt' /\
    tokenTypes lt = tokenTypes lt' /\
    tokenTypes lt' =
      [IdentifierToken (lit "x"); AssignmentToken; NumericLiteralToken (lit "1")] /\
    tokenRows lt = map (fun r => r + 18) (tokenRows lt').
Proof.
  do 2 eexists. split; [vm_compute; reflexivity|].
  split; [vm_compute; reflexivity|]. repeat split.
Qed.


(** When no line has given a token, the read of [column] is on
    [undefined]. *)
Lemma unclosed_comment_without_tokens :
  commentOpenAtEnd (lit "/*") /\ tokenise (lit "/*") = Throw TypeError.
Proof.
  split; [|reflexivity].
  eexists. split; [vm_compute; reflexivity | vm_compute; discriminate].
Qed.


(** C3, as stated: the row of the first token of a line with two leading
    spaces is 1, not 3; the offset is taken in the trimmed line. *)
Lemma row_ignores_leading_space :
  exists t,
    tokenise (lit "  x") = Ok [mkLineToken 1 1 [t]] /\
    length (leadingSpace (lit "  x")) = 2 /\
    row t = 1 /\ row t <> 2 + 1.
Proof.
  eexists. split; [vm_compute; reflexivity|]. simpl. repeat split. lia.
Qed.

(** ** The line loop of [parse] *)

Lemma setLength_length n statements : length (setLength n statements) = n.
Proof.
  unfold setLength. rewrite length_app, length_firstn, repeat_length. lia.
Qed.

(** A frame of the resized stack is a frame of the stack: what the
    resizing adds is holes. *)
Lemma frame_setLength n statements i r :
  frame (setLength n statements) i = Some r ->
  i < n /\ i < length statements /\ frame statements i = Some r.
Proof.
  unfold frame, setLength. intro H.
  destruct (nth_error (firstn n statements ++ repeat None (n - length statements)) i)
    as [[r'|]|] eqn:Hnth; try discriminate. injection H as ->.
  destruct (Nat.lt_ge_cases i (length (firstn n statements))) as [Hlt|Hge].
  - rewrite nth_error_app1 in Hnth by exact Hlt.
    rewrite length_firstn in Hlt.
    rewrite nth_error_firstn in Hnth.
    destruct (Nat.ltb_spec i n); [|discriminate].
    rewrite Hnth. repeat split; lia.
  - rewrite nth_error_app2 in Hnth by exact Hge.
    apply nth_error_In, repeat_spec in Hnth. discriminate.
Qed.

Lemma pushTo_ok h statements i object h' :
  pushTo h statements i object = Ok h' ->
  exists r, frame statements i = Some r /\ h' = push h r object.
Proof.
  unfold pushTo. destruct (frame statements i) as [r|]; [|discriminate].
  intros [= <-]. eauto.
Qed.

Ltac unpack H :=
  repeat match type of H with
         | bind _ _ = Ok _ =>
             let x := fresh "x" in
             let E := fresh "E" in
             apply bind_ok in H as (x & E & H)
         | (if ?b then _ else _) = Ok _ => destruct b eqn:?; try discriminate H
         | match ?x with _ => _ end = Ok _ => destruct x eqn:?; try discriminate H
         | Throw _ = Ok _ => discriminate H
         end.

Lemma parseBlock_effect ps lt token keyword make ps' :
  (forall test b, bodyOf (make test b) = Some b) ->
  parseBlock (heap ps) (setLength (indent lt + 1) (statements ps))
    (column lt) (indent lt) token (tokens lt) lt keyword make = Ok ps' ->
  lineEffect ps lt ps'.
Proof.
  intros Hmake H. unfold parseBlock in H.
  destruct (sliceFrom (tokens lt) 1); [discriminate|].
  apply bind_ok in H as (test & _ & H).
  unfold alloc in H. apply bind_ok in H as (h' & Hpush & H).
  apply pushTo_ok in Hpush as (r & Hframe & ->).
  injection H as <-. rewrite setLength_length in Hframe.
  replace (indent lt + 1 - 1) with (indent lt) in Hframe by lia.
  eapply (effect_block ps lt (i := indent lt)); eauto.
Qed.

(** A line that [parseLine] accepts has an allowed indent and one of the
    two effects. *)
Lemma parseLine_effect ps lt ps' :
  parseLine ps lt = Ok ps' -> indentAllowed ps lt /\ lineEffect ps lt ps'.
Proof.
  unfold parseLine. intro H.
  destruct (_ || _) eqn:Hindent; [discriminate|].
  apply orb_false_iff in Hindent as [Hmin Hmax].
  split.
  { split; intros m Hm; rewrite Hm in *.
    - apply Nat.ltb_ge in Hmin. exact Hmin.
    - apply Nat.ltb_ge in Hmax. exact Hmax. }
  clear Hmin Hmax.
  destruct (tokens lt) as [|token rest] eqn:Htokens; [discriminate|].
  rewrite <- Htokens in H.
  assert (Htop : length (setLength (indent lt + 1) (statements ps)) - 1 = indent lt)
    by (rewrite setLength_length; lia).
  rewrite Htop in H.
  destruct (type token) eqn:Htype; try discriminate.
  - (* identifier *)
    unpack H;
      match goal with
      | Hp : pushTo _ _ _ _ = Ok _ |- _ => apply pushTo_ok in Hp as (r & Hframe & ->)
      end;
      injection H as <-;
      eapply (effect_statement ps lt (i := indent lt)); eauto;
      intros e' [= <-]; reflexivity.
  - (* memory *)
    unpack H;
      match goal with
      | Hp : pushTo _ _ _ _ = Ok _ |- _ => apply pushTo_ok in Hp as (r & Hframe & ->)
      end;
      injection H as <-;
      eapply (effect_statement ps lt (i := indent lt)); eauto;
      intros e' [= <-]; reflexivity.
  - (* if *)
    eapply parseBlock_effect; [|exact H]. reflexivity.
  - (* while *)
    eapply parseBlock_effect; [|exact H]. reflexivity.
  - (* def *)
    destruct (negb (indent lt =? 0)) eqn:Hroot; [discriminate|].
    apply negb_false_iff, Nat.eqb_eq in Hroot.
    unpack H.
    match goal with
    | Ha : alloc _ = _ |- _ => unfold alloc in Ha; injection Ha as <- <-
    end.
    match goal with
    | Hp : pushTo _ _ _ _ = Ok _ |- _ => apply pushTo_ok in Hp as (r & Hframe & ->)
    end.
    injection H as <-.
    eapply (effect_block ps lt (i := 0)); eauto.
  - (* const *)
    destruct (negb (indent lt =? 0)) eqn:Hroot; [discriminate|].
    apply negb_false_iff, Nat.eqb_eq in Hroot.
    unpack H.
    match goal with
    | Hp : pushTo _ _ _ _ = Ok _ |- _ => apply pushTo_ok in Hp as (r & Hframe & ->)
    end.
    injection H as <-.
    eapply (effect_statement ps lt (i := 0)); eauto. discriminate.
Qed.

Lemma push_In h r object r0 object0 :
  In object0 (arrays (push h r object) r0) ->
  In object0 (arrays h r0) \/ (r0 = r /\ object0 = object).
Proof.
  simpl. destruct (Nat.eqb_spec r0 r) as [->|Hne]; [|auto].
  intro H. apply in_app_or in H as [H|[H|[]]]; auto.
Qed.

Lemma push_keeps h r object b :
  arrays h b <> [] -> arrays (push h r object) b <> [].
Proof.
  simpl. destruct (Nat.eqb_spec b r) as [->|Hne]; [|auto].
  destruct (arrays h r); [congruence | discriminate].
Qed.

Lemma push_fills h r object : arrays (push h r object) r <> [].
Proof.
  simpl. rewrite Nat.eqb_refl. destruct (arrays h r); discriminate.
Qed.

Lemma alloc_In h r0 object0 :
  In object0 (arrays (snd (alloc h)) r0) -> r0 <> next h /\ In object0 (arrays h r0).
Proof.
  simpl. destruct (Nat.eqb_spec r0 (next h)) as [->|Hne]; [intros [] | auto].
Qed.

Lemma alloc_keeps h b :
  b <> next h -> arrays h b <> [] -> arrays (snd (alloc h)) b <> [].
Proof.
  simpl. intros Hb. destruct (Nat.eqb_spec b (next h)); [contradiction | auto].
Qed.

Lemma frame_last statements b :
  frame (statements ++ [Some b]) (length statements) = Some b.
Proof.
  unfold frame. rewrite nth_error_app2 by lia. now rewrite Nat.sub_diag.
Qed.

Lemma frame_app statements b i r :
  frame (statements ++ [Some b]) i = Some r ->
  frame statements i = Some r \/ r = b.
Proof.
  unfold frame. destruct (Nat.lt_ge_cases i (length statements)) as [Hlt|Hge].
  - rewrite nth_error_app1 by exact Hlt. auto.
  - rewrite nth_error_app2 by exact Hge.
    destruct (i - length statements) as [|[|k]]; simpl; try discriminate.
    intros [= ->]. auto.
Qed.

(** The statement pushed by an accepted line lands in the body that was
    pending, if one was. *)
Lemma pending_is_target ps lt i r b :
  parseInvariant ps -> indentAllowed ps lt ->
  frame (setLength (indent lt + 1) (statements ps)) i = Some r ->
  i = indent lt \/ (i = 0 /\ indent lt = 0) ->
  pending ps b -> r = b.
Proof.
  intros Hinv [Hmin _] Hframe Hi (m & Hm & Hb).
  destruct (@inv_min ps Hinv m Hm) as (Hm1 & Hlen & _ & _).
  specialize (Hmin m Hm).
  apply frame_setLength in Hframe as (_ & Hlt & Hframe).
  destruct Hi as [-> | [_ H0]]; [|lia].
  assert (indent lt = m) as Heq by lia. rewrite Heq in Hframe. congruence.
Qed.

Lemma parseInvariant_initial : parseInvariant initialState.
Proof.
  constructor; simpl.
  - intros r object b _ Hin. destruct (r =? 0); destruct Hin.
  - intros [|i] r; unfold frame; simpl.
    + intros [= <-]. lia.
    + destruct i; discriminate.
  - discriminate.
  - intros r e. destruct (r =? 0); intros [].
  - lia.
Qed.

Lemma parseInvariant_step ps lt ps' :
  parseInvariant ps -> indentAllowed ps lt -> lineEffect ps lt ps' ->
  parseInvariant ps'.
Proof.
  intros Hinv Hallowed Heffect.
  destruct Heffect as [i r object Hframe Hi Hbody Hcall | i r object Hframe Hi Hbody].
  - (* a statement without a body *)
    assert (Htarget : forall b, pending ps b -> r = b)
      by (intro b; exact (pending_is_target Hinv Hallowed Hframe Hi)).
    constructor; cbn [heap statements minIndent maxIndent lastLineToken].
    + intros r0 object0 b Hr0 Hin Hb.
      apply push_In in Hin as [Hin | [_ ->]]; [|congruence].
      destruct (@inv_bodies ps Hinv r0 object0 b Hr0 Hin Hb) as (H1 & H2 & H3).
      repeat split; try assumption. left.
      destruct H3 as [H3|H3]; [now apply push_keeps|].
      rewrite (Htarget b H3). apply push_fills.
    + intros j r0 Hj. apply frame_setLength in Hj as (_ & _ & Hj).
      exact (@inv_frames ps Hinv _ _ Hj).
    + discriminate.
    + intros r0 e Hin. apply push_In in Hin as [Hin | [_ Heq]].
      * exact (@inv_calls ps Hinv _ _ Hin).
      * symmetry in Heq. exact (Hcall e Heq).
    + exact (inv_root Hinv).
  - (* a block statement and its fresh body *)
    assert (Htarget : forall b, pending ps b -> r = b)
      by (intro b; exact (pending_is_target Hinv Hallowed Hframe Hi)).
    pose proof Hframe as Hr. apply frame_setLength in Hr as (_ & _ & Hr).
    apply (@inv_frames ps Hinv) in Hr.
    constructor; cbn [heap statements minIndent maxIndent lastLineToken].
    + intros r0 object0 b Hr0 Hin Hb.
      apply push_In in Hin as [Hin | [-> ->]].
      * apply alloc_In in Hin as [Hfresh Hin].
        assert (Hr0' : r0 < next (heap ps)) by (simpl in Hr0; lia).
        destruct (@inv_bodies ps Hinv r0 object0 b Hr0' Hin Hb) as (H1 & H2 & H3).
        split; [exact H1|]. split; [simpl; lia|]. left.
        destruct H3 as [H3|H3].
        -- apply push_keeps, alloc_keeps; [lia | exact H3].
        -- rewrite (Htarget b H3). apply push_fills.
      * rewrite Hbody in Hb. injection Hb as <-.
        split; [exact Hr|]. split; [simpl; lia|]. right.
        exists (indent lt + 1). split; [reflexivity|].
        cbn [statements].
        rewrite <- (setLength_length (indent lt + 1) (statements ps)) at 2.
        apply frame_last.
    + intros j r0 Hj. apply frame_app in Hj as [Hj | ->]; [|simpl; lia].
      apply frame_setLength in Hj as (_ & _ & Hj).
      pose proof (@inv_frames ps Hinv _ _ Hj). simpl. lia.
    + intros m [= <-]. split; [lia|]. split.
      * rewrite length_app, setLength_length. simpl. lia.
      * split; [|discriminate]. exists (next (heap ps)).
        rewrite <- (setLength_length (indent lt + 1) (statements ps)) at 2.
        apply frame_last.
    + intros r0 e Hin. apply push_In in Hin as [Hin | [_ Heq]].
      * apply alloc_In in Hin as [_ Hin]. exact (@inv_calls ps Hinv _ _ Hin).
      * rewrite <- Heq in Hbody. discriminate.
    + simpl. lia.
Qed.

Lemma parseInvariant_lines lineTokens :
  forall ps ps',
    parseInvariant ps -> parseLines ps lineTokens = Ok ps' -> parseInvariant ps'.
Proof.
  induction lineTokens as [|lt more IH]; intros ps ps' Hinv H; simpl in H.
  - now injection H as <-.
  - apply bind_ok in H as (ps1 & Hline & H).
    apply parseLine_effect in Hline as [Hallowed Heffect].
    exact (IH _ _ (parseInvariant_step Hinv Hallowed Heffect) H).
Qed.

(** ** The tree read back from the store *)

Lemma read_bodies h :
  (forall r object b,
     r < next h -> In object (arrays h r) -> bodyOf object = Some b ->
     r < b /\ b < next h /\ arrays h b <> []) ->
  forall fuel r,
    next h <= fuel + r -> r < next h ->
    forallb bodiesNonEmpty (readStatements fuel h r) = true.
Proof.
  intros Hwf. induction fuel as [|fuel IH]; intros r Hfuel Hr; [lia|].
  cbn [readStatements]. apply forallb_forall. intros s Hs.
  apply in_map_iff in Hs as (object & <- & Hin).
  assert (Hbody : forall b, bodyOf object = Some b ->
            negb (isEmpty (readStatements fuel h b))
            && forallb bodiesNonEmpty (readStatements fuel h b) = true).
  { intros b Hb. destruct (Hwf r object b Hr Hin Hb) as (Hlt & Hnext & Hne).
    rewrite IH by lia. rewrite andb_true_r.
    destruct fuel as [|fuel']; [lia|]. cbn [readStatements].
    destruct (arrays h b); [congruence | reflexivity]. }
  destruct object; simpl; try reflexivity; apply Hbody; reflexivity.
Qed.

Lemma read_calls h :
  (forall r e, In (ExpressionObject e) (arrays h r) -> isCall e = true) ->
  forall fuel r, forallb statementsAreCalls (readStatements fuel h r) = true.
Proof.
  intros Hcalls. induction fuel as [|fuel IH]; intro r; [reflexivity|].
  cbn [readStatements]. apply forallb_forall. intros s Hs.
  apply in_map_iff in Hs as (object & <- & Hin).
  destruct object; simpl; try reflexivity; try apply IH.
  exact (Hcalls _ _ Hin).
Qed.

(** [parse] returns only from a state that the invariant describes and in
    which no body is pending. *)
Lemma parse_returns lineTokens program :
  parse lineTokens = Ok program ->
  exists ps,
    parseInvariant ps /\ minIndent ps = None /\
    program = mkProgram (readStatements (next (heap ps)) (heap ps) 0).
Proof.
  unfold parse. intro H. apply bind_ok in H as (ps & Hlines & Hfinish).
  pose proof (parseInvariant_lines lineTokens parseInvariant_initial Hlines) as Hinv.
  exists ps. split; [exact Hinv|].
  unfold finish in Hfinish.
  destruct (minIndent ps) as [m|] eqn:Hmin.
  - destruct (@inv_min ps Hinv m Hmin) as (_ & _ & _ & Hlast).
    destruct (lastLineToken ps); [discriminate | congruence].
  - split; [reflexivity|]. now injection Hfinish as <-.
Qed.

Lemma parseLines_app a b :
  forall ps, parseLines ps (a ++ b) = (ps' <- parseLines ps a ;; parseLines ps' b).
Proof.
  induction a as [|lt a IH]; intro ps; simpl; [reflexivity|].
  destruct (parseLine ps lt) as [ps1|e]; simpl; [apply IH | reflexivity].
Qed.

Lemma parseBlock_pending h statements c i token tokens lt keyword make ps' :
  parseBlock h statements c i token tokens lt keyword make = Ok ps' ->
  minIndent ps' = Some (i + 1) /\ lastLineToken ps' = Some lt.
Proof.
  unfold parseBlock. intro H. unpack H. now injection H as <-.
Qed.

(** A line that opens a block leaves [minIndent] set. *)
Lemma block_line_pending ps lt ps' :
  opensBlock lt -> parseLine ps lt = Ok ps' ->
  minIndent ps' = Some (indent lt + 1) /\ lastLineToken ps' = Some lt.
Proof.
  unfold opensBlock, parseLine. intros Hopens H.
  destruct (_ || _); [discriminate|].
  destruct (tokens lt) as [|token rest] eqn:Htokens; [destruct Hopens|].
  rewrite <- Htokens in H.
  destruct (type token); try destruct Hopens.
  - exact (parseBlock_pending _ _ _ _ _ _ _ _ _ H).
  - exact (parseBlock_pending _ _ _ _ _ _ _ _ _ H).
  - unpack H. now injection H as <-.
Qed.

(** C7: in every Program that [parse] returns, every [if], [while] and
    [def], at any depth, has a body that is not empty; and when the lines
    before the last one are accepted and the last line is an accepted [if],
    [while] or [def] line, [parse] throws the ParseError made of the column
    of that line, a colon and "There is no body for the last `if` or `while`
    or `def` statement". *)
Theorem block_bodies_non_empty :
  (forall lineTokens program,
     parse lineTokens = Ok program ->
     forallb bodiesNonEmpty (program_body program) = true) /\
  (forall earlier last ps ps',
     parseLines initialState earlier = Ok ps ->
     parseLine ps last = Ok ps' ->
     opensBlock last ->
     parse (earlier ++ [last]) =
     Throw (ParseError
              (show (column last)
                 ++ ": There is no body for the last `if` or `while` or `def` statement")%string)).
Proof.
  split.
  - intros lineTokens program H.
    apply parse_returns in H as (ps & Hinv & Hmin & ->). simpl.
    apply read_bodies; [|lia | exact (inv_root Hinv)].
    intros r object b Hr Hin Hb.
    destruct (@inv_bodies ps Hinv r object b Hr Hin Hb) as (H1 & H2 & [H3|H3]).
    + auto.
    + destruct H3 as (m & Hm & _). congruence.
  - intros earlier last ps ps' Hearlier Hlast Hopens.
    unfold parse. rewrite parseLines_app, Hearlier. simpl. rewrite Hlast. simpl.
    destruct (block_line_pending _ _ Hopens Hlast) as [Hmin Hlt].
    unfold finish. rewrite Hmin, Hlt. reflexivity.
Qed.

Lemma block_bodies_non_empty_witness :
  forallb bodiesNonEmpty (program_body sampleProgram) = true /\
  parse (firstn 2 sampleLines ++ [mkLineToken 3 1 [mkToken WhileToken 1;
                                                   mkToken (IdentifierToken (lit "x")) 7]]) =
  Throw (ParseError "3: There is no body for the last `if` or `while` or `def` statement").
Proof.
  split.
  - apply (proj1 block_bodies_non_empty sampleLines sampleProgram). reflexivity.
  - eapply (proj2 block_bodies_non_empty (firstn 2 sampleLines)).
    + reflexivity.
    + reflexivity.
    + exact I.
Defined.

(** ** Expression statements *)

(** What [parseLine] does with a line that starts with an identifier or
    with [memory] and has no [->], once the indent is allowed. *)
Lemma bare_line_unfold ps lt :
  isBareExpressionLine lt ->
  indentAllowed ps lt ->
  parseLine ps lt =
  (expression <- parseExpression (column lt) (tokens lt) None ;;
   match expression with
   | CallExpression _ _ =>
       h <- pushTo (heap ps) (setLength (indent lt + 1) (statements ps)) (indent lt)
              (ExpressionObject expression) ;;
       Ok (mkParseState h (setLength (indent lt + 1) (statements ps)) None
             (Some (indent lt)) (Some lt))
   | _ => Throw (at1 (column lt) "This expression has no effect")
   end).
Proof.
  unfold isBareExpressionLine, parseLine. intros Hbare [Hmin Hmax].
  assert (Hcheck :
            match minIndent ps with Some m => indent lt <? m | None => false end
            || match maxIndent ps with Some m => m <? indent lt | None => false end
            = false).
  { apply orb_false_iff. split.
    - destruct (minIndent ps) as [m|]; [|reflexivity].
      apply Nat.ltb_ge. now apply Hmin.
    - destruct (maxIndent ps) as [m|]; [|reflexivity].
      apply Nat.ltb_ge. now apply Hmax. }
  rewrite Hcheck.
  rewrite setLength_length. replace (indent lt + 1 - 1) with (indent lt) by lia.
  destruct (tokens lt) as [|token rest] eqn:Htokens; [destruct Hbare|].
  destruct (type token); try contradiction; rewrite Hbare; reflexivity.
Qed.

Lemma indent_checked ps lt :
  indentAllowed ps lt \/ parseLine ps lt = Throw (at1 (column lt) "Invalid indent space").
Proof.
  unfold parseLine, indentAllowed.
  destruct (_ || _) eqn:Hcheck; [now right | left].
  apply orb_false_iff in Hcheck as [Hmin Hmax].
  split; intros m Hm; rewrite Hm in *; now apply Nat.ltb_ge.
Qed.

(** C8: a line whose first token is an identifier or [memory] and which has
    no [->] is accepted only when its tokens parse, as one expression, to a
    [CallExpression], and what is pushed is the [ExpressionStatement] of
    that call; when they parse to anything else, or do not parse, the line
    is rejected; and in every Program that [parse] returns, the expression
    of every [ExpressionStatement], at any depth, is a [CallExpression]. *)
Theorem expression_statements_are_calls :
  (forall ps lt ps',
     isBareExpressionLine lt ->
     parseLine ps lt = Ok ps' ->
     exists callee arguments r,
       parseExpression (column lt) (tokens lt) None = Ok (CallExpression callee arguments) /\
       heap ps' =
         push (heap ps) r (ExpressionObject (CallExpression callee arguments))) /\
  (forall ps lt,
     isBareExpressionLine lt ->
     (forall callee arguments,
        parseExpression (column lt) (tokens lt) None <> Ok (CallExpression callee arguments)) ->
     exists e, parseLine ps lt = Throw e /\ e <> OutOfFuel) /\
  (forall ps lt e,
     isBareExpressionLine lt ->
     indentAllowed ps lt ->
     parseExpression (column lt) (tokens lt) None = Ok e ->
     isCall e = false ->
     parseLine ps lt =
     Throw (ParseError (show (column lt) ++ ": This expression has no effect")%string)) /\
  (forall lineTokens program,
     parse lineTokens = Ok program ->
     forallb statementsAreCalls (program_body program) = true).
Proof.
  split; [|split; [|split]].
  - intros ps lt ps' Hbare H.
    destruct (indent_checked ps lt) as [Hallowed | Hthrow]; [|congruence].
    rewrite (bare_line_unfold Hbare Hallowed) in H.
    apply bind_ok in H as (expression & Hparse & H).
    destruct expression as [| | | callee arguments | |]; try discriminate.
    apply bind_ok in H as (h & Hpush & H).
    apply pushTo_ok in Hpush as (r & _ & ->). injection H as <-.
    exists callee, arguments, r. split; [exact Hparse | reflexivity].
  - intros ps lt Hbare Hshape.
    destruct (indent_checked ps lt) as [Hallowed | Hthrow].
    + rewrite (bare_line_unfold Hbare Hallowed).
      pose proof (parseExpression_total (column lt) (tokens lt) None) as Htotal.
      destruct (parseExpression (column lt) (tokens lt) None) as [expression|e] eqn:Hparse.
      * destruct expression as [| | | callee arguments | |]; simpl;
          try (eexists; split; [reflexivity | discriminate]).
        exfalso. exact (Hshape callee arguments eq_refl).
      * simpl. exists e. split; [reflexivity | congruence].
    + rewrite Hthrow. eexists. split; [reflexivity | discriminate].
  - intros ps lt e Hbare Hallowed Hparse Hcall.
    rewrite (bare_line_unfold Hbare Hallowed), Hparse. simpl.
    destruct e; try reflexivity. discriminate.
  - intros lineTokens program H.
    apply parse_returns in H as (ps & Hinv & _ & ->). simpl.
    apply read_calls. exact (@inv_calls ps Hinv).
Qed.

Lemma expression_statements_are_calls_witness :
  forallb statementsAreCalls (program_body sampleProgram) = true /\
  parseLine initialState
    (mkLineToken 1 0 [mkToken (IdentifierToken (lit "f")) 1; mkToken (OperatorToken (lit "+")) 3;
                      mkToken (NumericLiteralToken (lit "1")) 5]) =
  Throw (ParseError "1: This expression has no effect").
Proof.
  split.
  - apply (proj2 (proj2 (proj2 expression_statements_are_calls)) sampleLines sampleProgram).
    reflexivity.
  - eapply (proj1 (proj2 (proj2 expression_statements_are_calls))).
    + reflexivity.
    + split; discriminate.
    + reflexivity.
    + reflexivity.
Defined.

(** ** The line loop of the tokeniser *)


(** The stack after a line: its top entry is the space count of the line,
    and it is at most one entry longer than before. *)
Lemma updateIndents_top c space indents indents' :
  updateIndents c space indents = Ok indents' ->
  nth_error indents' (length indents' - 1) = Some space /\
  length indents' - 1 <= length indents - 1 + 1.
Proof.
  unfold updateIndents.
  destruct (indexOf space indents) as [k|] eqn:Hk.
  - intros [= <-].
    assert (Hnth : k < length indents /\ nth_error indents k = Some space).
    { clear - Hk. revert k Hk. induction indents as [|x rest IH]; intros k Hk;
        [discriminate|]. simpl in Hk.
      destruct (Nat.eqb_spec x space) as [->|Hne].
      - injection Hk as <-. simpl. split; [lia | reflexivity].
      - destruct (indexOf space rest) as [j|]; [|discriminate].
        injection Hk as <-. destruct (IH j eq_refl) as [H1 H2]. simpl. split; [lia | exact H2]. }
    destruct Hnth as [Hlt Hnth].
    rewrite length_firstn. replace (Nat.min (k + 1) (length indents)) with (k + 1) by lia.
    replace (k + 1 - 1) with k by lia.
    rewrite nth_error_firstn.
    destruct (Nat.ltb_spec k (k + 1)); [|lia]. split; [exact Hnth | lia].
  - destruct (space <? last indents 0); [discriminate|]. intros [= <-].
    rewrite length_app. simpl. replace (length indents + 1 - 1) with (length indents) by lia.
    rewrite nth_error_app2 by lia. rewrite Nat.sub_diag. split; [reflexivity | lia].
Qed.

(** What one turn of the line loop does. *)
Lemma tokeniseLine_effect lx ln lx' :
  tokeniseLine lx ln = Ok lx' ->
  exists s,
    scanLine (line_column ln) (line_text ln) (mkScan [] None 0 (commentCount lx))
      (iterateCodePoint (line_text ln)) = Ok s /\
    updateIndents (line_column ln) (line_space ln) (indents lx) = Ok (indents lx') /\
    (lineTokens lx' = lineTokens lx \/
     scan_tokens s <> [] /\
     lineTokens lx' =
       lineTokens lx ++
         [mkLineToken (line_column ln + 1) (length (indents lx') - 1) (scan_tokens s)]).
Proof.
  unfold tokeniseLine. intro H.
  apply bind_ok in H as (s & Hscan & H). apply bind_ok in H as (indents' & Hind & H).
  injection H as <-. exists s. simpl. split; [exact Hscan|]. split; [exact Hind|].
  destruct (scan_tokens s); [left; reflexivity | right; split; [discriminate | reflexivity]].
Qed.

(** Every emitted LineToken comes from a turn of the loop on some line. *)
Lemma emitted_origin lines :
  forall lx0 lx lt,
    tokeniseLines lx0 lines = Ok lx -> In lt (lineTokens lx) ->
    In lt (lineTokens lx0) \/
    exists earlier ln later lx1 lx2,
      lines = earlier ++ ln :: later /\
      tokeniseLines lx0 earlier = Ok lx1 /\
      tokeniseLine lx1 ln = Ok lx2 /\
      lineTokens lx2 = lineTokens lx1 ++ [lt].
Proof.
  induction lines as [|ln more IH]; intros lx0 lx lt H Hin; simpl in H.
  - injection H as <-. now left.
  - apply bind_ok in H as (lx1 & Hline & H).
    destruct (IH lx1 lx lt H Hin) as [Hold | (earlier & ln' & later & lxa & lxb & -> & Ha & Hb & Hc)].
    + destruct (tokeniseLine_effect _ _ Hline) as (s & _ & _ & [Hsame | [_ Hnew]]).
      * left. congruence.
      * rewrite Hnew in Hold. apply in_app_or in Hold as [Hold | [<- | []]]; [now left|].
        right. exists [], ln, more, lx0, lx1. repeat split; auto.
    + right. exists (ln :: earlier), ln', later, lxa, lxb. repeat split; auto.
      simpl. rewrite Hline. exact Ha.
Qed.





(** ** Rows *)

Lemma lexeme_wordToken word : lexeme (wordToken word) = word.
Proof.
  unfold wordToken.
  repeat match goal with
         | |- context [if ?a === ?b then _ else _] =>
             let E := fresh in
             destruct (a === b) eqn:E; [apply str_eqb_eq in E; now rewrite E|]
         end.
  reflexivity.
Qed.

(** A token whose value is a slice of the text that starts at [from]
    records its place when its row is [from + 1]. *)
Lemma tokenAt_slice text t from to :
  row t = from + 1 -> lexeme (type t) = sliceN text from to -> tokenAt text t.
Proof.
  intros Hrow Hlex. unfold tokenAt. rewrite Hrow, Hlex.
  replace (from + 1 - 1) with from by lia. split; [lia | apply sliceN_again].
Qed.

(** A token whose lexeme is read from the text at [from] records its place
    when its row is [from + 1]. *)
Lemma tokenAt_read text t from :
  row t = from + 1 ->
  sliceN text from (from + length (lexeme (type t))) = lexeme (type t) ->
  tokenAt text t.
Proof.
  intros Hrow Hlex. unfold tokenAt. rewrite Hrow.
  replace (from + 1 - 1) with from by lia. split; [lia | exact Hlex].
Qed.

Lemma codePointAt_literal text r codePoint (s : string) :
  codePointAt text r codePoint -> (codePoint === lit s) = true -> lit s <> EOL ->
  sliceN text r (r + length (lit s)) = lit s.
Proof.
  intros [-> | Hat] Heq Hne; apply str_eqb_eq in Heq.
  - congruence.
  - now rewrite <- Heq.
Qed.

Ltac test_code_point H :=
  match goal with
  | |- context [if (?a === lit ?c) then _ else _] =>
      destruct (a === lit c) eqn:H
  end.

(** The dispatch on a code point, entered with no token in progress and
    outside any comment. *)
Lemma startToken_invariant text r codePoint s :
  state s = None -> multiLineCommentCount s = 0 ->
  Forall (tokenAt text) (scan_tokens s) ->
  codePointAt text r codePoint ->
  scanInvariant text (r + length codePoint) (scanOf (startToken s r codePoint)).
Proof.
  intros Hstate Hcount Htokens Hat. unfold startToken. rewrite Hstate.
  assert (Hsame : scanInvariant text (r + length codePoint) s)
    by (split; [exact Htokens | now rewrite Hstate]).
  assert (Hpush : forall t,
             sliceN text r (r + length (lexeme t)) = lexeme t ->
             scanInvariant text (r + length codePoint) (pushToken s t (r + 1))).
  { intros t Ht. split; simpl; [|now rewrite Hstate].
    apply Forall_app. split; [exact Htokens|]. constructor; [|constructor].
    now apply (@tokenAt_read text (mkToken t (r + 1)) r). }
  assert (Hone : forall c : string,
             (codePoint === lit c) = true -> lit c <> EOL -> length (lit c) = 1 ->
             sliceN text r (r + 1) = lit c /\ length codePoint = 1).
  { intros c Hc Hne Hlen. pose proof (codePointAt_literal c Hat Hc Hne) as Hread.
    apply str_eqb_eq in Hc. rewrite Hc, Hlen. rewrite Hlen in Hread. auto. }
  test_code_point H1; [exact Hsame|].
  test_code_point H2.
  { destruct (Hone "-"%string H2) as [Hread Hlen]; [discriminate | reflexivity|].
    split; simpl; [exact Htokens|]. rewrite Hlen. auto. }
  destruct ((codePoint === lit "<") || (codePoint === lit ">") || (codePoint === lit "!")).
  { split; simpl; [exact Htokens | exact I]. }
  test_code_point H3.
  { destruct (Hone "/"%string H3) as [Hread Hlen]; [discriminate | reflexivity|].
    split; simpl; [exact Htokens|]. rewrite Hlen. auto. }
  destruct ((codePoint === lit "+") || (codePoint === lit "=") || (codePoint === lit "*"))
    eqn:H4.
  { apply Hpush. simpl.
    destruct Hat as [-> | Hat]; [discriminate H4 | exact Hat]. }
  test_code_point H5.
  { apply Hpush. apply (codePointAt_literal ","%string Hat H5). discriminate. }
  test_code_point H6.
  { apply Hpush. apply (codePointAt_literal "("%string Hat H6). discriminate. }
  test_code_point H7.
  { apply Hpush. apply (codePointAt_literal ")"%string Hat H7). discriminate. }
  test_code_point H8.
  { apply Hpush. apply (codePointAt_literal "["%string Hat H8). discriminate. }
  test_code_point H9.
  { apply Hpush. apply (codePointAt_literal "]"%string Hat H9). discriminate. }
  destruct (isNumberCodePoint codePoint).
  { split; simpl; [exact Htokens | exact I]. }
  destruct (isIdentifierCodePoint codePoint).
  { split; simpl; [exact Htokens | exact I]. }
  exact Hsame.
Qed.

(** One turn of the code-point loop keeps the invariant. *)
Lemma scanCodePoint_invariant c text r codePoint s flow :
  scanInvariant text r s ->
  codePointAt text r codePoint ->
  scanCodePoint c text s r codePoint = Ok flow ->
  scanInvariant text (r + length codePoint) (scanOf flow).
Proof.
  intros [Htokens Hpending] Hat. unfold scanCodePoint.
  destruct (0 <? multiLineCommentCount s) eqn:Hcomment.
  { apply Nat.ltb_lt in Hcomment.
    assert (Hidle : forall n, scanInvariant text (r + length codePoint) (setCount s n)).
    { intro n. split; simpl; [exact Htokens|].
      destruct (state s) as [[| | | |]|]; try exact I; lia. }
    assert (Hsame : scanInvariant text (r + length codePoint) s).
    { split; [exact Htokens|]. destruct (state s) as [[| | | |]|]; try exact I; lia. }
    destruct (_ === lit "/*"); [intros [= <-]; apply Hidle|].
    destruct (_ === lit "*/"); intros [= <-]; [apply Hidle | exact Hsame]. }
  apply Nat.ltb_ge in Hcomment.
  assert (Hcount : multiLineCommentCount s = 0) by lia.
  assert (Hemit : forall t,
             tokenAt text (mkToken t (startRow s + 1)) ->
             scanInvariant text (r + length codePoint)
               (scanOf (startToken (emit s t (startRow s + 1)) r codePoint))).
  { intros t Ht. apply startToken_invariant; auto.
    simpl. apply Forall_app. split; [exact Htokens | now constructor]. }
  assert (Hdone : forall t,
             tokenAt text (mkToken t (startRow s + 1)) ->
             scanInvariant text (r + length codePoint) (emit s t (startRow s + 1))).
  { intros t Ht. split; simpl; [|exact I].
    apply Forall_app. split; [exact Htokens | now constructor]. }
  destruct (state s) as [[| | | |]|] eqn:Hstate.
  - (* identifier *)
    destruct (isIdentifierCodePoint codePoint); intros [= <-].
    + split; [exact Htokens | simpl; now rewrite Hstate].
    + apply Hemit. eapply tokenAt_slice; [reflexivity | apply lexeme_wordToken].
  - (* literal *)
    destruct (isNumberCodePoint codePoint); intros [= <-].
    + split; [exact Htokens | simpl; now rewrite Hstate].
    + apply Hemit. eapply tokenAt_slice; reflexivity.
  - (* minus *)
    destruct Hpending as (_ & Hrow & Hread).
    destruct (codePoint === lit ">") eqn:Hgt; intros [= <-].
    + apply Hdone. apply (@tokenAt_read text _ (startRow s)); [reflexivity|].
      pose proof (codePointAt_literal ">"%string Hat Hgt ltac:(discriminate)) as Hnext.
      rewrite <- Hrow in Hnext.
      change (length (lit ">")) with 1 in Hnext.
      replace (startRow s + 1 + 1) with (startRow s + 2) in Hnext by lia.
      exact (sliceN_glue text (startRow s) Hread Hnext).
    + apply Hemit. apply (@tokenAt_read text _ (startRow s)); [reflexivity | exact Hread].
  - (* angle or exclamation *)
    destruct (codePoint === lit "="); [intros [= <-]|].
    + apply Hdone. eapply tokenAt_slice; reflexivity.
    + destruct (_ === lit "!"); [discriminate|]. intros [= <-].
      apply Hemit. eapply tokenAt_slice; reflexivity.
  - (* slash *)
    destruct Hpending as (_ & Hrow & Hread).
    destruct (codePoint === lit "*"); intros [= <-].
    + split; simpl; [exact Htokens | exact I].
    + apply Hemit. apply (@tokenAt_read text _ (startRow s)); [reflexivity | exact Hread].
  - (* no token in progress *)
    intros [= <-]. now apply startToken_invariant.
Qed.

Lemma skipn_head {A : Type} (l : list A) (n : nat) (x : A) (rest : list A) :
  skipn n l = x :: rest -> sliceN l n (n + 1) = [x] /\ skipn (n + 1) l = rest.
Proof.
  intro H. unfold sliceN. replace (n + 1 - n) with 1 by lia.
  replace (n + 1) with (1 + n) by lia. rewrite <- skipn_skipn, H. auto.
Qed.

(** The code-point loop, run from any offset of the text, ends with tokens
    that all record their place. *)
Lemma scanLine_invariant c text :
  forall n rest r s s',
    length rest <= n ->
    skipn r text = rest ->
    scanInvariant text r s ->
    scanLine c text s (iterateCodePointFrom r rest) = Ok s' ->
    Forall (tokenAt text) (scan_tokens s').
Proof.
  assert (Hturn : forall r codePoint s more s',
             scanInvariant text r s ->
             codePointAt text r codePoint ->
             (forall s1, scanInvariant text (r + length codePoint) s1 ->
                         scanLine c text s1 more = Ok s' ->
                         Forall (tokenAt text) (scan_tokens s')) ->
             scanLine c text s ((r, codePoint) :: more) = Ok s' ->
             Forall (tokenAt text) (scan_tokens s')).
  { intros r codePoint s more s' Hinv Hat Hmore. simpl.
    destruct (scanCodePoint c text s r codePoint) as [flow|e] eqn:Hstep; [|discriminate].
    pose proof (scanCodePoint_invariant _ Hinv Hat Hstep) as Hnext.
    destruct flow as [s1|s1]; simpl in Hnext.
    - now apply Hmore.
    - intros [= <-]. exact (proj1 Hnext). }
  induction n as [|n IH]; intros rest r s s' Hlen Hskip Hinv.
  - destruct rest; [|simpl in Hlen; lia]. simpl iterateCodePointFrom.
    apply Hturn; [exact Hinv | now left|].
    intros s1 Hs1. simpl. intros [= <-]. exact (proj1 Hs1).
  - destruct rest as [|u rest]; simpl iterateCodePointFrom.
    + apply Hturn; [exact Hinv | now left|].
      intros s1 Hs1. simpl. intros [= <-]. exact (proj1 Hs1).
    + destruct (skipn_head _ _ Hskip) as [Hu Hrest].
      assert (Hsingle : forall s',
                scanLine c text s ((r, [u]) :: iterateCodePointFrom (r + 1) rest) = Ok s' ->
                Forall (tokenAt text) (scan_tokens s')).
      { intro s2. apply Hturn; [exact Hinv | right; exact Hu|].
        intros s1 Hs1. apply (IH rest (r + 1)); [simpl in Hlen; lia | exact Hrest | exact Hs1]. }
      destruct rest as [|v rest']; [apply Hsingle|].
      destruct (isLeadSurrogate u && isTrailSurrogate v); [|apply Hsingle].
      destruct (skipn_head _ _ Hrest) as [Hv Hrest'].
      apply Hturn; [exact Hinv | |].
      * right. simpl. replace (r + 1 + 1) with (r + 2) in Hv by lia.
        exact (sliceN_glue text r Hu Hv).
      * intros s1 Hs1. simpl in Hs1.
        apply (IH rest' (r + 2)); [simpl in Hlen; lia | | exact Hs1].
        replace (r + 2) with (r + 1 + 1) by lia. exact Hrest'.
Qed.

(** The tokens of a line all record their place in the text of the line. *)
Lemma scanLine_tokens c text count s :
  scanLine c text (mkScan [] None 0 count) (iterateCodePoint text) = Ok s ->
  Forall (tokenAt text) (scan_tokens s).
Proof.
  intro H. unfold iterateCodePoint in H.
  eapply scanLine_invariant with (n := length text) (r := 0); [| | |exact H].
  - apply le_n.
  - reflexivity.
  - split; simpl; [constructor | exact I].
Qed.

(** A character outside the BMP is two code units wide: after the
    identifier made of U+1F600 alone, the [+] that follows a space stands at
    offset 3 and has row 4. *)
Lemma astral_identifier_is_two_units_wide :
  tokenise ([0xD83D; 0xDE00]%N ++ lit " + y") =
  Ok [mkLineToken 1 0
        [mkToken (IdentifierToken [0xD83D; 0xDE00]%N) 1;
         mkToken (OperatorToken (lit "+")) 4;
         mkToken (IdentifierToken (lit "y")) 6]].
Proof. reflexivity. Qed.

(** * Further properties of the tokeniser *)

Unset Implicit Arguments.

(** ** Where emitted lines come from *)

(** Every emitted LineToken holds the tokens of the code-point loop run on
    a line that [iterateLine] yields. *)
Lemma emitted_scan source lts lt :
  tokenise source = Ok lts -> In lt lts ->
  exists ln count s,
    In ln (iterateLine source) /\
    column lt = line_column ln + 1 /\
    scanLine (line_column ln) (line_text ln) (mkScan [] None 0 count)
      (iterateCodePoint (line_text ln)) = Ok s /\
    tokens lt = scan_tokens s /\ scan_tokens s <> [].
Proof.
  unfold tokenise, parseToTokens. intros H Hin.
  apply bind_ok in H as (lxEnd & Hlines & H).
  destruct (negb (commentCount lxEnd =? 0)).
  { destruct (lastEmitted (lineTokens lxEnd)); discriminate. }
  injection H as <-.
  destruct (emitted_origin _ _ lt Hlines Hin)
    as [[] | (earlier & ln & later & lx & lx' & Hsplit & _ & Hline & Hnew)].
  destruct (tokeniseLine_effect _ _ Hline) as (s & Hscan & _ & [Hsame | [Hne Hpush]]).
  { rewrite Hsame in Hnew. exfalso.
    apply (f_equal (@length LineToken)) in Hnew. rewrite length_app in Hnew. simpl in Hnew. lia. }
  rewrite Hpush in Hnew. apply app_inj_tail in Hnew as [_ <-].
  exists ln, (commentCount lx), s. simpl. repeat split; auto.
  rewrite Hsplit. apply in_or_app. right. now left.
Qed.

(** X1: no LineToken that [tokenise] returns has an empty [tokens] array, so
    the read of [tokens[0]] in [parse] is never on [undefined] when [parse]
    is given the output of [tokenise]. *)
Theorem emitted_lines_have_tokens source lts :
  tokenise source = Ok lts ->
  forall lt, In lt lts -> tokens lt <> [].
Proof.
  intros H lt Hin.
  destruct (emitted_scan _ _ _ H Hin) as (ln & count & s & _ & _ & _ & -> & Hne).
  exact Hne.
Qed.

Lemma emitted_lines_have_tokens_witness :
  tokens (mkLineToken 1 0 [mkToken (IdentifierToken (lit "x")) 5]) <> [].
Proof.
  apply (emitted_lines_have_tokens (unlines ["/**/x # y"; "   "; "# z"]%string)
           [mkLineToken 1 0 [mkToken (IdentifierToken (lit "x")) 5]] eq_refl).
  left. reflexivity.
Defined.

(** ** Columns *)

Lemma sorted_snoc (l : list nat) (x : nat) :
  StronglySorted lt l -> Forall (fun y => y < x) l -> StronglySorted lt (l ++ [x]).
Proof.
  induction 1 as [|y l Hs IH Hy]; intro Hall; simpl.
  - constructor; constructor.
  - inversion Hall as [|? ? Hyx Hl]; subst. constructor.
    + now apply IH.
    + apply Forall_app. split; [exact Hy | now constructor].
Qed.

(** The lines that [iterateLine] yields have increasing columns. *)
Lemma iterateMatches_columns matches :
  forall c,
    StronglySorted lt (map line_column (iterateMatches c matches)) /\
    Forall (fun ln => c <= line_column ln) (iterateMatches c matches).
Proof.
  induction matches as [|raw more IH]; intro c; simpl.
  - split; constructor.
  - destruct (IH (S c)) as [Hs Hall].
    assert (Hall' : Forall (fun ln => c < line_column ln) (iterateMatches (S c) more))
      by (eapply Forall_impl; [|exact Hall]; simpl; intros; lia).
    destruct raw as [|u raw'].
    + split; [exact Hs|]. eapply Forall_impl; [|exact Hall']. simpl. intros. lia.
    + split.
      * simpl. constructor; [exact Hs|]. rewrite Forall_map. exact Hall'.
      * constructor; [simpl; lia|]. eapply Forall_impl; [|exact Hall']. simpl. intros. lia.
Qed.

Lemma tokeniseLines_columns lines :
  forall lx lx' bound,
    tokeniseLines lx lines = Ok lx' ->
    StronglySorted lt (map line_column lines) ->
    Forall (fun ln => bound <= line_column ln) lines ->
    StronglySorted lt (map column (lineTokens lx)) ->
    Forall (fun lt => column lt <= bound) (lineTokens lx) ->
    StronglySorted lt (map column (lineTokens lx')).
Proof.
  induction lines as [|ln more IH]; intros lx lx' bound H Hsorted Hlow Hs Hup; simpl in H.
  - now injection H as <-.
  - apply bind_ok in H as (lx1 & Hline & H).
    simpl in Hsorted. inversion Hsorted as [|? ? Hmore Hgt]; subst.
    rewrite Forall_map in Hgt.
    inversion Hlow as [|? ? Hln _]; subst.
    apply (IH lx1 lx' (line_column ln + 1) H Hmore).
    + eapply Forall_impl; [|exact Hgt]. simpl. intros. lia.
    + destruct (tokeniseLine_effect _ _ Hline) as (s & _ & _ & [-> | [_ ->]]); [exact Hs|].
      rewrite map_app. simpl. apply sorted_snoc; [exact Hs|].
      rewrite Forall_map. eapply Forall_impl; [|exact Hup]. simpl. intros. lia.
    + destruct (tokeniseLine_effect _ _ Hline) as (s & _ & _ & [-> | [_ ->]]).
      * eapply Forall_impl; [|exact Hup]. simpl. intros. lia.
      * apply Forall_app. split.
        -- eapply Forall_impl; [|exact Hup]. simpl. intros. lia.
        -- constructor; [simpl; lia | constructor].
Qed.

(** X2: the LineTokens that [tokenise] returns are in source order: their
    columns strictly increase, and the first is at least 1. *)
Theorem emitted_columns_increase source lts :
  tokenise source = Ok lts ->
  StronglySorted lt (map column lts) /\ Forall (fun lt => 1 <= column lt) lts.
Proof.
  intro H. split.
  - unfold tokenise, parseToTokens in H.
    apply bind_ok in H as (lxEnd & Hlines & H).
    destruct (negb (commentCount lxEnd =? 0)).
    { destruct (lastEmitted (lineTokens lxEnd)); discriminate. }
    injection H as <-.
    destruct (iterateMatches_columns (matchAllLines [] source) 0) as [Hs Hlow].
    apply (tokeniseLines_columns (iterateLine source) initialLexer _ 0 Hlines Hs Hlow);
      constructor.
  - apply Forall_forall. intros lt Hin.
    destruct (emitted_scan _ _ _ H Hin) as (ln & _ & _ & _ & -> & _). lia.
Qed.

Lemma emitted_columns_increase_witness :
  StronglySorted lt [1; 4] /\
  Forall (fun lt => 1 <= column lt)
    [mkLineToken 1 0 [mkToken (IdentifierToken (lit "a")) 1];
     mkLineToken 4 0 [mkToken (IdentifierToken (lit "b")) 1]].
Proof.
  apply (emitted_columns_increase (unlines ["a"; ""; "# c"; "b"]%string)
           [mkLineToken 1 0 [mkToken (IdentifierToken (lit "a")) 1];
            mkLineToken 4 0 [mkToken (IdentifierToken (lit "b")) 1]] eq_refl).
Defined.

(** ** The code-point loop, in general *)

Lemma yielded_length text r codePoint : yielded text r codePoint -> 1 <= length codePoint.
Proof.
  intros [[-> _] | [(u & -> & _) | (u & v & -> & _)]]; simpl; lia.
Qed.

(** A property of the loop variables that every turn keeps holds when the
    loop ends. *)
Lemma scanLine_rule c text (I : nat -> Scan -> Prop) :
  (forall r codePoint s flow,
     I r s -> yielded text r codePoint ->
     scanCodePoint c text s r codePoint = Ok flow ->
     I (r + length codePoint) (scanOf flow)) ->
  forall s s',
    I 0 s ->
    scanLine c text s (iterateCodePoint text) = Ok s' ->
    exists r', I r' s'.
Proof.
  intro Hstep.
  assert (Hturn : forall r codePoint s more s',
             I r s -> yielded text r codePoint ->
             (forall s1, I (r + length codePoint) s1 ->
                         scanLine c text s1 more = Ok s' -> exists r', I r' s') ->
             scanLine c text s ((r, codePoint) :: more) = Ok s' ->
             exists r', I r' s').
  { intros r codePoint s more s' Hinv Hat Hmore. simpl.
    destruct (scanCodePoint c text s r codePoint) as [flow|e] eqn:Hturn; [|discriminate].
    pose proof (Hstep _ _ _ _ Hinv Hat Hturn) as Hnext.
    destruct flow as [s1|s1]; simpl in Hnext.
    - now apply Hmore.
    - intros [= <-]. eauto. }
  assert (Hloop : forall n rest r s s',
             length rest <= n -> skipn r text = rest -> I r s ->
             scanLine c text s (iterateCodePointFrom r rest) = Ok s' ->
             exists r', I r' s').
  { induction n as [|n IH]; intros rest r s s' Hlen Hskip Hinv.
    - destruct rest; [|simpl in Hlen; lia]. simpl iterateCodePointFrom.
      apply Hturn; [exact Hinv | left; auto|].
      intros s1 Hs1. simpl. intros [= <-]. eauto.
    - destruct rest as [|u rest]; simpl iterateCodePointFrom.
      + apply Hturn; [exact Hinv | left; auto|].
        intros s1 Hs1. simpl. intros [= <-]. eauto.
      + destruct (@skipn_head _ _ _ _ _ Hskip) as [Hu Hrest].
        assert (Hsingle : forall s',
                  scanLine c text s ((r, [u]) :: iterateCodePointFrom (r + 1) rest) = Ok s' ->
                  exists r', I r' s').
        { intro s2. apply Hturn; [exact Hinv | right; left; eauto|].
          intros s1 Hs1.
          apply (IH rest (r + 1)); [simpl in Hlen; lia | exact Hrest | exact Hs1]. }
        destruct rest as [|v rest']; [apply Hsingle|].
        destruct (isLeadSurrogate u && isTrailSurrogate v) eqn:Hpair; [|apply Hsingle].
        apply andb_true_iff in Hpair as [Hlead Htrail].
        destruct (@skipn_head _ _ _ _ _ Hrest) as [Hv Hrest'].
        replace (r + 1 + 1) with (r + 2) in Hv, Hrest' by lia.
        apply Hturn; [exact Hinv | |].
        * right. right. exists u, v. repeat split; auto.
          exact (sliceN_glue text r Hu Hv).
        * intros s1 Hs1. simpl in Hs1.
          apply (IH rest' (r + 2)); [simpl in Hlen; lia | exact Hrest' | exact Hs1]. }
  intros s s' Hinv. unfold iterateCodePoint.
  apply (Hloop (length text) text 0 s s'); auto.
Qed.

(** ** Rows increase along a line *)

Lemma rowOrder_later r r' s : rowOrder r s -> r <= r' -> rowOrder r' s.
Proof.
  intros [Hs Hb] Hle. split; [exact Hs|].
  destruct (state s).
  - destruct Hb. split; [lia | assumption].
  - eapply Forall_impl; [|exact Hb]. simpl. intros. lia.
Qed.

Lemma rowOrder_push (tokens : list Token) (t : Token) (bound : nat) :
  StronglySorted lt (map row tokens) ->
  Forall (fun t => row t <= bound) tokens ->
  bound < row t ->
  StronglySorted lt (map row (tokens ++ [t])) /\
  Forall (fun t' => row t' <= row t) (tokens ++ [t]).
Proof.
  intros Hs Hb Hlt. split.
  - rewrite map_app. simpl. apply sorted_snoc; [exact Hs|].
    rewrite Forall_map. eapply Forall_impl; [|exact Hb]. simpl. intros. lia.
  - apply Forall_app. split.
    + eapply Forall_impl; [|exact Hb]. simpl. intros. lia.
    + constructor; [lia | constructor].
Qed.

Lemma startToken_rowOrder r codePoint s :
  state s = None -> rowOrder r s -> 1 <= length codePoint ->
  rowOrder (r + length codePoint) (scanOf (startToken s r codePoint)).
Proof.
  intros Hstate Hord Hlen. pose proof Hord as [Hs Hb]. rewrite Hstate in Hb.
  assert (Hsame : rowOrder (r + length codePoint) s) by (apply (rowOrder_later r); [assumption | lia]).
  assert (Henter : forall st, rowOrder (r + length codePoint) (enter s st r)).
  { intro st. split; simpl; [exact Hs | split; [lia | exact Hb]]. }
  assert (Hpush : forall t, rowOrder (r + length codePoint) (pushToken s t (r + 1))).
  { intro t. destruct (rowOrder_push (scan_tokens s) (mkToken t (r + 1)) r Hs Hb) as [H1 H2];
      [simpl; lia|].
    split; simpl; [exact H1|]. rewrite Hstate.
    eapply Forall_impl; [|exact H2]. simpl. intros. lia. }
  unfold startToken. rewrite Hstate.
  repeat match goal with
         | |- context [if ?b then _ else _] => destruct b
         end; simpl; auto.
Qed.

Lemma scanCodePoint_rowOrder c text r codePoint s flow :
  rowOrder r s -> yielded text r codePoint ->
  scanCodePoint c text s r codePoint = Ok flow ->
  rowOrder (r + length codePoint) (scanOf flow).
Proof.
  intros Hord Hy. pose proof (yielded_length _ _ _ Hy) as Hlen.
  assert (Hsame : rowOrder (r + length codePoint) s) by (apply (rowOrder_later r); [assumption | lia]).
  unfold scanCodePoint.
  destruct (0 <? multiLineCommentCount s).
  { destruct (_ === lit "/*"); [intros [= <-]; exact Hsame|].
    destruct (_ === lit "*/"); intros [= <-]; exact Hsame. }
  destruct (state s) as [st|] eqn:Hstate.
  2: { intros [= <-]. now apply startToken_rowOrder. }
  pose proof Hord as [Hs Hb]. rewrite Hstate in Hb. destruct Hb as [Hstart Hb].
  assert (Hdone : forall t, rowOrder (r + length codePoint) (emit s t (startRow s + 1))).
  { intro t.
    destruct (rowOrder_push (scan_tokens s) (mkToken t (startRow s + 1)) (startRow s) Hs Hb)
      as [H1 H2]; [simpl; lia|].
    split; simpl; [exact H1|].
    eapply Forall_impl; [|exact H2]. simpl. intros. lia. }
  assert (Hemit : forall t,
             rowOrder (r + length codePoint)
               (scanOf (startToken (emit s t (startRow s + 1)) r codePoint))).
  { intro t. apply startToken_rowOrder; [reflexivity | | exact Hlen].
    destruct (rowOrder_push (scan_tokens s) (mkToken t (startRow s + 1)) (startRow s) Hs Hb)
      as [H1 H2]; [simpl; lia|].
    split; simpl; [exact H1|].
    eapply Forall_impl; [|exact H2]. simpl. intros. lia. }
  destruct st.
  - destruct (isIdentifierCodePoint codePoint); intros [= <-]; auto.
  - destruct (isNumberCodePoint codePoint); intros [= <-]; auto.
  - destruct (codePoint === lit ">"); intros [= <-]; auto. apply Hdone.
  - destruct (codePoint === lit "="); [intros [= <-]; apply Hdone|].
    destruct (_ === lit "!"); [discriminate|]. intros [= <-]. auto.
  - destruct (codePoint === lit "*"); intros [= <-]; auto.
    split; simpl; [exact Hs|]. eapply Forall_impl; [|exact Hb]. simpl. intros. lia.
Qed.

(** X3: within every LineToken that [tokenise] returns the rows of the
    tokens strictly increase: the tokens are in the order of their place in
    the line, and no two share a row. *)
Theorem rows_increase_along_a_line source lts :
  tokenise source = Ok lts ->
  forall line, In line lts -> StronglySorted lt (map row (tokens line)).
Proof.
  intros H line Hin.
  destruct (emitted_scan _ _ _ H Hin) as (ln & count & s & _ & _ & Hscan & -> & _).
  assert (Hstart : rowOrder 0 (mkScan [] None 0 count))
    by (split; simpl; constructor).
  destruct (scanLine_rule (line_column ln) (line_text ln) rowOrder
              (scanCodePoint_rowOrder _ _) _ _ Hstart Hscan)
    as (r' & Hs & _).
  exact Hs.
Qed.

Lemma rows_increase_along_a_line_witness :
  StronglySorted lt [1; 3; 6; 8; 11; 12].
Proof.
  apply (rows_increase_along_a_line (lit "x -> a >= -1")
           [mkLineToken 1 0
              [mkToken (IdentifierToken (lit "x")) 1; mkToken AssignmentToken 3;
               mkToken (IdentifierToken (lit "a")) 6; mkToken (OperatorToken (lit ">=")) 8;
               mkToken (OperatorToken (lit "-")) 11;
               mkToken (NumericLiteralToken (lit "1")) 12]] eq_refl
           (mkLineToken 1 0
              [mkToken (IdentifierToken (lit "x")) 1; mkToken AssignmentToken 3;
               mkToken (IdentifierToken (lit "a")) 6; mkToken (OperatorToken (lit ">=")) 8;
               mkToken (OperatorToken (lit "-")) 11;
               mkToken (NumericLiteralToken (lit "1")) 12])).
  left. reflexivity.
Defined.

(** ** The values that tokens carry *)

Lemma firstn_add {A : Type} (n k : nat) (l : list A) :
  firstn (n + k) l = firstn n l ++ firstn k (skipn n l).
Proof.
  revert l. induction n as [|n IH]; intro l; [reflexivity|].
  destruct l as [|x l]; simpl.
  - now rewrite firstn_nil.
  - now rewrite IH.
Qed.

(** Two adjacent slices make one. *)
Lemma sliceN_split {A : Type} (l : list A) (a b c : nat) :
  a <= b -> b <= c -> sliceN l a c = sliceN l a b ++ sliceN l b c.
Proof.
  intros Hab Hbc. unfold sliceN.
  replace (c - a) with ((b - a) + (c - b)) by lia.
  rewrite firstn_add. f_equal. f_equal.
  rewrite skipn_skipn. f_equal. lia.
Qed.

Lemma yielded_read text r codePoint :
  yielded text r codePoint ->
  codePoint = EOL \/ sliceN text r (r + length codePoint) = codePoint.
Proof.
  intros [[-> _] | [(u & -> & H) | (u & v & -> & _ & _ & H)]]; auto.
Qed.

Lemma surrogate_is_identifier_unit u :
  isLeadSurrogate u = true \/ isTrailSurrogate u = true ->
  isIdentifierUnit u = true /\ isDigit u = false.
Proof.
  unfold isLeadSurrogate, isTrailSurrogate, isIdentifierUnit, isDigit.
  intros [H | H]; apply andb_true_iff in H as [H1 H2]; apply N.leb_le in H1, H2.
  all: split.
  all: repeat match goal with
              | |- context [(?a =? ?b)%N] =>
                  let E := fresh in destruct (N.eqb_spec a b) as [E|E]; [lia|]
              | |- context [(?a <=? ?b)%N] =>
                  let E := fresh in destruct (N.leb_spec a b) as [E|E]; try lia
              end; reflexivity.
Qed.

Lemma single_identifier_code_point u :
  isIdentifierCodePoint [u] = isIdentifierUnit u.
Proof.
  unfold isIdentifierCodePoint, isIdentifierUnit, charCodeAt0. simpl.
  rewrite andb_false_r, !andb_true_r. simpl.
  repeat match goal with
         | |- context [(u =? ?b)%N] => destruct (u =? b)%N; simpl; try reflexivity
         end.
Qed.

Lemma single_number_code_point u : isNumberCodePoint [u] = isDigit u.
Proof.
  unfold isNumberCodePoint, isDigit, charCodeAt0. simpl.
  now rewrite andb_false_r.
Qed.

(** A code point that [isNumberCodePoint] accepts is one digit. *)
Lemma number_code_point text r codePoint :
  yielded text r codePoint -> isNumberCodePoint codePoint = true ->
  exists u, codePoint = [u] /\ isDigit u = true /\ sliceN text r (r + 1) = [u].
Proof.
  intros [[-> _] | [(u & -> & H) | (u & v & -> & Hlead & _ & H)]] Hnum.
  - discriminate.
  - rewrite single_number_code_point in Hnum. eauto.
  - exfalso. destruct (surrogate_is_identifier_unit u (or_introl Hlead)) as [_ Hd].
    unfold isNumberCodePoint in Hnum.
    destruct ([u; v] === EOL); [discriminate|].
    change (isDigit u = true) in Hnum. congruence.
Qed.

(** A code point that [isIdentifierCodePoint] accepts is made of identifier
    units, and starts with a digit only if [isNumberCodePoint] accepts it. *)
Lemma identifier_code_point text r codePoint :
  yielded text r codePoint -> isIdentifierCodePoint codePoint = true ->
  codePoint <> [] /\ forallb isIdentifierUnit codePoint = true /\
  isDigit (hd 0%N codePoint) = isNumberCodePoint codePoint /\
  sliceN text r (r + length codePoint) = codePoint.
Proof.
  intros [[-> _] | [(u & -> & H) | (u & v & -> & Hlead & Htrail & H)]] Hid.
  - discriminate.
  - rewrite single_identifier_code_point in Hid. simpl. rewrite Hid.
    rewrite single_number_code_point. repeat split; auto. discriminate.
  - destruct (surrogate_is_identifier_unit u (or_introl Hlead)) as [Hu Hd].
    destruct (surrogate_is_identifier_unit v (or_intror Htrail)) as [Hv _].
    simpl. rewrite Hu, Hv. repeat split; auto; [discriminate|].
    unfold isNumberCodePoint.
    destruct ([u; v] === EOL); [exact Hd | reflexivity].
Qed.

Lemma wordToken_cases word :
  wordToken word = IdentifierToken word \/
  In (wordToken word) [MemoryToken; IfToken; WhileToken; DefToken; ConstToken].
Proof.
  unfold wordToken.
  repeat match goal with
         | |- context [if ?b then _ else _] => destruct b; [right; simpl; tauto|]
         end.
  now left.
Qed.

Lemma validToken_word word r : isWord word -> validToken (mkToken (wordToken word) r).
Proof.
  intro Hw. unfold validToken. simpl.
  destruct (wordToken_cases word) as [H | H].
  - rewrite H. auto.
  - simpl in H. destruct H as [<- | [<- | [<- | [<- | [<- | []]]]]]; exact I.
Qed.

Lemma valueInvariant_tokens (s : Scan) (t : Token) :
  Forall validToken (scan_tokens s) -> validToken t ->
  Forall validToken (scan_tokens s ++ [t]).
Proof.
  intros Hall Ht. apply Forall_app. split; [exact Hall | now constructor].
Qed.

Ltac literal_is_operator :=
  match goal with
  | H : (?c === lit ?s) = true |- _ =>
      apply str_eqb_eq in H; rewrite H; unfold operators; simpl; tauto
  end.

(** The dispatch on a code point, entered with no token in progress and
    outside any comment. *)
Lemma startToken_values text r codePoint s :
  state s = None -> multiLineCommentCount s = 0 ->
  Forall validToken (scan_tokens s) ->
  yielded text r codePoint ->
  valueInvariant text (r + length codePoint) (scanOf (startToken s r codePoint)).
Proof.
  intros Hstate Hcount Htokens Hy.
  pose proof (yielded_length _ _ _ Hy) as Hlen.
  assert (Hcomment : 0 < multiLineCommentCount s -> state s = None) by (intros; lia).
  assert (Hsame : valueInvariant text (r + length codePoint) s)
    by (split; [exact Htokens | split; [exact Hcomment | now rewrite Hstate]]).
  assert (Hplain : forall st,
             match st with minus | slash => True | _ => False end ->
             valueInvariant text (r + length codePoint) (enter s st r)).
  { intros st Hst. split; [exact Htokens | split; [simpl; intros; lia|]].
    destruct st; simpl; try exact I; destruct Hst. }
  assert (Hpush : forall t,
             validToken (mkToken t (r + 1)) ->
             valueInvariant text (r + length codePoint) (pushToken s t (r + 1))).
  { intros t Ht. split; [now apply valueInvariant_tokens | split; [exact Hcomment|]].
    simpl. now rewrite Hstate. }
  unfold startToken. rewrite Hstate.
  test_code_point H1; [exact Hsame|].
  test_code_point H2; [now apply Hplain|].
  destruct ((codePoint === lit "<") || (codePoint === lit ">") || (codePoint === lit "!"))
    eqn:H3.
  { split; [exact Htokens | split; [simpl; intros; lia|]]. simpl. split; [lia|].
    destruct (yielded_read _ _ _ Hy) as [-> | Hread]; [discriminate H3|].
    rewrite Hread.
    apply orb_true_iff in H3 as [H3 | H3]; [apply orb_true_iff in H3 as [H3 | H3]|];
      apply str_eqb_eq in H3; rewrite H3; simpl; tauto. }
  test_code_point H4; [now apply Hplain|].
  destruct ((codePoint === lit "+") || (codePoint === lit "=") || (codePoint === lit "*"))
    eqn:H5.
  { apply Hpush. unfold validToken. simpl.
    apply orb_true_iff in H5 as [H5 | H5]; [apply orb_true_iff in H5 as [H5 | H5]|];
      literal_is_operator. }
  test_code_point H6; [apply Hpush; exact I|].
  test_code_point H7; [apply Hpush; exact I|].
  test_code_point H8; [apply Hpush; exact I|].
  test_code_point H9; [apply Hpush; exact I|].
  test_code_point H10; [apply Hpush; exact I|].
  destruct (isNumberCodePoint codePoint) eqn:Hnum.
  { destruct (number_code_point _ _ _ Hy Hnum) as (u & -> & Hu & Hread).
    split; [exact Htokens | split; [simpl; intros; lia|]]. simpl. split; [lia|].
    rewrite Hread. split; [discriminate | simpl; now rewrite Hu]. }
  destruct (isIdentifierCodePoint codePoint) eqn:Hid; [|exact Hsame].
  destruct (identifier_code_point _ _ _ Hy Hid) as (Hne & Hunits & Hdigit & Hread).
  split; [exact Htokens | split; [simpl; intros; lia|]]. simpl. split; [lia|].
  rewrite Hread. repeat split; auto. congruence.
Qed.

Lemma isWord_app w codePoint :
  isWord w -> forallb isIdentifierUnit codePoint = true -> isWord (w ++ codePoint).
Proof.
  intros (Hne & Hunits & Hdigit) Hcp. repeat split.
  - destruct w; [congruence | discriminate].
  - rewrite forallb_app, Hunits, Hcp. reflexivity.
  - destruct w; [congruence | exact Hdigit].
Qed.

Lemma isDigitString_snoc w u : isDigitString w -> isDigit u = true -> isDigitString (w ++ [u]).
Proof.
  intros [Hne Hall] Hu. split.
  - destruct w; [congruence | discriminate].
  - rewrite forallb_app, Hall. simpl. now rewrite Hu.
Qed.

(** One turn of the code-point loop keeps the invariant on values. *)
Lemma scanCodePoint_values c text r codePoint s flow :
  valueInvariant text r s -> yielded text r codePoint ->
  scanCodePoint c text s r codePoint = Ok flow ->
  valueInvariant text (r + length codePoint) (scanOf flow).
Proof.
  intros (Htokens & Hcomment & Hpending) Hy.
  pose proof (yielded_length _ _ _ Hy) as Hlen.
  unfold scanCodePoint.
  destruct (0 <? multiLineCommentCount s) eqn:Hcount.
  { apply Nat.ltb_lt in Hcount. specialize (Hcomment Hcount).
    assert (Hidle : forall n, valueInvariant text (r + length codePoint) (setCount s n)).
    { intro n. split; [exact Htokens | split; [intros _; exact Hcomment|]].
      simpl. now rewrite Hcomment. }
    assert (Hsame : valueInvariant text (r + length codePoint) s).
    { split; [exact Htokens | split; [intros _; exact Hcomment|]]. now rewrite Hcomment. }
    destruct (_ === lit "/*"); [intros [= <-]; apply Hidle|].
    destruct (_ === lit "*/"); intros [= <-]; [apply Hidle | exact Hsame]. }
  apply Nat.ltb_ge in Hcount.
  assert (Hzero : multiLineCommentCount s = 0) by lia.
  assert (Hemit : forall t,
             validToken (mkToken t (startRow s + 1)) ->
             valueInvariant text (r + length codePoint)
               (scanOf (startToken (emit s t (startRow s + 1)) r codePoint))).
  { intros t Ht. apply startToken_values; auto.
    now apply valueInvariant_tokens. }
  assert (Hdone : forall t,
             validToken (mkToken t (startRow s + 1)) ->
             valueInvariant text (r + length codePoint) (emit s t (startRow s + 1))).
  { intros t Ht. split; [now apply valueInvariant_tokens | split; [reflexivity|]].
    exact I. }
  destruct (state s) as [[| | | |]|] eqn:Hstate.
  - (* identifier *)
    destruct Hpending as [Hstart Hword].
    destruct (isIdentifierCodePoint codePoint) eqn:Hid; intros [= <-].
    + destruct (identifier_code_point _ _ _ Hy Hid) as (_ & Hunits & _ & Hread).
      split; [exact Htokens | split; [simpl; intros; lia|]]. simpl. rewrite Hstate.
      split; [lia|].
      rewrite (sliceN_split text (startRow s) r (r + length codePoint)) by lia.
      rewrite Hread. now apply isWord_app.
    + apply Hemit. now apply validToken_word.
  - (* literal *)
    destruct Hpending as [Hstart Hdigits].
    destruct (isNumberCodePoint codePoint) eqn:Hnum; intros [= <-].
    + destruct (number_code_point _ _ _ Hy Hnum) as (u & -> & Hu & Hread).
      split; [exact Htokens | split; [simpl; intros; lia|]]. simpl. rewrite Hstate.
      split; [lia|].
      rewrite (sliceN_split text (startRow s) r (r + 1)) by lia.
      rewrite Hread. now apply isDigitString_snoc.
    + apply Hemit. exact Hdigits.
  - (* minus *)
    destruct (codePoint === lit ">"); intros [= <-].
    + apply Hdone. exact I.
    + apply Hemit. unfold validToken, operators. simpl. tauto.
  - (* angle or exclamation *)
    destruct Hpending as [Hstart Hfirst].
    destruct (codePoint === lit "=") eqn:Heq; [intros [= <-]|].
    + apply Hdone. unfold validToken. simpl.
      destruct (yielded_read _ _ _ Hy) as [-> | Hread]; [discriminate Heq|].
      apply str_eqb_eq in Heq. rewrite Heq in Hread. simpl in Hread.
      rewrite (sliceN_split text (startRow s) r (r + 1)) by lia. rewrite Hread.
      simpl in Hfirst.
      destruct Hfirst as [<- | [<- | [<- | []]]]; unfold operators; simpl; tauto.
    + destruct (_ === lit "!") eqn:Hbang; [discriminate|]. intros [= <-].
      apply Hemit. unfold validToken. simpl. simpl in Hfirst.
      destruct Hfirst as [Hf | [Hf | [Hf | []]]]; rewrite <- Hf in *;
        try discriminate Hbang; unfold operators; simpl; tauto.
  - (* slash *)
    destruct (codePoint === lit "*"); intros [= <-].
    + split; [exact Htokens | split; [reflexivity | exact I]].
    + apply Hemit. unfold validToken, operators. simpl. tauto.
  - (* no token in progress *)
    intros [= <-]. now apply startToken_values.
Qed.

(** X4: every token that [tokenise] returns carries a value that its type
    allows.  The value of an [IdentifierToken] is a non-empty run of
    identifier characters that does not start with a digit and is none of
    the five keywords; the value of a [NumericLiteralToken] is a non-empty
    run of ASCII digits; the value of an [OperatorToken] is one of the ten
    strings of the type [Operator]. *)
Theorem token_values_are_valid source lts :
  tokenise source = Ok lts ->
  forall line t, In line lts -> In t (tokens line) -> validToken t.
Proof.
  intros H line t Hin Ht.
  destruct (emitted_scan _ _ _ H Hin) as (ln & count & s & _ & _ & Hscan & Heq & _).
  rewrite Heq in Ht.
  assert (Hstart : valueInvariant (line_text ln) 0 (mkScan [] None 0 count))
    by (split; [constructor | split; [reflexivity | exact I]]).
  destruct (scanLine_rule (line_column ln) (line_text ln) (valueInvariant (line_text ln))
              (scanCodePoint_values _ _) _ _ Hstart Hscan)
    as (r' & Hall & _).
  rewrite Forall_forall in Hall. now apply Hall.
Qed.

Lemma token_values_are_valid_witness :
  validToken (mkToken (OperatorToken (lit "<=")) 7).
Proof.
  apply (token_values_are_valid (lit "while <= 10")
           [mkLineToken 1 0
              [mkToken WhileToken 1; mkToken (OperatorToken (lit "<=")) 7;
               mkToken (NumericLiteralToken (lit "10")) 10]] eq_refl
           (mkLineToken 1 0
              [mkToken WhileToken 1; mkToken (OperatorToken (lit "<=")) 7;
               mkToken (NumericLiteralToken (lit "10")) 10])).
  - left. reflexivity.
  - right. left. reflexivity.
Defined.

(** ** The indent stack *)

Lemma indexOf_found space indents k :
  indexOf space indents = Some k -> nth_error indents k = Some space.
Proof.
  revert k. induction indents as [|x rest IH]; intros k Hk; [discriminate|].
  simpl in Hk. destruct (Nat.eqb_spec x space) as [->|Hne].
  - now injection Hk as <-.
  - destruct (indexOf space rest) as [j|]; [|discriminate].
    injection Hk as <-. now apply IH.
Qed.

Lemma indexOf_missing space indents : indexOf space indents = None -> ~ In space indents.
Proof.
  induction indents as [|x rest IH]; intros Hk Hin; [destruct Hin|].
  simpl in Hk. destruct Hin as [Hin | Hin].
  - subst. now rewrite Nat.eqb_refl in Hk.
  - destruct (x =? space); [discriminate|].
    destruct (indexOf space rest); [discriminate|]. now apply IH.
Qed.

Lemma sorted_below_last (l : list nat) :
  StronglySorted lt l -> Forall (fun y => y <= last l 0) l.
Proof.
  induction 1 as [|x l Hs IH Hx]; [constructor|].
  destruct l as [|y l'].
  - constructor; [simpl; lia | constructor].
  - change (last (x :: y :: l') 0) with (last (y :: l') 0).
    constructor; [|exact IH].
    inversion Hx as [|? ? Hxy _]; subst. inversion IH as [|? ? Hy _]; subst. lia.
Qed.

Lemma sorted_firstn (l : list nat) (n : nat) :
  StronglySorted lt l -> StronglySorted lt (firstn n l).
Proof.
  intro Hs. revert n. induction Hs as [|x l Hs IH Hx]; intro n.
  - rewrite firstn_nil. constructor.
  - destruct n as [|n]; simpl; constructor; [apply IH|].
    apply Forall_forall. intros y Hy. rewrite Forall_forall in Hx.
    apply Hx. rewrite <- (firstn_skipn n l). apply in_or_app. now left.
Qed.

(** The update made for a line keeps the stack increasing from 0. *)
Lemma updateIndents_ordered c space indents indents' :
  stackOrdered indents -> updateIndents c space indents = Ok indents' ->
  stackOrdered indents'.
Proof.
  intros [Hhd Hs]. unfold updateIndents.
  destruct (indexOf space indents) as [k|] eqn:Hk.
  - intros [= <-]. split; [|now apply sorted_firstn].
    destruct indents; [discriminate|]. replace (k + 1) with (S k) by lia. exact Hhd.
  - destruct (Nat.ltb_spec space (last indents 0)) as [|Hle]; [discriminate|].
    intros [= <-]. split.
    + destruct indents; [discriminate | exact Hhd].
    + apply sorted_snoc; [exact Hs|].
      pose proof (sorted_below_last indents Hs) as Hall.
      apply indexOf_missing in Hk.
      apply Forall_forall. intros y Hy. rewrite Forall_forall in Hall.
      specialize (Hall y Hy).
      assert (y <> space) by (intros ->; contradiction). lia.
Qed.

Lemma tokeniseLines_ordered lines :
  forall lx lx',
    stackOrdered (indents lx) -> tokeniseLines lx lines = Ok lx' ->
    stackOrdered (indents lx').
Proof.
  induction lines as [|ln more IH]; intros lx lx' Hord H; simpl in H.
  - now injection H as <-.
  - apply bind_ok in H as (lx1 & Hline & H).
    destruct (tokeniseLine_effect _ _ Hline) as (_ & _ & Hind & _).
    exact (IH lx1 lx' (updateIndents_ordered _ _ _ _ Hord Hind) H).
Qed.

Lemma sorted_nth_injective (l : list nat) (i j : nat) (x : nat) :
  StronglySorted lt l -> nth_error l i = Some x -> nth_error l j = Some x -> i = j.
Proof.
  intro Hs. revert i j. induction Hs as [|y l Hs IH Hy]; intros i j Hi Hj.
  - destruct i; discriminate.
  - rewrite Forall_forall in Hy.
    destruct i as [|i], j as [|j]; simpl in Hi, Hj.
    + reflexivity.
    + injection Hi as ->. apply nth_error_In, Hy in Hj. lia.
    + injection Hj as ->. apply nth_error_In, Hy in Hi. lia.
    + f_equal. now apply IH.
Qed.

(** X5: a LineToken that [tokenise] returns is at indent 0 exactly when its
    line has no leading white space: the bottom of the indent stack is
    always 0 and the stack strictly increases, so no other space count is
    given level 0 and none but 0 is refused as a dedent below it. *)
Theorem root_indent_is_no_leading_space source lts :
  tokenise source = Ok lts ->
  forall line, In line lts ->
  exists ln,
    In ln (iterateLine source) /\ column line = line_column ln + 1 /\
    (indent line = 0 <-> line_space ln = 0).
Proof.
  unfold tokenise, parseToTokens. intros H line Hin.
  apply bind_ok in H as (lxEnd & Hlines & H).
  destruct (negb (commentCount lxEnd =? 0)).
  { destruct (lastEmitted (lineTokens lxEnd)); discriminate. }
  injection H as <-.
  destruct (emitted_origin _ _ line Hlines Hin)
    as [[] | (earlier & ln & later & lx & lx' & Hsplit & Hearlier & Hline & Hnew)].
  exists ln.
  destruct (tokeniseLine_effect _ _ Hline) as (s & _ & Hind & [Hsame | [_ Hpush]]).
  { rewrite Hsame in Hnew. exfalso.
    apply (f_equal (@length LineToken)) in Hnew. rewrite length_app in Hnew. simpl in Hnew. lia. }
  rewrite Hpush in Hnew. apply app_inj_tail in Hnew as [_ <-]. simpl.
  split; [rewrite Hsplit; apply in_or_app; right; now left|]. split; [reflexivity|].
  assert (Hinit : stackOrdered (indents initialLexer)) by (split; [reflexivity | repeat constructor]).
  pose proof (tokeniseLines_ordered _ _ _ Hinit Hearlier) as Hord.
  destruct (updateIndents_ordered _ _ _ _ Hord Hind) as [Hhd Hs].
  destruct (updateIndents_top _ _ _ Hind) as [Htop _].
  assert (Hzero : nth_error (indents lx') 0 = Some 0)
    by (destruct (indents lx'); [discriminate | exact Hhd]).
  split; intro H0.
  - rewrite H0 in Htop. congruence.
  - rewrite H0 in Htop. exact (sorted_nth_injective _ _ _ _ Hs Htop Hzero).
Qed.

Lemma root_indent_is_no_leading_space_witness :
  exists ln,
    In ln (iterateLine (unlines ["if a"; "  b()"; "c()"]%string)) /\
    3 = line_column ln + 1 /\ (0 = 0 <-> line_space ln = 0).
Proof.
  apply (root_indent_is_no_leading_space (unlines ["if a"; "  b()"; "c()"]%string)
           [mkLineToken 1 0 [mkToken IfToken 1; mkToken (IdentifierToken (lit "a")) 4];
            mkLineToken 2 1 [mkToken (IdentifierToken (lit "b")) 1;
                             mkToken ParentheseStartToken 2; mkToken ParentheseEndToken 3];
            mkLineToken 3 0 [mkToken (IdentifierToken (lit "c")) 1;
                             mkToken ParentheseStartToken 2; mkToken ParentheseEndToken 3]]
           eq_refl
           (mkLineToken 3 0 [mkToken (IdentifierToken (lit "c")) 1;
                             mkToken ParentheseStartToken 2; mkToken ParentheseEndToken 3])).
  right. right. left. reflexivity.
Defined.

(** ** Lines and line endings *)

Lemma matchAllLines_run raw :
  noTerminator raw ->
  forall acc rest, matchAllLines acc (raw ++ rest) = matchAllLines (rev raw ++ acc) rest.
Proof.
  unfold noTerminator. induction raw as [|c raw IH]; intros Hraw acc rest; [reflexivity|].
  simpl in Hraw. apply andb_true_iff in Hraw as [Hc Hraw].
  apply negb_true_iff in Hc.
  apply orb_false_iff in Hc as [Hc H4]. apply orb_false_iff in Hc as [Hc H3].
  apply orb_false_iff in Hc as [H1 H2].
  simpl. rewrite H1, H2, H3, H4. simpl. rewrite (IH Hraw). now rewrite <- app_assoc.
Qed.

(** The matches of the line expression on lines joined by LF or by CR LF
    are the lines, followed by one empty match when the last line is not
    empty. *)
Lemma matchAllLines_join separator lines :
  separator = LF \/ separator = CRLF ->
  lines <> [] -> Forall noTerminator lines ->
  matchAllLines [] (joinWith separator lines) =
  lines ++ match last lines [] with [] => [] | _ :: _ => [ [] ] end.
Proof.
  intros Hsep Hne Hall. induction Hall as [|raw more Hraw Hmore IH]; [congruence|].
  destruct more as [|raw' more'].
  - simpl. rewrite <- (app_nil_r raw) at 1. rewrite (matchAllLines_run raw Hraw).
    rewrite app_nil_r. simpl.
    destruct raw as [|u raw0]; [reflexivity|].
    destruct (rev (u :: raw0)) eqn:Hrev.
    + apply (f_equal (@length _)) in Hrev. rewrite length_rev in Hrev. discriminate.
    + rewrite <- Hrev, rev_involutive. reflexivity.
  - change (joinWith separator (raw :: raw' :: more'))
      with (raw ++ separator ++ joinWith separator (raw' :: more')).
    rewrite (matchAllLines_run raw Hraw), app_nil_r.
    change (last (raw :: raw' :: more') []) with (last (raw' :: more') []).
    rewrite <- app_comm_cons, <- (IH ltac:(discriminate)).
    remember (joinWith separator (raw' :: more')) as joined.
    destruct Hsep as [-> | ->]; simpl; now rewrite rev_involutive.
Qed.

Lemma iterateMatches_app a b :
  forall c, iterateMatches c (a ++ b) = iterateMatches c a ++ iterateMatches (c + length a) b.
Proof.
  induction a as [|raw a IH]; intro c; simpl.
  - now rewrite Nat.add_0_r.
  - rewrite IH. replace (S c + length a) with (c + S (length a)) by lia.
    destruct raw; reflexivity.
Qed.

Lemma iterateLine_join separator lines :
  separator = LF \/ separator = CRLF ->
  Forall noTerminator lines ->
  iterateLine (joinWith separator lines) = iterateMatches 0 lines.
Proof.
  intros Hsep Hall. unfold iterateLine.
  destruct lines as [|raw more]; [reflexivity|].
  rewrite (matchAllLines_join separator (raw :: more) Hsep ltac:(discriminate) Hall).
  rewrite iterateMatches_app.
  destruct (last (raw :: more) []); simpl; now rewrite app_nil_r.
Qed.

Lemma iterateMatches_In matches :
  forall c ln,
    In ln (iterateMatches c matches) <->
    exists k raw,
      nth_error matches k = Some raw /\ raw <> [] /\
      ln = mkLine (c + k) (countSpace (leadingSpace raw)) (trim raw).
Proof.
  induction matches as [|raw more IH]; intros c ln; simpl.
  - split; [intros [] | intros ([|k] & raw & H & _); discriminate].
  - assert (Hmore : In ln (iterateMatches (S c) more) <->
              exists k raw',
                nth_error (raw :: more) (S k) = Some raw' /\ raw' <> [] /\
                ln = mkLine (c + S k) (countSpace (leadingSpace raw')) (trim raw')).
    { rewrite IH. split; intros (k & raw' & H1 & H2 & H3); exists k, raw';
        (split; [exact H1 | split; [exact H2|]]); rewrite H3; f_equal; lia. }
    destruct raw as [|u raw0].
    + rewrite Hmore. split.
      * intros (k & raw' & H). eauto.
      * intros ([|k] & raw' & H1 & H2 & H3); [simpl in H1; congruence | eauto].
    + simpl. rewrite Hmore. split.
      * intros [<- | (k & raw' & H)]; [|eauto].
        exists 0, (u :: raw0). rewrite Nat.add_0_r. repeat split. discriminate.
      * intros ([|k] & raw' & H1 & H2 & H3); [|right; eauto].
        left. simpl in H1. injection H1 as <-. rewrite Nat.add_0_r in H3. now rewrite H3.
Qed.

(** X6: in a source made of lines joined by LF or by CR LF, [iterateLine]
    yields exactly the non-empty lines, each with its 0-based index as
    column, the space count of its leading white space and its trimmed
    text; empty lines are not yielded and do not shift the columns of the
    lines after them. *)
Theorem lines_are_numbered separator lines :
  separator = LF \/ separator = CRLF ->
  Forall noTerminator lines ->
  forall ln,
    In ln (iterateLine (joinWith separator lines)) <->
    exists raw,
      nth_error lines (line_column ln) = Some raw /\ raw <> [] /\
      line_space ln = countSpace (leadingSpace raw) /\ line_text ln = trim raw.
Proof.
  intros Hsep Hall ln. rewrite (iterateLine_join separator lines Hsep Hall).
  rewrite iterateMatches_In. split.
  - intros (k & raw & H1 & H2 & ->). simpl. exists raw. auto.
  - intros (raw & H1 & H2 & H3 & H4). exists (line_column ln), raw.
    repeat split; auto. destruct ln; simpl in *. now subst.
Qed.

Lemma lines_are_numbered_witness :
  In (mkLine 2 1 (lit "b")) (iterateLine (joinWith CRLF [lit "a"; []; lit " b "])).
Proof.
  apply (lines_are_numbered CRLF [lit "a"; []; lit " b "]).
  - now right.
  - repeat constructor.
  - exists (lit " b "). repeat split. discriminate.
Defined.

(** X7: a source whose lines are joined by CR LF tokenises exactly as the
    same lines joined by LF. *)
Theorem line_ending_is_immaterial lines :
  Forall noTerminator lines ->
  tokenise (joinWith CRLF lines) = tokenise (joinWith LF lines).
Proof.
  intro Hall. unfold tokenise, parseToTokens.
  rewrite (iterateLine_join CRLF lines (or_intror eq_refl) Hall).
  rewrite (iterateLine_join LF lines (or_introl eq_refl) Hall).
  reflexivity.
Qed.

Lemma line_ending_is_immaterial_witness :
  tokenise (joinWith CRLF [lit "if a"; lit "  b()"]) =
  tokenise (joinWith LF [lit "if a"; lit "  b()"]).
Proof.
  apply (line_ending_is_immaterial [lit "if a"; lit "  b()"]).
  repeat constructor.
Defined.

(** X8: the text that stands before a CR that no LF follows, before an LS or
    before a PS, back to the previous line ending, is matched by no turn of
    the line expression: it is dropped, and it is not counted as a line. *)
Theorem lone_terminator_drops_text raw rest :
  noTerminator raw ->
  (forall more, rest <> 10%N :: more) ->
  iterateLine (raw ++ 13%N :: rest) = iterateLine rest /\
  iterateLine (raw ++ 0x2028%N :: rest) = iterateLine rest /\
  iterateLine (raw ++ 0x2029%N :: rest) = iterateLine rest.
Proof.
  intros Hraw Hrest. unfold iterateLine.
  rewrite !(matchAllLines_run raw Hraw). simpl.
  repeat split.
  destruct rest as [|d rest']; [reflexivity|].
  destruct (N.eqb_spec d 10) as [-> | _]; [|reflexivity].
  exfalso. exact (Hrest rest' eq_refl).
Qed.

Lemma lone_terminator_drops_text_witness :
  iterateLine (lit "x -> 1" ++ 13%N :: lit "y -> 2") = iterateLine (lit "y -> 2").
Proof.
  apply (lone_terminator_drops_text (lit "x -> 1") (lit "y -> 2")).
  - reflexivity.
  - intros more H. discriminate H.
Defined.

(** * Further properties of the parser *)

(** ** The statement that a line pushes *)

Lemma mapM_ok {A B : Type} (f : A -> result B) (xs : list A) (ys : list B) :
  mapM f xs = Ok ys -> Forall (fun y => exists x, In x xs /\ f x = Ok y) ys.
Proof.
  revert ys. induction xs as [|x xs IH]; intros ys H; simpl in H.
  - injection H as <-. constructor.
  - apply bind_ok in H as (y & Hy & H). apply bind_ok in H as (ys' & Hys & H).
    injection H as <-. constructor.
    + exists x. split; [now left | exact Hy].
    + eapply Forall_impl; [|exact (IH _ Hys)].
      intros y' (x' & Hin & Hx'). exists x'. split; [now right | exact Hx'].
Qed.

Lemma single_identifier c t value e :
  type t = IdentifierToken value ->
  parseExpression c [t] None = Ok e -> e = Identifier value.
Proof.
  intros Htype. rewrite parseExpression_unfold. unfold parseExpressionBody.
  rewrite Htype. simpl. now intros [= <-].
Qed.

Lemma parseBlock_object ps lt token keyword make ps' :
  make = IfObject \/ make = WhileObject ->
  parseBlock (heap ps) (setLength (indent lt + 1) (statements ps))
    (column lt) (indent lt) token (tokens lt) lt keyword make = Ok ps' ->
  exists object r,
    statementFrom lt (next (heap ps)) object /\ isBlock object = true /\
    isDeclaration object = false /\
    frame (setLength (indent lt + 1) (statements ps)) (indent lt) = Some r /\
    ps' = afterLine ps lt r object.
Proof.
  intros Hmake H. unfold parseBlock in H.
  destruct (sliceFrom (tokens lt) 1) as [|t0 rest] eqn:Htest; [discriminate|].
  apply bind_ok in H as (test & Hparse & H).
  unfold alloc in H. apply bind_ok in H as (h' & Hpush & H).
  apply pushTo_ok in Hpush as (r & Hframe & ->).
  injection H as <-. rewrite setLength_length in Hframe.
  replace (indent lt + 1 - 1) with (indent lt) in Hframe by lia.
  exists (make test (next (heap ps))), r.
  destruct Hmake as [-> | ->]; simpl;
    (split; [split; [reflexivity | now exists (t0 :: rest)]|]);
    repeat split; auto.
Qed.

(** A line that [parseLine] accepts pushes one statement, built from
    results of [parseExpression] that passed the tests of its case: to the
    program body when it is a [const] or a [def], which are accepted at
    indent 0 only, and to the frame of its indent otherwise. *)
Lemma parseLine_object ps lt ps' :
  parseLine ps lt = Ok ps' ->
  exists object r,
    statementFrom lt (next (heap ps)) object /\
    (isBlock object = true <-> opensBlock lt) /\
    (isDeclaration object = true -> indent lt = 0) /\
    frame (setLength (indent lt + 1) (statements ps))
      (if isDeclaration object then 0 else indent lt) = Some r /\
    ps' = afterLine ps lt r object.
Proof.
  unfold parseLine. intro H.
  destruct (_ || _); [discriminate|].
  destruct (tokens lt) as [|token rest] eqn:Htokens; [discriminate|].
  rewrite <- Htokens in H.
  assert (Htop : length (setLength (indent lt + 1) (statements ps)) - 1 = indent lt)
    by (rewrite setLength_length; lia).
  rewrite Htop in H.
  assert (Hplain : forall object r,
             statementFrom lt (next (heap ps)) object ->
             isBlock object = false -> isDeclaration object = false ->
             match type token with IfToken | WhileToken | DefToken => False | _ => True end ->
             frame (setLength (indent lt + 1) (statements ps)) (indent lt) = Some r ->
             exists object0 r0,
               statementFrom lt (next (heap ps)) object0 /\
               (isBlock object0 = true <-> opensBlock lt) /\
               (isDeclaration object0 = true -> indent lt = 0) /\
               frame (setLength (indent lt + 1) (statements ps))
                 (if isDeclaration object0 then 0 else indent lt) = Some r0 /\
               mkParseState (push (heap ps) r object)
                 (setLength (indent lt + 1) (statements ps)) None (Some (indent lt)) (Some lt)
               = afterLine ps lt r0 object0).
  { intros object r Hfrom Hblock Hdecl Hkind Hframe. exists object, r.
    split; [exact Hfrom|]. split.
    - rewrite Hblock. unfold opensBlock. rewrite Htokens.
      split; [discriminate|]. intro Hopens. destruct (type token); contradiction.
    - rewrite Hdecl. split; [discriminate|]. split; [exact Hframe|].
      unfold afterLine. now rewrite Hblock. }
  assert (Hopen : forall object r,
             statementFrom lt (next (heap ps)) object /\ isBlock object = true /\
             isDeclaration object = false /\
             frame (setLength (indent lt + 1) (statements ps)) (indent lt) = Some r /\
             ps' = afterLine ps lt r object ->
             match type token with IfToken | WhileToken => True | _ => False end ->
             exists object0 r0,
               statementFrom lt (next (heap ps)) object0 /\
               (isBlock object0 = true <-> opensBlock lt) /\
               (isDeclaration object0 = true -> indent lt = 0) /\
               frame (setLength (indent lt + 1) (statements ps))
                 (if isDeclaration object0 then 0 else indent lt) = Some r0 /\
               ps' = afterLine ps lt r0 object0).
  { intros object r (Hfrom & Hblock & Hdecl & Hframe & Hps) Hkind. exists object, r.
    split; [exact Hfrom|]. split.
    - rewrite Hblock. unfold opensBlock. rewrite Htokens.
      split; [|reflexivity]. intros _. destruct (type token); try contradiction; exact I.
    - rewrite Hdecl. split; [discriminate|]. split; [exact Hframe | exact Hps]. }
  destruct (type token) eqn:Htype; try discriminate.
  - (* identifier *)
    unpack H;
      match goal with
      | Hp : pushTo _ _ _ _ = Ok _ |- _ => apply pushTo_ok in Hp as (r & Hframe & ->)
      end;
      injection H as <-.
    + eapply Hplain; eauto; simpl.
      repeat split; try (eexists; eassumption).
      now apply negb_false_iff.
    + eapply Hplain; eauto; simpl.
      repeat split; try (eexists; eassumption).
  - (* memory *)
    unpack H;
      match goal with
      | Hp : pushTo _ _ _ _ = Ok _ |- _ => apply pushTo_ok in Hp as (r & Hframe & ->)
      end;
      injection H as <-.
    + eapply Hplain; eauto; simpl.
      repeat split; try (eexists; eassumption).
      now apply negb_false_iff.
    + eapply Hplain; eauto; simpl.
      repeat split; try (eexists; eassumption).
  - (* if *)
    destruct (parseBlock_object ps lt token _ _ ps' (or_introl eq_refl) H) as (object & r & Hobj).
    exact (Hopen object r Hobj I).
  - (* while *)
    destruct (parseBlock_object ps lt token _ _ ps' (or_intror eq_refl) H) as (object & r & Hobj).
    exact (Hopen object r Hobj I).
  - (* def *)
    destruct (negb (indent lt =? 0)) eqn:Hroot; [discriminate|].
    apply negb_false_iff, Nat.eqb_eq in Hroot.
    unpack H.
    match goal with
    | Ha : alloc _ = _ |- _ => unfold alloc in Ha; injection Ha as <- <-
    end.
    match goal with
    | Hp : pushTo _ _ _ _ = Ok _ |- _ => apply pushTo_ok in Hp as (r & Hframe & ->)
    end.
    injection H as <-.
    match goal with
    | Hid : parseExpression _ [?t] None = Ok ?id, Ht : type ?t = IdentifierToken _ |- _ =>
        pose proof (single_identifier _ _ _ _ Ht Hid) as Hident
    end.
    match goal with
    | Hm : mapM _ _ = Ok ?params, Hex : existsb _ ?params = false |- _ =>
        pose proof (mapM_ok _ _ _ Hm) as Hparams; rename Hex into Hids
    end.
    match goal with
    | Hid : parseExpression _ [_] None = Ok ?id, Hm : mapM _ _ = Ok ?params |- _ =>
        exists (FunctionObject id params (next (heap ps))), r
    end.
    split.
    + simpl. split; [reflexivity|]. split; [now rewrite Hident|].
      apply Forall_forall. intros p Hp. split.
      * destruct (isIdentifierNode p) eqn:Hnode; [reflexivity|]. exfalso.
        assert (Hsome : existsb (fun expression => negb (isIdentifierNode expression)) _ = true)
          by (apply existsb_exists; exists p; split; [exact Hp | now rewrite Hnode]).
        congruence.
      * rewrite Forall_forall in Hparams. destruct (Hparams p Hp) as (toks & _ & Htoks).
        now exists toks.
    + split.
      * unfold opensBlock. rewrite Htokens, Htype. simpl. tauto.
      * split; [intros _; exact Hroot|]. split; [exact Hframe | reflexivity].
  - (* const *)
    destruct (negb (indent lt =? 0)) eqn:Hroot; [discriminate|].
    apply negb_false_iff, Nat.eqb_eq in Hroot.
    unpack H.
    match goal with
    | Hp : pushTo _ _ _ _ = Ok _ |- _ => apply pushTo_ok in Hp as (r & Hframe & ->)
    end.
    injection H as <-.
    match goal with
    | Hid : parseExpression _ [?t] None = Ok ?id, Ht : type ?t = IdentifierToken _ |- _ =>
        pose proof (single_identifier _ _ _ _ Ht Hid) as Hident
    end.
    match goal with
    | Hid : parseExpression _ [_] None = Ok ?id, Hr : parseExpression _ _ None = Ok ?rhs |- _ =>
        tryif constr_eq id rhs then fail else exists (ConstantObject id rhs), r
    end.
    split.
    + simpl. split; [now rewrite Hident|]. split; eexists; eassumption.
    + split.
      * unfold opensBlock. rewrite Htokens, Htype. simpl. split; [discriminate | tauto].
      * split; [intros _; exact Hroot|]. split; [exact Hframe | reflexivity].
Qed.

Lemma parseLines_rule (I : ParseState -> Prop) :
  (forall ps lt ps', I ps -> parseLine ps lt = Ok ps' -> I ps') ->
  forall lines ps ps', I ps -> parseLines ps lines = Ok ps' -> I ps'.
Proof.
  intros Hstep. induction lines as [|lt more IH]; intros ps ps' Hinv H; simpl in H.
  - now injection H as <-.
  - apply bind_ok in H as (ps1 & Hline & H). exact (IH _ _ (Hstep _ _ _ Hinv Hline) H).
Qed.

Lemma parse_ok lineTokens program :
  parse lineTokens = Ok program ->
  exists ps,
    parseLines initialState lineTokens = Ok ps /\
    program = mkProgram (readStatements (next (heap ps)) (heap ps) 0).
Proof.
  unfold parse. intro H. apply bind_ok in H as (ps & Hlines & H).
  exists ps. split; [exact Hlines|]. unfold finish in H.
  destruct (minIndent ps); [destruct (lastLineToken ps); [discriminate|]|];
    congruence.
Qed.

Lemma frame_resized n statements i :
  i < n -> frame (setLength n statements) i = frame statements i.
Proof.
  intro Hi. unfold frame, setLength.
  destruct (Nat.lt_ge_cases i (length statements)) as [Hlt|Hge].
  - rewrite nth_error_app1 by (rewrite length_firstn; lia).
    rewrite nth_error_firstn. destruct (Nat.ltb_spec i n); [reflexivity | lia].
  - rewrite nth_error_app2 by (rewrite length_firstn; lia).
    replace (nth_error statements i) with (@None (option ref))
      by (symmetry; apply nth_error_None; lia).
    destruct (nth_error (repeat None (n - length statements))
                (i - length (firstn n statements))) as [[r|]|] eqn:Hnth; try reflexivity.
    apply nth_error_In, repeat_spec in Hnth. discriminate.
Qed.

Lemma frame_kept statements b i :
  i < length statements -> frame (statements ++ [Some b]) i = frame statements i.
Proof.
  intro Hi. unfold frame. now rewrite nth_error_app1.
Qed.

(** ** Declarations stay at the root *)

Lemma statementFrom_body lt b object b' :
  statementFrom lt b object -> bodyOf object = Some b' -> b' = b.
Proof.
  destruct object; simpl; try discriminate; intros H [= <-]; now destruct H.
Qed.

Lemma rootInvariant_step ps lt ps' :
  rootInvariant ps -> parseLine ps lt = Ok ps' -> rootInvariant ps'.
Proof.
  intros (Hnext & Hroot & Hdecl & Hbody) Hline.
  destruct (parseLine_object _ _ _ Hline) as (object & r & Hfrom & _ & Hzero & Hframe & ->).
  assert (Htarget : isDeclaration object = true -> r = 0).
  { intro Hd. rewrite Hd in Hframe. apply frame_setLength in Hframe as (_ & _ & Hframe).
    congruence. }
  assert (Hroot' : frame (setLength (indent lt + 1) (statements ps)) 0 = Some 0)
    by (rewrite frame_resized by lia; exact Hroot).
  assert (Hnew : forall b, bodyOf object = Some b -> b <> 0).
  { intros b Hb. rewrite (statementFrom_body _ _ _ _ Hfrom Hb). lia. }
  unfold afterLine. destruct (isBlock object); repeat split;
    cbn [heap statements].
  - simpl. lia.
  - rewrite frame_kept by (rewrite setLength_length; lia). exact Hroot'.
  - intros r0 object0 Hin Hd. apply push_In in Hin as [Hin | [-> ->]]; [|auto].
    apply alloc_In in Hin as [_ Hin]. eauto.
  - intros r0 object0 b Hin Hb. apply push_In in Hin as [Hin | [_ ->]]; [|auto].
    apply alloc_In in Hin as [_ Hin]. eauto.
  - exact Hnext.
  - exact Hroot'.
  - intros r0 object0 Hin Hd. apply push_In in Hin as [Hin | [-> ->]]; eauto.
  - intros r0 object0 b Hin Hb. apply push_In in Hin as [Hin | [_ ->]]; eauto.
Qed.

Lemma rootInvariant_initial : rootInvariant initialState.
Proof.
  repeat split; simpl; try lia.
  - intros r object Hin. destruct (r =? 0); destruct Hin.
  - intros r object b Hin. destruct (r =? 0); destruct Hin.
Qed.

Lemma read_declarationFree h :
  (forall r object, In object (arrays h r) -> isDeclaration object = true -> r = 0) ->
  (forall r object b, In object (arrays h r) -> bodyOf object = Some b -> b <> 0) ->
  forall fuel b, b <> 0 -> forallb declarationFree (readStatements fuel h b) = true.
Proof.
  intros Hdecl Hbody. induction fuel as [|fuel IH]; intros b Hb; [reflexivity|].
  cbn [readStatements]. apply forallb_forall. intros s Hs.
  apply in_map_iff in Hs as (object & <- & Hin).
  pose proof (Hdecl b object Hin) as Hd. pose proof (Hbody b object) as Hb'.
  destruct object; simpl in *; try reflexivity;
    try (apply IH; now apply (Hb' _ Hin)); exfalso; apply Hb; now apply Hd.
Qed.

(** X9: in every Program that [parse] returns, no [ConstantStatement] and no
    [FunctionDeclaration] stands in the body of an [if], a [while] or a
    [def], at any depth: declarations are found directly under the
    Program only. *)
Theorem declarations_only_at_root lineTokens program :
  parse lineTokens = Ok program ->
  forallb declarationsAtRoot (program_body program) = true.
Proof.
  intro H. apply parse_ok in H as (ps & Hlines & ->).
  destruct (parseLines_rule rootInvariant rootInvariant_step _ _ _
              rootInvariant_initial Hlines) as (_ & _ & Hdecl & Hbody).
  simpl. destruct (next (heap ps)) as [|fuel]; [reflexivity|].
  cbn [readStatements]. apply forallb_forall. intros s Hs.
  apply in_map_iff in Hs as (object & <- & Hin).
  pose proof (Hbody 0 object) as Hb.
  destruct object; simpl; try reflexivity;
    apply (read_declarationFree _ Hdecl Hbody); now apply (Hb _ Hin).
Qed.

Lemma declarations_only_at_root_witness :
  forallb declarationsAtRoot (program_body sampleProgram) = true.
Proof.
  apply (declarations_only_at_root sampleLines sampleProgram). reflexivity.
Defined.

(** ** Indents follow blocks *)

Lemma frameInvariant_step previous ps lt ps' :
  frameInvariant previous ps -> parseLine ps lt = Ok ps' ->
  match previous with
  | None => indent lt = 0
  | Some p =>
      (opensBlock p -> indent lt = indent p + 1) /\
      (~ opensBlock p -> indent lt <= indent p)
  end /\ frameInvariant (Some lt) ps'.
Proof.
  intros Hinv Hline.
  destruct (@parseLine_effect ps lt ps' Hline) as [[Hmin Hmax] _].
  destruct (parseLine_object _ _ _ Hline) as (object & r & _ & Hblock & Hzero & Hframe & ->).
  assert (Hdeep : indent lt < length (statements ps)).
  { apply frame_setLength in Hframe as (_ & Hlt & _).
    destruct (isDeclaration object); [rewrite (Hzero eq_refl); lia | exact Hlt]. }
  split.
  - destruct previous as [p|]; simpl in Hinv.
    + destruct Hinv as [Hopen Hclosed]. split; intro Hp.
      * destruct (Hopen Hp) as [Hlen Hm]. specialize (Hmin _ Hm). lia.
      * destruct (Hclosed Hp) as (_ & _ & Hm). exact (Hmax _ Hm).
    + destruct Hinv as [Hlen _]. lia.
  - unfold afterLine. simpl. destruct (isBlock object); split; intro Hp; simpl.
    + rewrite length_app, setLength_length. simpl. split; [lia | reflexivity].
    + exfalso. apply Hp. now apply Hblock.
    + apply Hblock in Hp. discriminate.
    + rewrite setLength_length. repeat split; lia.
Qed.

Lemma parseLines_indents lineTokens :
  forall previous ps ps',
    frameInvariant previous ps -> parseLines ps lineTokens = Ok ps' ->
    indentsFollowBlocks previous lineTokens.
Proof.
  induction lineTokens as [|lt more IH]; intros previous ps ps' Hinv H; simpl in H;
    [exact I|].
  apply bind_ok in H as (ps1 & Hline & H).
  destruct (frameInvariant_step _ _ _ _ Hinv Hline) as [Hlt Hnext].
  split; [exact Hlt | exact (IH _ _ _ Hnext H)].
Qed.

(** X10: in every input that [parse] accepts the indents follow the blocks:
    the first line is at indent 0, the line after an [if], [while] or [def]
    line is exactly one level further in, and the line after any other line
    is at the same indent or further out.  [minIndent] alone asks for at
    least one level after a block line; a deeper line meets a frame that
    does not exist and is not accepted. *)
Theorem accepted_indents_follow_blocks lineTokens program :
  parse lineTokens = Ok program -> indentsFollowBlocks None lineTokens.
Proof.
  intro H. apply parse_ok in H as (ps & Hlines & _).
  apply (parseLines_indents lineTokens None initialState ps); [|exact Hlines].
  repeat split.
Qed.

Lemma accepted_indents_follow_blocks_witness : indentsFollowBlocks None sampleLines.
Proof.
  apply (accepted_indents_follow_blocks sampleLines sampleProgram). reflexivity.
Defined.

(** ** Well-formed expressions *)

Lemma wellFormed_leftRotate operator l r :
  wellFormed (leftRotate operator l r) = wellFormed l && wellFormed r.
Proof.
  revert operator l.
  induction r as [o a _ | o' l' _ r' IH | t _ p _ | c _ args | n | v];
    intros op l; try reflexivity.
  simpl. rewrite IH. simpl. now rewrite andb_assoc.
Qed.

Lemma wellFormed_wrapUnary state e :
  stateWellFormed state -> wellFormed e = true -> wellFormed (wrapUnary state e) = true.
Proof.
  destruct state as [[l|operator]|]; simpl; auto.
  intros -> ->. reflexivity.
Qed.

Lemma wellFormed_literal value :
  (value =? bitOr value 0)%Z = true -> wellFormed (NumericLiteral value) = true.
Proof.
  intro H. apply int32_test in H. destruct H as [H1 H2]. simpl.
  apply andb_true_iff. split; [apply Z.leb_le | apply Z.ltb_lt]; assumption.
Qed.

Section WellFormed.

Variable column : nat.
Variable n : nat.
Hypothesis shorter_well_formed :
  forall tokens state e,
    length tokens < n -> stateWellFormed state ->
    parseExpression column tokens state = Ok e -> wellFormed e = true.

Lemma continueWith_wellFormed expression remains e :
  length remains < n -> wellFormed expression = true ->
  continueWith (parseExpression column) expression remains = Ok e ->
  wellFormed e = true.
Proof.
  intros Hlen Hwf. destruct remains as [|t remains]; simpl.
  - now intros [= <-].
  - apply shorter_well_formed; [exact Hlen | exact Hwf].
Qed.

Lemma parseMember_wellFormed tokens state target bracketRow e :
  length tokens <= n -> tokens <> [] -> stateWellFormed state ->
  isIdentifierNode target = true ->
  parseMember (parseExpression column) column tokens state target bracketRow = Ok e ->
  wellFormed e = true.
Proof.
  intros Hlen Hne Hstate Htarget. unfold parseMember.
  pose proof (length_positive Hne) as Hpos.
  destruct (scanBracket 0 0 (sliceFrom tokens 1)) as [k|]; [|discriminate].
  destruct (sliceN tokens 2 k) as [|t0 property] eqn:Hproperty; [discriminate|].
  intro H. apply bind_ok in H as (p & Hp & H).
  assert (Hpwf : wellFormed p = true).
  { apply (shorter_well_formed _ None _) in Hp; [exact Hp | | exact I].
    rewrite <- Hproperty. pose proof (sliceN_length tokens 2 k). lia. }
  apply continueWith_wellFormed in H; [exact H | |].
  - rewrite sliceFrom_length. lia.
  - apply wellFormed_wrapUnary; [exact Hstate|]. simpl. now rewrite Htarget, Hpwf.
Qed.

Lemma arguments_wellFormed tokens entries argumentTokens k arguments :
  length tokens <= n -> tokens <> [] ->
  scanList 1 tokens 0 0 [] 0 entries = (argumentTokens, k) ->
  mapM (fun tokens => parseExpression column tokens None) argumentTokens = Ok arguments ->
  forallb wellFormed arguments = true.
Proof.
  intros Hlen Hne Hscan Hargs. apply forallb_forall. intros a Ha.
  pose proof (mapM_ok _ _ _ Hargs) as Hall. rewrite Forall_forall in Hall.
  destruct (Hall a Ha) as (toks & Hin & Htoks).
  apply (shorter_well_formed _ None _) in Htoks; [exact Htoks | | exact I].
  pose proof (@scanList_slices (fun t => length t < length tokens) 1 tokens entries
                (fun a b => @sliceN_shorter tokens (a + 1) b Hne)
                0%Z 0 [] 0 (Forall_nil _)) as Hslices.
  rewrite Hscan in Hslices. simpl in Hslices. rewrite Forall_forall in Hslices.
  specialize (Hslices toks Hin). lia.
Qed.

Lemma parseExpressionBody_wellFormed tokens state e :
  length tokens <= n -> stateWellFormed state ->
  parseExpressionBody (parseExpression column) column tokens state = Ok e ->
  wellFormed e = true.
Proof.
  intros Hlen Hstate. unfold parseExpressionBody.
  destruct tokens as [|token rest] eqn:Htokens; [discriminate|].
  assert (Hne : tokens <> []) by (rewrite Htokens; discriminate).
  assert (Hrest : length rest < n) by (simpl in Hlen; lia).
  change (sliceFrom (token :: rest) 1) with rest.
  rewrite <- Htokens in *. clear Hlen.
  assert (Hlen : length tokens <= n) by (rewrite Htokens; simpl; lia).
  pose proof (length_positive Hne) as Hpos.
  assert (Hwrap : forall x, wellFormed x = true -> wellFormed (wrapUnary state x) = true)
    by (intros x Hx; now apply wellFormed_wrapUnary).
  destruct (type token) eqn:Htype; try discriminate.
  all: destruct state as [[lhs|operator]|] eqn:Hst; try discriminate.
  all: intro H.
  all: try (apply bind_ok in H as (rhs & Hrhs & H); injection H as <-;
            rewrite wellFormed_leftRotate;
            apply (shorter_well_formed _ None _ Hrest I) in Hrhs;
            simpl in Hstate; now rewrite Hstate, Hrhs).
  - (* identifier, after a prefix operator *)
    destruct rest as [|token1 rest'].
    { injection H as <-. now apply Hwrap. }
    destruct (type token1);
      try (apply (shorter_well_formed _ _ _ Hrest) in H; [exact H | now apply Hwrap]);
      try (apply parseMember_wellFormed in H; auto; fail).
    destruct (scanList 1 tokens 0 0 [] 0 (token1 :: rest')) as [argumentTokens [k|]] eqn:Hscan;
      [|discriminate].
    apply bind_ok in H as (arguments & Hargs & H).
    apply continueWith_wellFormed in H; [exact H | rewrite sliceFrom_length; lia|].
    apply Hwrap. simpl. exact (arguments_wellFormed _ _ _ _ _ Hlen Hne Hscan Hargs).
  - (* identifier *)
    destruct rest as [|token1 rest'].
    { injection H as <-. now apply Hwrap. }
    destruct (type token1);
      try (apply (shorter_well_formed _ _ _ Hrest) in H; [exact H | now apply Hwrap]);
      try (apply parseMember_wellFormed in H; auto; fail).
    destruct (scanList 1 tokens 0 0 [] 0 (token1 :: rest')) as [argumentTokens [k|]] eqn:Hscan;
      [|discriminate].
    apply bind_ok in H as (arguments & Hargs & H).
    apply continueWith_wellFormed in H; [exact H | rewrite sliceFrom_length; lia|].
    apply Hwrap. simpl. exact (arguments_wellFormed _ _ _ _ _ Hlen Hne Hscan Hargs).
  - (* `memory`, after a prefix operator *)
    destruct rest as [|token1 rest']; [discriminate|].
    destruct (negb (isBracketStart token1)); [discriminate|].
    apply parseMember_wellFormed in H; auto.
  - (* `memory` *)
    destruct rest as [|token1 rest']; [discriminate|].
    destruct (negb (isBracketStart token1)); [discriminate|].
    apply parseMember_wellFormed in H; auto.
  - (* literal, after a prefix operator *)
    destruct (parseInt10 value) as [raw|]; [|discriminate].
    match type of H with
    | (if negb (?v =? _)%Z then _ else _) = _ =>
        destruct (v =? bitOr v 0)%Z eqn:Hfits; [|discriminate];
        apply continueWith_wellFormed in H; [exact H | exact Hrest |];
        now apply wellFormed_literal
    end.
  - (* literal *)
    destruct (parseInt10 value) as [raw|]; [|discriminate].
    match type of H with
    | (if negb (?v =? _)%Z then _ else _) = _ =>
        destruct (v =? bitOr v 0)%Z eqn:Hfits; [|discriminate];
        apply continueWith_wellFormed in H; [exact H | exact Hrest |];
        now apply wellFormed_literal
    end.
  - (* prefix operator, after a prefix operator *)
    destruct (value === lit "+") eqn:Hplus; destruct (value === lit "-") eqn:Hminus;
      try discriminate;
      (apply (shorter_well_formed _ _ _ Hrest) in H; [exact H|]; simpl;
       now rewrite Hplus, Hminus).
  - (* prefix operator *)
    destruct (value === lit "+") eqn:Hplus; destruct (value === lit "-") eqn:Hminus;
      try discriminate;
      (apply (shorter_well_formed _ _ _ Hrest) in H; [exact H|]; simpl;
       now rewrite Hplus, Hminus).
  - (* parenthese, after a prefix operator *)
    destruct (scanParenthese 0 0 tokens) as [k|]; [|discriminate].
    destruct (sliceN tokens 1 k) as [|t0 inner] eqn:Hinner; [discriminate|].
    apply bind_ok in H as (p & Hp & H).
    assert (Hpwf : wellFormed p = true).
    { apply (shorter_well_formed _ None _) in Hp; [exact Hp | | exact I].
      rewrite <- Hinner. pose proof (sliceN_length tokens 1 k). lia. }
    destruct (k =? length tokens - 1).
    + injection H as <-. now apply Hwrap.
    + apply shorter_well_formed in H; [exact H | rewrite sliceFrom_length; lia|].
      now apply Hwrap.
  - (* parenthese *)
    destruct (scanParenthese 0 0 tokens) as [k|]; [|discriminate].
    destruct (sliceN tokens 1 k) as [|t0 inner] eqn:Hinner; [discriminate|].
    apply bind_ok in H as (p & Hp & H).
    assert (Hpwf : wellFormed p = true).
    { apply (shorter_well_formed _ None _) in Hp; [exact Hp | | exact I].
      rewrite <- Hinner. pose proof (sliceN_length tokens 1 k). lia. }
    destruct (k =? length tokens - 1).
    + injection H as <-. now apply Hwrap.
    + apply shorter_well_formed in H; [exact H | rewrite sliceFrom_length; lia|].
      now apply Hwrap.
Qed.


End WellFormed.

Lemma wellFormed_up_to n :
  forall column tokens state e,
    length tokens <= n -> stateWellFormed state ->
    parseExpression column tokens state = Ok e -> wellFormed e = true.
Proof.
  induction n as [|n IH]; intros column tokens state e Hlen Hstate H;
    rewrite parseExpression_unfold in H.
  - destruct tokens; [discriminate | simpl in Hlen; lia].
  - apply (parseExpressionBody_wellFormed column (S n)) in H; auto.
    intros tokens' state' e' Hlen'. apply IH. lia.
Qed.

(** X11: whatever [parseExpression] returns is well formed, when the state
    it is entered with is: every numeric literal of the tree is a 32-bit
    signed integer, every prefix operator is [+] or [-], and the target of
    every member and the callee of every call is an identifier. *)
Theorem parsed_expression_is_well_formed column tokens state e :
  stateWellFormed state ->
  parseExpression column tokens state = Ok e -> wellFormed e = true.
Proof.
  apply (wellFormed_up_to (length tokens)). apply Nat.le_refl.
Qed.

Lemma parsed_expression_is_well_formed_witness :
  wellFormed (BinaryExpression (lit "+") (UnaryExpression (lit "-") (Identifier (lit "x")))
                (NumericLiteral 5)) = true.
Proof.
  apply (parsed_expression_is_well_formed 1 sampleOperands None); [exact I | reflexivity].
Defined.

(** ** Typed programs *)

Lemma parsedAt_wellFormed c e : parsedAt c e -> wellFormed e = true.
Proof.
  intros (tokens & H). exact (wellFormed_up_to (length tokens) c tokens None e (Nat.le_refl _) I H).
Qed.

Lemma statementFrom_typed lt b object :
  statementFrom lt b object -> typedObject object = true.
Proof.
  destruct object as [l r | e | test body | test body | l r | id params body]; simpl.
  - intros (Hl & Pl & Pr).
    now rewrite Hl, (parsedAt_wellFormed _ _ Pl), (parsedAt_wellFormed _ _ Pr).
  - intros (He & Pe). now rewrite He, (parsedAt_wellFormed _ _ Pe).
  - intros (_ & P). exact (parsedAt_wellFormed _ _ P).
  - intros (_ & P). exact (parsedAt_wellFormed _ _ P).
  - intros (Hl & _ & Pr). now rewrite Hl, (parsedAt_wellFormed _ _ Pr).
  - intros (_ & Hid & Hparams). rewrite Hid. simpl.
    apply forallb_forall. intros p Hp. rewrite Forall_forall in Hparams.
    now destruct (Hparams p Hp).
Qed.

Lemma typedInvariant_step ps lt ps' :
  (forall r object, In object (arrays (heap ps) r) -> typedObject object = true) ->
  parseLine ps lt = Ok ps' ->
  forall r object, In object (arrays (heap ps') r) -> typedObject object = true.
Proof.
  intros Hinv Hline.
  destruct (parseLine_object _ _ _ Hline) as (object & r & Hfrom & _ & _ & _ & ->).
  apply statementFrom_typed in Hfrom.
  intros r0 object0. unfold afterLine. destruct (isBlock object); cbn [heap]; intro Hin;
    apply push_In in Hin as [Hin | [_ ->]]; auto.
  - apply alloc_In in Hin as [_ Hin]. eauto.
  - eauto.
Qed.

Lemma read_typed h :
  (forall r object, In object (arrays h r) -> typedObject object = true) ->
  forall fuel r, forallb typedStatement (readStatements fuel h r) = true.
Proof.
  intros Hinv. induction fuel as [|fuel IH]; intro r; [reflexivity|].
  cbn [readStatements]. apply forallb_forall. intros s Hs.
  apply in_map_iff in Hs as (object & <- & Hin).
  pose proof (Hinv r object Hin) as Ht.
  destruct object; simpl in *; try exact Ht; rewrite Ht; simpl; apply IH.
Qed.

(** X12: every statement of a Program that [parse] returns, at any depth,
    has fields of the kinds the syntax tree declares: the left side of an
    assignment is an identifier or a member, an expression statement is a
    call, the name of a constant, the name of a function and each of its
    parameters are identifiers, and every expression is well formed. *)
Theorem parsed_program_is_typed lineTokens program :
  parse lineTokens = Ok program ->
  forallb typedStatement (program_body program) = true.
Proof.
  intro H. apply parse_ok in H as (ps & Hlines & ->). simpl.
  apply read_typed.
  apply (parseLines_rule
           (fun ps => forall r object,
                In object (arrays (heap ps) r) -> typedObject object = true)
           typedInvariant_step lineTokens initialState ps); [|exact Hlines].
  intros r object Hin. simpl in Hin. destruct (r =? 0); destruct Hin.
Qed.

Lemma parsed_program_is_typed_witness :
  forallb typedStatement (program_body sampleProgram) = true.
Proof.
  apply (parsed_program_is_typed sampleLines sampleProgram). reflexivity.
Defined.

(** ** The rotation *)

(** X13: the loop that rotates the root of a binary expression to the left
    keeps the operands and the operators in the order in which they were
    written: read from left to right, the rotated tree gives what the left
    operand gives, then the operator, then what the right operand gives. *)
Theorem rotation_keeps_the_order operator l r :
  inorder (leftRotate operator l r) = inorder l ++ inr operator :: inorder r.
Proof.
  revert operator l. induction r as [o a _ | o' l' _ r' IH | t _ p _ | c _ args | n | v];
    intros operator l; try reflexivity.
  cbn [leftRotate]. rewrite IH. simpl. now rewrite <- app_assoc.
Qed.

(** * Errors, delimiters and the shape of the program *)

(** ** What the tokeniser throws *)

Lemma bind_throw {A B : Type} (r : result A) (k : A -> result B) (e : error) :
  bind r k = Throw e -> r = Throw e \/ exists a, r = Ok a /\ k a = Throw e.
Proof. destruct r as [a|e']; simpl; [eauto | intros [= ->]; now left]. Qed.

(** A throw of the code-point loop is the throw of one of its turns, taken
    with loop variables of which every property kept by the turns holds. *)
Lemma scanLine_throws c text (I : nat -> Scan -> Prop) :
  (forall r codePoint s flow,
     I r s -> yielded text r codePoint ->
     scanCodePoint c text s r codePoint = Ok flow ->
     I (r + length codePoint) (scanOf flow)) ->
  forall s e,
    I 0 s ->
    scanLine c text s (iterateCodePoint text) = Throw e ->
    exists r codePoint s1,
      I r s1 /\ yielded text r codePoint /\ scanCodePoint c text s1 r codePoint = Throw e.
Proof.
  intro Hstep.
  assert (Hturn : forall r codePoint s more e,
             I r s -> yielded text r codePoint ->
             (forall s1, I (r + length codePoint) s1 ->
                         scanLine c text s1 more = Throw e ->
                         exists r codePoint s1,
                           I r s1 /\ yielded text r codePoint /\
                           scanCodePoint c text s1 r codePoint = Throw e) ->
             scanLine c text s ((r, codePoint) :: more) = Throw e ->
             exists r codePoint s1,
               I r s1 /\ yielded text r codePoint /\
               scanCodePoint c text s1 r codePoint = Throw e).
  { intros r codePoint s more e Hinv Hat Hmore. simpl.
    destruct (scanCodePoint c text s r codePoint) as [flow|e'] eqn:Hturn.
    - pose proof (Hstep _ _ _ _ Hinv Hat Hturn) as Hnext.
      destruct flow as [s1|s1]; simpl in Hnext; [now apply Hmore | discriminate].
    - intros [= ->]. exists r, codePoint, s. auto. }
  assert (Hloop : forall n rest r s e,
             length rest <= n -> skipn r text = rest -> I r s ->
             scanLine c text s (iterateCodePointFrom r rest) = Throw e ->
             exists r codePoint s1,
               I r s1 /\ yielded text r codePoint /\
               scanCodePoint c text s1 r codePoint = Throw e).
  { induction n as [|n IH]; intros rest r s e Hlen Hskip Hinv.
    - destruct rest; [|simpl in Hlen; lia]. simpl iterateCodePointFrom.
      apply Hturn; [exact Hinv | left; auto|].
      intros s1 Hs1. simpl. discriminate.
    - destruct rest as [|u rest]; simpl iterateCodePointFrom.
      + apply Hturn; [exact Hinv | left; auto|].
        intros s1 Hs1. simpl. discriminate.
      + destruct (@skipn_head _ _ _ _ _ Hskip) as [Hu Hrest].
        assert (Hsingle :
                  scanLine c text s ((r, [u]) :: iterateCodePointFrom (r + 1) rest) = Throw e ->
                  exists r codePoint s1,
                    I r s1 /\ yielded text r codePoint /\
                    scanCodePoint c text s1 r codePoint = Throw e).
        { apply Hturn; [exact Hinv | right; left; eauto|].
          intros s1 Hs1.
          apply (IH rest (r + 1)); [simpl in Hlen; lia | exact Hrest | exact Hs1]. }
        destruct rest as [|v rest']; [apply Hsingle|].
        destruct (isLeadSurrogate u && isTrailSurrogate v) eqn:Hpair; [|apply Hsingle].
        apply andb_true_iff in Hpair as [Hlead Htrail].
        destruct (@skipn_head _ _ _ _ _ Hrest) as [Hv Hrest'].
        replace (r + 1 + 1) with (r + 2) in Hv, Hrest' by lia.
        apply Hturn; [exact Hinv | |].
        * right. right. exists u, v. repeat split; auto.
          exact (sliceN_glue text r Hu Hv).
        * intros s1 Hs1. simpl in Hs1.
          apply (IH rest' (r + 2)); [simpl in Hlen; lia | exact Hrest' | exact Hs1]. }
  intros s e Hinv. unfold iterateCodePoint.
  apply (Hloop (length text) text 0 s e); auto.
Qed.

(** A throw of the loop over the lines is the throw of the turn for one
    line, after the turns for the lines before it. *)
Lemma tokeniseLines_throws lines :
  forall lx e,
    tokeniseLines lx lines = Throw e ->
    exists earlier ln later lx1,
      lines = earlier ++ ln :: later /\
      tokeniseLines lx earlier = Ok lx1 /\
      tokeniseLine lx1 ln = Throw e.
Proof.
  induction lines as [|ln more IH]; intros lx e H; simpl in H; [discriminate|].
  apply bind_throw in H as [H | (lx1 & Hline & H)].
  - exists [], ln, more, lx. auto.
  - destruct (IH _ _ H) as (earlier & ln' & later & lx2 & -> & Hearlier & Hthrow).
    exists (ln :: earlier), ln', later, lx2. repeat split; auto.
    simpl. now rewrite Hline.
Qed.

Lemma updateIndents_last c space indents indents' :
  updateIndents c space indents = Ok indents' -> last indents' 0 = space.
Proof.
  unfold updateIndents. destruct (indexOf space indents) as [k|] eqn:Hk.
  - intros [= <-]. apply indexOf_found in Hk.
    replace (k + 1) with (S k) by lia.
    revert k Hk. induction indents as [|x rest IH]; intros [|k] Hk; try discriminate.
    + simpl in Hk. injection Hk as ->. reflexivity.
    + simpl in Hk. specialize (IH k Hk).
      destruct rest as [|y rest']; [destruct k; discriminate|]. exact IH.
  - destruct (space <? last indents 0); [discriminate|].
    intros [= <-]. apply last_last.
Qed.

(** After the turns for some lines, the top of the indent stack is the
    width of the leading space of the last of them. *)
Lemma tokeniseLines_top lines :
  forall lx lx' previous,
    tokeniseLines lx (lines ++ [previous]) = Ok lx' ->
    last (indents lx') 0 = line_space previous.
Proof.
  induction lines as [|ln more IH]; intros lx lx' previous H; simpl in H.
  - apply bind_ok in H as (lx1 & Hline & H). injection H as <-.
    destruct (tokeniseLine_effect _ _ Hline) as (_ & _ & Hind & _).
    exact (updateIndents_last _ _ _ _ Hind).
  - apply bind_ok in H as (lx1 & Hline & H). exact (IH _ _ _ H).
Qed.

(** The turn for [!] or for an angle bracket that is not followed by [=]
    throws on [!] only, which stands just before the code point read. *)
Lemma scanCodePoint_throws c text r codePoint s e :
  valueInvariant text r s -> yielded text r codePoint ->
  scanCodePoint c text s r codePoint = Throw e ->
  nth_error text (startRow s) = Some 33%N /\
  nth_error text (startRow s + 1) <> Some 61%N /\
  e = at2 (c + 1) (startRow s + 1) "There should be only '=' after the '!'".
Proof.
  intros (_ & _ & Hpending) Hy. unfold scanCodePoint.
  destruct (0 <? multiLineCommentCount s).
  { destruct (_ === _); [discriminate|]. destruct (_ === _); discriminate. }
  destruct (state s) as [[| | | |]|]; try discriminate.
  - destruct (isIdentifierCodePoint codePoint); discriminate.
  - destruct (isNumberCodePoint codePoint); discriminate.
  - destruct (codePoint === lit ">"); discriminate.
  - destruct (codePoint === lit "=") eqn:Hequal; [discriminate|].
    destruct (sliceN text (startRow s) r === lit "!") eqn:Hbang; [|discriminate].
    intros [= <-]. apply str_eqb_eq in Hbang.
    destruct Hpending as [Hle _].
    assert (Hlen : length (sliceN text (startRow s) r) = 1) by now rewrite Hbang.
    unfold sliceN in Hbang, Hlen. rewrite length_firstn, length_skipn in Hlen.
    assert (Hwidth : r = startRow s + 1 \/ length text = startRow s + 1 /\ length text <= r).
    { destruct (Nat.min_spec (r - startRow s) (length text - startRow s)) as [[? Hm]|[? Hm]];
        rewrite Hm in Hlen; lia. }
    clear Hlen.
    assert (Hat : nth_error text (startRow s) = Some 33%N).
    { rewrite <- (Nat.add_0_r (startRow s)), <- nth_error_skipn.
      destruct (skipn (startRow s) text) as [|u rest]; [destruct (r - startRow s); discriminate|].
      destruct (r - startRow s); [discriminate|]. simpl in Hbang. now injection Hbang as ->. }
    split; [exact Hat|]. split; [|reflexivity].
    destruct Hy as [[-> Hend] | [(u & -> & Hu) | (u & v & -> & Hlead & _ & Huv)]].
    + apply (f_equal (@length _)) in Hend. rewrite length_skipn in Hend. simpl in Hend.
      replace (nth_error text (startRow s + 1)) with (@None N); [discriminate|].
      symmetry. apply nth_error_None. unfold code_unit in *. lia.
    + assert (Hr : r = startRow s + 1).
      { apply (f_equal (@length _)) in Hu. unfold sliceN in Hu.
        rewrite length_firstn, length_skipn in Hu. simpl in Hu. lia. }
      subst r. unfold sliceN in Hu.
      rewrite <- (Nat.add_0_r (startRow s + 1)), <- nth_error_skipn.
      destruct (skipn (startRow s + 1) text) as [|u' rest]; [discriminate|].
      replace (startRow s + 1 + 1 - (startRow s + 1)) with 1 in Hu by lia.
      simpl in Hu. injection Hu as ->. simpl. intros [= ->]. discriminate.
    + assert (Hr : r = startRow s + 1).
      { apply (f_equal (@length _)) in Huv. unfold sliceN in Huv.
        rewrite length_firstn, length_skipn in Huv. simpl in Huv. lia. }
      subst r. unfold sliceN in Huv.
      rewrite <- (Nat.add_0_r (startRow s + 1)), <- nth_error_skipn.
      destruct (skipn (startRow s + 1) text) as [|u' rest]; [discriminate|].
      replace (startRow s + 1 + 2 - (startRow s + 1)) with 2 in Huv by lia.
      destruct rest; [discriminate|]. simpl in Huv. injection Huv as -> ->.
      simpl. intros [= ->]. discriminate.
  - destruct (codePoint === lit "*"); discriminate.
Qed.

(** A throw of the loop over the lines comes from a [!] that is not
    followed by [=], or from a line less indented than the line before
    it. *)
Lemma tokeniseLines_thrown lines e :
  tokeniseLines initialLexer lines = Throw e ->
  (exists ln r,
     In ln lines /\
     nth_error (line_text ln) r = Some 33%N /\
     nth_error (line_text ln) (r + 1) <> Some 61%N /\
     e = at2 (line_column ln + 1) (r + 1) "There should be only '=' after the '!'") \/
  (exists earlier previous ln later,
     lines = earlier ++ previous :: ln :: later /\
     line_space ln < line_space previous /\
     e = at1 (line_column ln + 1) "Invalid indent space").
Proof.
  intro H.
  apply tokeniseLines_throws in H
    as (earlier & ln & later & lx1 & Hsplit & Hearlier & Hthrow).
  unfold tokeniseLine in Hthrow.
  apply bind_throw in Hthrow as [Hscan | (s & _ & Hthrow)].
  - left.
    assert (Hstart : valueInvariant (line_text ln) 0 (mkScan [] None 0 (commentCount lx1)))
      by (split; [constructor | split; [reflexivity | exact I]]).
    destruct (scanLine_throws (line_column ln) (line_text ln) (valueInvariant (line_text ln))
                (scanCodePoint_values _ _) _ _ Hstart Hscan)
      as (r & codePoint & s1 & Hinv & Hy & Hturn).
    destruct (scanCodePoint_throws _ _ _ _ _ _ Hinv Hy Hturn) as (Hbang & Hnext & ->).
    exists ln, (startRow s1). repeat split; auto.
    rewrite Hsplit. apply in_elt.
  - right.
    apply bind_throw in Hthrow as [Hind | (indents' & _ & Habs)]; [|discriminate].
    unfold updateIndents in Hind.
    destruct (indexOf (line_space ln) (indents lx1)); [discriminate|].
    destruct (Nat.ltb_spec (line_space ln) (last (indents lx1) 0)) as [Hlt|]; [|discriminate].
    injection Hind as <-.
    destruct earlier as [|previous more _] using rev_ind.
    + simpl in Hearlier. injection Hearlier as <-. simpl in Hlt. lia.
    + rewrite (tokeniseLines_top _ _ _ _ Hearlier) in Hlt.
      exists more, previous, ln, later. rewrite Hsplit, <- app_assoc. auto.
Qed.

(** X14: whatever [tokenise] throws is one of three errors.  "There should
    be only '=' after the '!'" comes with the number of a line and the
    place, counted from 1, of a [!] of the trimmed line that is not followed
    by [=].  "Invalid indent space" comes with the number of a line whose
    leading space is narrower than that of the line before it.  The third
    is thrown when a block comment is still open after the last line, and
    is the error of the unclosed comment or a TypeError. *)
Theorem tokenise_throws source e :
  tokenise source = Throw e ->
  (exists ln r,
     In ln (iterateLine source) /\
     nth_error (line_text ln) r = Some 33%N /\
     nth_error (line_text ln) (r + 1) <> Some 61%N /\
     e = at2 (line_column ln + 1) (r + 1) "There should be only '=' after the '!'") \/
  (exists earlier previous ln later,
     iterateLine source = earlier ++ previous :: ln :: later /\
     line_space ln < line_space previous /\
     e = at1 (line_column ln + 1) "Invalid indent space") \/
  (commentOpenAtEnd source /\
   (e = TypeError \/
    exists lt, e = at1 (column lt) "The multi-line comment is not closed")).
Proof.
  unfold tokenise, parseToTokens. intro H.
  apply bind_throw in H as [H | (lx & Hlines & H)].
  - apply tokeniseLines_thrown in H as [H | H]; auto.
  - right. right. destruct (Nat.eqb_spec (commentCount lx) 0) as [|Hopen]; [discriminate|].
    split; [exists lx; auto|]. simpl in H.
    destruct (lastEmitted (lineTokens lx)) as [lt|]; injection H as <-;
      [right; exists lt; reflexivity | now left].
Qed.

Lemma tokenise_throws_witness :
  (exists ln r,
     In ln (iterateLine (lit "a !b")) /\
     nth_error (line_text ln) r = Some 33%N /\
     nth_error (line_text ln) (r + 1) <> Some 61%N /\
     at2 1 3 "There should be only '=' after the '!'" =
     at2 (line_column ln + 1) (r + 1) "There should be only '=' after the '!'") \/
  (exists earlier previous ln later,
     iterateLine (lit "a !b") = earlier ++ previous :: ln :: later /\
     line_space ln < line_space previous /\
     at2 1 3 "There should be only '=' after the '!'" =
     at1 (line_column ln + 1) "Invalid indent space") \/
  (commentOpenAtEnd (lit "a !b") /\
   (at2 1 3 "There should be only '=' after the '!'" = TypeError \/
    exists lt, at2 1 3 "There should be only '=' after the '!'" =
               at1 (column lt) "The multi-line comment is not closed")).
Proof.
  apply (tokenise_throws (lit "a !b") (at2 1 3 "There should be only '=' after the '!'")).
  reflexivity.
Defined.

(** ** A line too deep under a block *)

Lemma frame_beyond n statements i :
  length statements <= i -> frame (setLength n statements) i = None.
Proof.
  intro Hi. unfold frame, setLength.
  rewrite nth_error_app2 by (rewrite length_firstn; lia).
  destruct (nth_error (repeat None (n - length statements))
              (i - length (firstn n statements))) as [o|] eqn:Hnth; [|reflexivity].
  apply nth_error_In, repeat_spec in Hnth. now subst.
Qed.

(** Case analysis on a computation that returned, carried out on the goal
    as well. *)
Ltac same_course :=
  repeat (cbn [bind];
          match goal with
          | |- Throw _ = Ok _ -> _ => discriminate
          | |- bind ?r _ = Ok _ -> _ => destruct r eqn:?
          | |- match ?x with _ => _ end = Ok _ -> _ => destruct x eqn:?
          | |- (if ?b then _ else _) = Ok _ -> _ => destruct b eqn:?
          end).

(** Under a pending block at level [m], a line that is accepted finds no
    frame once it is moved further in: the push is made on a hole. *)
Lemma deeper_line ps lt ps' m deeper :
  0 < m ->
  minIndent ps = Some m -> maxIndent ps = None -> length (statements ps) = m + 1 ->
  parseLine ps lt = Ok ps' -> indent lt < deeper ->
  parseLine ps (atIndent deeper lt) = Throw TypeError.
Proof.
  intros Hpos Hmin Hmax Hlen H Hdeeper. unfold parseLine, atIndent in *.
  cbn [column indent tokens]. rewrite Hmin, Hmax in *.
  destruct (Nat.ltb_spec (indent lt) m) as [|Hm]; [discriminate|]. simpl in H.
  destruct (Nat.ltb_spec deeper m) as [|_]; [lia|]. simpl.
  assert (Hroot : (indent lt =? 0) = false) by (apply Nat.eqb_neq; lia).
  rewrite Hroot in H. cbn [negb] in H.
  assert (Hframe : frame (setLength (deeper + 1) (statements ps))
                     (length (setLength (deeper + 1) (statements ps)) - 1) = None).
  { rewrite setLength_length. apply frame_beyond. lia. }
  unfold parseBlock, pushTo, alloc in *. rewrite Hframe.
  revert H. same_course; intros _; reflexivity.
Qed.

(** X15: a line that [parse] accepts as the first line of a block is not
    accepted further in; there [parse] throws a TypeError, not a
    ParseError: the line is pushed to a level of the stack of blocks that
    holds no block. *)
Theorem line_too_deep_is_a_type_error earlier opener lt later program deeper :
  opensBlock opener ->
  parse (earlier ++ [opener; lt]) = Ok program ->
  indent lt < deeper ->
  parse (earlier ++ opener :: atIndent deeper lt :: later) = Throw TypeError.
Proof.
  intros Hopens H Hdeeper. unfold parse in *.
  apply bind_ok in H as (ps2 & H & _).
  rewrite parseLines_app in *.
  apply bind_ok in H as (ps & Hearlier & H). rewrite Hearlier. cbn [bind].
  simpl in H. apply bind_ok in H as (ps1 & Hopener & H).
  apply bind_ok in H as (ps2' & Hline & _).
  cbn [parseLines]. rewrite Hopener. cbn [bind].
  destruct (parseLine_object _ _ _ Hopener) as (object & r & _ & Hblock & _ & _ & ->).
  apply Hblock in Hopens.
  unfold afterLine in Hline |- *. rewrite Hopens in Hline |- *.
  rewrite (deeper_line _ lt ps2' (indent opener + 1) deeper); try reflexivity;
    try assumption; try lia.
  cbn [statements]. rewrite length_app, setLength_length. simpl. lia.
Qed.

Lemma line_too_deep_is_a_type_error_witness :
  parse ([] ++ [ mkLineToken 1 0 [mkToken IfToken 1; mkToken (IdentifierToken (lit "x")) 4];
                 atIndent 2
                   (mkLineToken 2 1 [mkToken (IdentifierToken (lit "y")) 1;
                                     mkToken AssignmentToken 3;
                                     mkToken (NumericLiteralToken (lit "1")) 6]) ]) =
  Throw TypeError.
Proof.
  apply (line_too_deep_is_a_type_error []
           (mkLineToken 1 0 [mkToken IfToken 1; mkToken (IdentifierToken (lit "x")) 4])
           (mkLineToken 2 1 [mkToken (IdentifierToken (lit "y")) 1; mkToken AssignmentToken 3;
                             mkToken (NumericLiteralToken (lit "1")) 6])
           []
           (mkProgram [IfStatement (Identifier (lit "x"))
                         [AssignmentStatement (Identifier (lit "y")) (NumericLiteral 1)]])
           2).
  - exact I.
  - reflexivity.
  - simpl. lia.
Defined.

(** ** What the parser throws *)

Lemma mapM_throw {A B : Type} (f : A -> result B) (xs : list A) (e : error) :
  mapM f xs = Throw e -> exists x, In x xs /\ f x = Throw e.
Proof.
  induction xs as [|x xs IH]; simpl; [discriminate|]. intro H.
  apply bind_throw in H as [H | (y & _ & H)].
  - exists x. auto.
  - apply bind_throw in H as [H | (ys & _ & H)]; [|discriminate].
    destruct (IH H) as (x' & Hin & Hx'). exists x'. auto.
Qed.

Lemma located_at1 c message : locatedAt c (at1 c message).
Proof. left. eauto. Qed.

Lemma located_at2 c r message : locatedAt c (at2 c r message).
Proof. right. eauto. Qed.

(** Case analysis on a computation that threw. *)
Ltac thrown H :=
  repeat match type of H with
         | bind _ _ = Throw _ =>
             let x := fresh "x" in
             let E := fresh "E" in
             apply bind_throw in H as [H | (x & E & H)]
         | (if ?b then _ else _) = Throw _ => destruct b eqn:?
         | match ?x with _ => _ end = Throw _ => destruct x eqn:?
         | Ok _ = Throw _ => discriminate H
         end.

Section Located.

Variable recur : list Token -> option ExpressionState -> result Expression.
Variable column : nat.
Hypothesis recur_located :
  forall tokens state e,
    recur tokens state = Throw e -> e = OutOfFuel \/ locatedAt column e.

Lemma parseExpressionBody_located tokens state e :
  parseExpressionBody recur column tokens state = Throw e ->
  e = OutOfFuel \/ locatedAt column e.
Proof.
  unfold parseExpressionBody, parseMember, continueWith. intro H.
  thrown H.
  all: try (injection H as <-; right; first [apply located_at1 | apply located_at2]).
  all: try (apply recur_located in H; exact H).
  all: apply mapM_throw in H as (slice & _ & H); exact (recur_located _ _ _ H).
Qed.

End Located.

Lemma parseExpressionFuel_located fuel :
  forall column tokens state e,
    parseExpressionFuel fuel column tokens state = Throw e ->
    e = OutOfFuel \/ locatedAt column e.
Proof.
  induction fuel as [|fuel IH]; intros column tokens state e; simpl.
  - intros [= <-]. now left.
  - apply parseExpressionBody_located. apply IH.
Qed.

(** A throw of [parseExpression] is a ParseError that starts with the line
    number it was given. *)
Lemma parseExpression_located column tokens state e :
  parseExpression column tokens state = Throw e -> locatedAt column e.
Proof.
  intro H. destruct (parseExpressionFuel_located _ _ _ _ _ H) as [-> | Hat]; [|exact Hat].
  now apply parseExpression_total in H.
Qed.

Lemma parseLine_located ps lt e :
  parseLine ps lt = Throw e -> e = TypeError \/ locatedAt (column lt) e.
Proof.
  unfold parseLine, parseBlock, pushTo. intro H.
  thrown H.
  all: try (injection H as <-; first [now left | right; first [apply located_at1 | apply located_at2]]).
  all: try (right; exact (parseExpression_located _ _ _ _ H)).
  apply mapM_throw in H as (slice & _ & H).
  right. exact (parseExpression_located _ _ _ _ H).
Qed.

(** A throw of the loop over the lines is the throw of the turn for one
    line. *)
Lemma parseLines_throws lines :
  forall ps e,
    parseLines ps lines = Throw e ->
    exists ps1 lt, In lt lines /\ parseLine ps1 lt = Throw e.
Proof.
  induction lines as [|lt more IH]; intros ps e H; simpl in H; [discriminate|].
  apply bind_throw in H as [H | (ps1 & _ & H)].
  - exists ps, lt. split; [now left | exact H].
  - destruct (IH _ _ H) as (ps2 & lt' & Hin & Hthrow).
    exists ps2, lt'. split; [now right | exact Hthrow].
Qed.

Lemma parseLines_last lines :
  forall ps ps' lt,
    parseLines ps lines = Ok ps' -> lastLineToken ps' = Some lt ->
    lastLineToken ps = Some lt \/ In lt lines.
Proof.
  induction lines as [|line more IH]; intros ps ps' lt H Hlast; simpl in H.
  - injection H as <-. now left.
  - apply bind_ok in H as (ps1 & Hline & H).
    destruct (IH _ _ _ H Hlast) as [Hhere | Hin]; [|right; now right].
    destruct (parseLine_object _ _ _ Hline) as (object & r & _ & _ & _ & _ & ->).
    unfold afterLine in Hhere. right. left.
    destruct (isBlock object); simpl in Hhere; congruence.
Qed.

(** In the embedding, a throw of [parse] is a TypeError or a ParseError
    whose message starts with the line number of one of the lines it was
    given. *)
Lemma parse_thrown lineTokens e :
  parse lineTokens = Throw e ->
  e = TypeError \/ exists lt, In lt lineTokens /\ locatedAt (column lt) e.
Proof.
  unfold parse. intro H. apply bind_throw in H as [H | (ps & Hlines & H)].
  - apply parseLines_throws in H as (ps1 & lt & Hin & H).
    apply parseLine_located in H as [-> | Hat]; [now left | right; eauto].
  - unfold finish in H.
    destruct (minIndent ps); [|discriminate].
    destruct (lastLineToken ps) as [lt|] eqn:Hlast; [|discriminate].
    injection H as <-. right. exists lt. split; [|apply located_at1].
    destruct (parseLines_last _ _ _ _ Hlines Hlast) as [Hnone | Hin];
      [discriminate | exact Hin].
Qed.

Lemma located_is_parse_error c e :
  locatedAt c e -> exists message, e = ParseError message.
Proof.
  intros [(message & ->) | (r & message & ->)]; unfold at1, at2; eauto.
Qed.

(** X16: every ParseError that [parse] throws has a message that starts
    with the line number of one of the lines it was given, and the Error
    for an unexpected type of token is never thrown.  Nothing is said of
    the RangeError that the engine raises when a line is long enough for
    the recursion of [parseExpression] to use up the call stack. *)
Theorem parse_errors_name_a_line lineTokens message :
  (parse lineTokens = Throw (ParseError message) ->
   exists lt, In lt lineTokens /\ locatedAt (column lt) (ParseError message)) /\
  parse lineTokens <> Throw (JsError message).
Proof.
  split.
  - intro H. destruct (parse_thrown _ _ H) as [Htype | Hat]; [discriminate | exact Hat].
  - intro H. destruct (parse_thrown _ _ H) as [Htype | (lt & _ & Hat)]; [discriminate|].
    destruct (located_is_parse_error _ _ Hat) as (m & Hm). discriminate.
Qed.

Lemma parse_errors_name_a_line_witness :
  exists lt,
    In lt (firstn 2 sampleLines ++ [mkLineToken 3 0 [mkToken (IdentifierToken (lit "f")) 1]]) /\
    locatedAt (column lt) (ParseError "3: This expression has no effect").
Proof.
  apply (proj1 (parse_errors_name_a_line
                  (firstn 2 sampleLines ++
                     [mkLineToken 3 0 [mkToken (IdentifierToken (lit "f")) 1]])
                  "3: This expression has no effect")).
  reflexivity.
Defined.

(** ** The closing parenthesis and the closing bracket *)

Lemma firstClose_here opening closing count t more :
  firstClose opening closing count (t :: more) 0 <->
  closing t = true /\
  (count + (if opening t then 1 else if closing t then -1 else 0) = 0)%Z.
Proof.
  unfold firstClose. simpl. rewrite Z.add_0_r. split.
  - intros ((t' & [= <-] & Hc) & Hb & _). auto.
  - intros [Hc Hb]. repeat split; eauto. intros i t' Hi. lia.
Qed.

Lemma firstClose_later opening closing count t more j :
  firstClose opening closing count (t :: more) (S j) <->
  (closing t = true ->
   (count + (if opening t then 1 else if closing t then -1 else 0) <> 0)%Z) /\
  firstClose opening closing
    (count + (if opening t then 1 else if closing t then -1 else 0)) more j.
Proof.
  unfold firstClose. cbn [nth_error]. split.
  - intros (Ht & Hb & Hmin). split; [|split; [exact Ht | split]].
    + intro Hc. specialize (Hmin 0 t ltac:(lia) eq_refl Hc). simpl in Hmin.
      now rewrite Z.add_0_r in Hmin.
    + simpl in Hb. lia.
    + intros i t' Hi Hnth Hc. specialize (Hmin (S i) t' ltac:(lia) Hnth Hc).
      simpl in Hmin. lia.
  - intros (Hfirst & Ht & Hb & Hmin). split; [exact Ht | split].
    + simpl. lia.
    + intros [|i] t' Hi Hnth Hc.
      * simpl in Hnth. injection Hnth as ->. simpl. rewrite Z.add_0_r. auto.
      * specialize (Hmin i t' ltac:(lia) Hnth Hc). simpl. lia.
Qed.

Lemma scanParenthese_closes entries :
  forall count index k,
    scanParenthese count index entries = Some k <->
    exists j, k = index + j /\ firstClose isParentheseStart isParentheseEnd count entries j.
Proof.
  induction entries as [|t more IH]; intros count index k.
  - simpl. split; [discriminate|].
    intros (j & _ & (t & Hnth & _) & _). destruct j; discriminate.
  - assert (Hlater : forall count',
              (isParentheseEnd t = true ->
               (count + (if isParentheseStart t then 1
                         else if isParentheseEnd t then -1 else 0) <> 0)%Z) ->
              count' = (count + (if isParentheseStart t then 1
                                 else if isParentheseEnd t then -1 else 0))%Z ->
              scanParenthese count' (S index) more = Some k <->
              exists j, k = index + j /\
                        firstClose isParentheseStart isParentheseEnd count (t :: more) j).
    { intros count' Hopen ->. rewrite IH. split.
      - intros (j & -> & Hj). exists (S j). split; [lia|].
        apply firstClose_later. auto.
      - intros ([|j] & -> & Hj).
        + apply firstClose_here in Hj as [Hc Hb]. now apply Hopen in Hc.
        + apply firstClose_later in Hj as [_ Hj]. exists j. split; [lia | exact Hj]. }
    simpl. unfold isParentheseStart, isParentheseEnd in *.
    destruct (type t) eqn:Htype;
      try (apply Hlater; [discriminate | lia]).
    destruct (Z.eqb_spec (count - 1) 0) as [Hzero | Hnonzero].
    + split.
      * intros [= <-]. exists 0. split; [lia|]. apply firstClose_here.
        rewrite Htype. split; [reflexivity | lia].
      * intros ([|j] & -> & Hj); [f_equal; lia|].
        apply firstClose_later in Hj as [Hopen _].
        rewrite Htype in Hopen. specialize (Hopen eq_refl). lia.
    + apply Hlater; [intros _; lia | lia].
Qed.

Lemma scanBracket_closes entries :
  forall count index k,
    scanBracket count index entries = Some k <->
    exists j, k = index + j + 1 /\ firstClose isBracketStart isBracketEnd count entries j.
Proof.
  induction entries as [|t more IH]; intros count index k.
  - simpl. split; [discriminate|].
    intros (j & _ & (t & Hnth & _) & _). destruct j; discriminate.
  - assert (Hlater : forall count',
              (isBracketEnd t = true ->
               (count + (if isBracketStart t then 1
                         else if isBracketEnd t then -1 else 0) <> 0)%Z) ->
              count' = (count + (if isBracketStart t then 1
                                 else if isBracketEnd t then -1 else 0))%Z ->
              scanBracket count' (S index) more = Some k <->
              exists j, k = index + j + 1 /\
                        firstClose isBracketStart isBracketEnd count (t :: more) j).
    { intros count' Hopen ->. rewrite IH. split.
      - intros (j & -> & Hj). exists (S j). split; [lia|].
        apply firstClose_later. auto.
      - intros ([|j] & -> & Hj).
        + apply firstClose_here in Hj as [Hc Hb]. now apply Hopen in Hc.
        + apply firstClose_later in Hj as [_ Hj]. exists j. split; [lia | exact Hj]. }
    simpl. unfold isBracketStart, isBracketEnd in *.
    destruct (type t) eqn:Htype;
      try (apply Hlater; [discriminate | lia]).
    destruct (Z.eqb_spec (count - 1) 0) as [Hzero | Hnonzero].
    + split.
      * intros [= <-]. exists 0. split; [lia|]. apply firstClose_here.
        rewrite Htype. split; [reflexivity | lia].
      * intros ([|j] & -> & Hj); [f_equal; lia|].
        apply firstClose_later in Hj as [Hopen _].
        rewrite Htype in Hopen. specialize (Hopen eq_refl). lia.
    + apply Hlater; [intros _; lia | lia].
Qed.

(** X17: the loop that looks for the end of a parenthesised expression
    answers [k] exactly when [tokens[k]] is the first closing parenthesis
    at which as many parentheses have been closed as opened; the loop that
    looks for the end of a member does the same with the brackets of
    [tokens.slice(1)], and answers the index in [tokens]. *)
Theorem closing_delimiter_is_the_first_match tokens k :
  (scanParenthese 0 0 tokens = Some k <->
   firstClose isParentheseStart isParentheseEnd 0 tokens k) /\
  (scanBracket 0 0 (sliceFrom tokens 1) = Some k <->
   exists j, k = j + 1 /\ firstClose isBracketStart isBracketEnd 0 (sliceFrom tokens 1) j).
Proof.
  split.
  - rewrite scanParenthese_closes. split.
    + intros (j & -> & Hj). exact Hj.
    + intro Hk. exists k. auto.
  - rewrite scanBracket_closes. split; intros (j & -> & Hj); exists j; auto.
Qed.

Lemma closing_delimiter_is_the_first_match_witness :
  firstClose isParentheseStart isParentheseEnd 0 (sliceFrom sampleCall 1) 4.
Proof.
  apply (proj1 (proj1 (closing_delimiter_is_the_first_match (sliceFrom sampleCall 1) 4))).
  reflexivity.
Defined.

(** ** The slices of a parenthesised list *)

Lemma sliceN_snoc {A : Type} (l : list A) (a b : nat) (x : A) :
  a <= b -> sliceN l b (b + 1) = [x] -> sliceN l a (b + 1) = sliceN l a b ++ [x].
Proof.
  intros Hab Hx. rewrite (sliceN_split l a b (b + 1)) by lia. now rewrite Hx.
Qed.

Lemma withSeparators_snoc groups slice separator :
  withSeparators (groups ++ [(slice, separator)]) =
  withSeparators groups ++ slice ++ [separator].
Proof.
  unfold withSeparators. rewrite flat_map_app. simpl. now rewrite app_nil_r.
Qed.

Lemma scanList_joins offset tokens entries :
  forall count start slices index arguments k groups,
    skipn (index + offset) tokens = entries ->
    (index = 0 /\ count = 0%Z /\ start = 0) \/ start < index ->
    Forall (fun g => isSeparator (snd g) = true) groups ->
    slices = map fst groups ->
    sliceN tokens (offset + 1) (start + offset + 1) = withSeparators groups ->
    scanList offset tokens count start slices index entries = (arguments, Some k) ->
    exists groups' last,
      Forall (fun g => isSeparator (snd g) = true) groups' /\
      sliceN tokens (offset + 1) k = withSeparators groups' ++ last /\
      arguments = map fst groups' ++ match last with [] => [] | _ :: _ => [last] end.
Proof.
  induction entries as [|t more IH];
    intros count start slices index arguments k groups Hskip Hstart Hsep Hslices Hprefix;
    [discriminate|].
  destruct (@skipn_head _ _ _ _ _ Hskip) as [Ht Hmore].
  replace (index + offset + 1) with (S index + offset) in Hmore by lia.
  assert (Hnext : (S index = 0 /\ count = 0%Z /\ start = 0) \/ start < S index) by lia.
  cbn [scanList].
  destruct (type t) eqn:Htype;
    try (apply (IH _ _ _ _ _ _ groups Hmore); auto; lia).
  - (* a separator *)
    destruct (Z.eqb_spec count 1) as [Hone | _];
      [|apply (IH _ _ _ _ _ _ groups Hmore); auto; lia].
    assert (Hlt : start < index) by lia.
    apply (IH _ _ _ _ _ _
             (groups ++ [(sliceN tokens (start + offset + 1) (index + offset), t)]) Hmore).
    + right. lia.
    + apply Forall_app. split; [exact Hsep|]. constructor; [|constructor].
      simpl. unfold isSeparator. now rewrite Htype.
    + rewrite map_app, Hslices. reflexivity.
    + rewrite withSeparators_snoc, <- Hprefix, app_assoc.
      rewrite <- (sliceN_split tokens (offset + 1) (start + offset + 1) (index + offset))
        by lia.
      apply sliceN_snoc; [lia | exact Ht].
  - (* a closing parenthesis *)
    destruct (Z.eqb_spec (count - 1) 0) as [Hzero | _];
      [|apply (IH _ _ _ _ _ _ groups Hmore); auto; lia].
    assert (Hlt : start < index) by lia.
    intros [= <- <-].
    exists groups, (sliceN tokens (start + offset + 1) (index + offset)).
    split; [exact Hsep|]. split.
    + rewrite <- Hprefix. apply sliceN_split; lia.
    + rewrite Hslices.
      destruct (Nat.eqb_spec (start + offset + 1) (index + offset)) as [Heq | Hne]; simpl.
      * rewrite Heq. unfold sliceN. rewrite Nat.sub_diag. simpl. now rewrite app_nil_r.
      * f_equal.
        destruct (sliceN tokens (start + offset + 1) (index + offset)) eqn:Hlast;
          [|reflexivity].
        exfalso. apply (f_equal (@length _)) in Hlast. unfold sliceN in Hlast.
        rewrite length_firstn, length_skipn in Hlast.
        apply (f_equal (@length _)) in Hskip. rewrite length_skipn in Hskip.
        simpl in Hlast, Hskip. lia.
Qed.

(** X18: when the loop that splits a parenthesised list finds its closing
    parenthesis at [k], the tokens between the opening parenthesis and [k]
    are the slices it has pushed, in order, with one separator after each;
    the last slice alone may have no separator after it, and what follows
    the last separator is pushed only when it is not empty. *)
Theorem list_slices_give_back_the_list offset tokens arguments k :
  scanList offset tokens 0 0 [] 0 (sliceFrom tokens offset) = (arguments, Some k) ->
  exists groups last,
    Forall (fun g => isSeparator (snd g) = true) groups /\
    sliceN tokens (offset + 1) k = withSeparators groups ++ last /\
    arguments = map fst groups ++ match last with [] => [] | _ :: _ => [last] end.
Proof.
  apply (scanList_joins offset tokens (sliceFrom tokens offset) 0%Z 0 [] 0 arguments k []).
  - reflexivity.
  - left. auto.
  - constructor.
  - reflexivity.
  - unfold sliceN. replace (0 + offset + 1 - (offset + 1)) with 0 by lia. reflexivity.
Qed.

Lemma list_slices_give_back_the_list_witness :
  exists groups last,
    Forall (fun g => isSeparator (snd g) = true) groups /\
    sliceN sampleCall 2 5 = withSeparators groups ++ last /\
    [[mkToken (IdentifierToken (lit "a")) 3]; [mkToken (NumericLiteralToken (lit "2")) 6]] =
    map fst groups ++ match last with [] => [] | _ :: _ => [last] end.
Proof.
  apply (list_slices_give_back_the_list 1 sampleCall). reflexivity.
Defined.

(** ** The code points of a line *)

Lemma iterateCodePointFrom_covers n :
  forall text row,
    length text <= n ->
    exists codePoints,
      iterateCodePointFrom row text = codePoints ++ [(row + length text, EOL)] /\
      concat (map snd codePoints) = text /\
      rowsFrom row codePoints /\
      Forall (fun p => isCodePoint (snd p) = true) codePoints.
Proof.
  induction n as [|n IH]; intros text row Hlen.
  - destruct text; [|simpl in Hlen; lia]. exists []. simpl.
    rewrite Nat.add_0_r. repeat split; constructor.
  - destruct text as [|u rest].
    { exists []. simpl. rewrite Nat.add_0_r. repeat split; constructor. }
    assert (Hsingle : exists codePoints,
               (row, [u]) :: iterateCodePointFrom (row + 1) rest =
               codePoints ++ [(row + length (u :: rest), EOL)] /\
               concat (map snd codePoints) = u :: rest /\
               rowsFrom row codePoints /\
               Forall (fun p => isCodePoint (snd p) = true) codePoints).
    { destruct (IH rest (row + 1) ltac:(simpl in Hlen; lia))
        as (codePoints & Heq & Hcat & Hrows & Hall).
      exists ((row, [u]) :: codePoints). rewrite Heq. simpl.
      replace (row + 1 + length rest) with (row + S (length rest)) by lia.
      repeat split; auto. now rewrite Hcat. }
    cbn [iterateCodePointFrom].
    destruct rest as [|v rest']; [exact Hsingle|].
    destruct (isLeadSurrogate u && isTrailSurrogate v) eqn:Hpair; [|exact Hsingle].
    destruct (IH rest' (row + 2) ltac:(simpl in Hlen; lia))
      as (codePoints & Heq & Hcat & Hrows & Hall).
    exists ((row, [u; v]) :: codePoints). rewrite Heq. simpl.
    replace (row + 2 + length rest') with (row + S (S (length rest'))) by lia.
    repeat split; auto. now rewrite Hcat.
Qed.

(** X19: [iterateCodePoint] yields the text cut into code points, each a
    single code unit or a lead surrogate with the trail surrogate after
    it, each with the offset of its first code unit, and then "EOL" with
    the length of the text. *)
Theorem code_points_cover_the_text text :
  exists codePoints,
    iterateCodePoint text = codePoints ++ [(length text, EOL)] /\
    concat (map snd codePoints) = text /\
    rowsFrom 0 codePoints /\
    Forall (fun p => isCodePoint (snd p) = true) codePoints.
Proof.
  exact (iterateCodePointFrom_covers (length text) text 0 (Nat.le_refl _)).
Qed.

(** ** Line comments *)

Lemma sliceN_app_prefix {A : Type} (l more : list A) (a b : nat) :
  b <= length l -> sliceN (l ++ more) a b = sliceN l a b.
Proof.
  intro Hb. unfold sliceN. rewrite skipn_app, firstn_app, length_skipn.
  replace (b - a - (length l - a)) with 0 by lia. simpl. apply app_nil_r.
Qed.

Lemma str_eqb_length (a b : jsstring) : length a <> length b -> (a === b) = false.
Proof.
  intro Hne. destruct (a === b) eqn:Heq; [|reflexivity].
  apply str_eqb_eq in Heq. now subst.
Qed.

Lemma slice_inside {A : Type} (l : list A) (row : nat) :
  1 <= row -> row + 1 <= length l ->
  slice l (Z.of_nat row - 1) (Z.of_nat row + 1) = sliceN l (row - 1) (row + 1).
Proof.
  intros Hrow Hlen. unfold slice, sliceN. cbv zeta.
  destruct (Z.ltb_spec (Z.of_nat row - 1) 0) as [|_]; [lia|].
  destruct (Z.ltb_spec (Z.of_nat row + 1) 0) as [|_]; [lia|].
  replace (Z.to_nat _) with (row + 1 - (row - 1)) by lia.
  replace (Z.to_nat _) with (row - 1) by lia. reflexivity.
Qed.

Lemma slice_at_start {A : Type} (l : list A) (to : Z) :
  (to <= 1)%Z -> length (slice l (-1) to) <= 1.
Proof.
  intro Hto. unfold slice. cbv zeta. change (-1 <? 0)%Z with true. cbv iota.
  rewrite length_firstn, length_skipn.
  destruct (Z.ltb_spec to 0); lia.
Qed.

Lemma slice_at_end {A : Type} (l : list A) :
  length (slice l (Z.of_nat (length l) - 1) (Z.of_nat (length l) + 1)) <= 1.
Proof.
  unfold slice. cbv zeta. rewrite length_firstn, length_skipn.
  destruct (Z.ltb_spec (Z.of_nat (length l) - 1) 0);
    destruct (Z.ltb_spec (Z.of_nat (length l) + 1) 0); lia.
Qed.

(** Inside the text, the test made in a comment does not depend on what
    follows the text. *)
Lemma comment_test_prefix (text more operator : jsstring) (row : nat) :
  length operator = 2 -> row + 1 <= length text ->
  (slice (text ++ more) (Z.of_nat row - 1) (Z.of_nat row + 1) === operator) =
  (slice text (Z.of_nat row - 1) (Z.of_nat row + 1) === operator).
Proof.
  intros Hop Hrow. destruct row as [|row].
  - simpl Z.of_nat. simpl (0 - 1)%Z. simpl (0 + 1)%Z.
    pose proof (slice_at_start (text ++ more) 1 ltac:(lia)).
    pose proof (slice_at_start text 1 ltac:(lia)).
    rewrite !str_eqb_length by lia. reflexivity.
  - rewrite !slice_inside by (rewrite ?length_app; lia).
    now rewrite sliceN_app_prefix by lia.
Qed.

Lemma scanCodePoint_prefix c text more s row codePoint :
  row + 1 <= length text ->
  scanCodePoint c (text ++ more) s row codePoint = scanCodePoint c text s row codePoint.
Proof.
  intro Hrow. unfold scanCodePoint.
  rewrite !(comment_test_prefix text more) by (reflexivity || exact Hrow).
  rewrite !(sliceN_app_prefix text more) by lia.
  reflexivity.
Qed.

Lemma startToken_EOL s row : state s = None -> startToken s row EOL = ContinueLoop s.
Proof. unfold startToken. intros ->. reflexivity. Qed.

Lemma startToken_hash s row : state s = None -> startToken s row (lit "#") = BreakLoop s.
Proof. unfold startToken. intros ->. reflexivity. Qed.

(** At the end of the text and outside comments, the turn for [#] leaves
    the loop with what the turn for "EOL" gives. *)
Lemma hash_turn c text rest s flow :
  scanCodePoint c text s (length text) EOL = Ok flow ->
  multiLineCommentCount (scanOf flow) = 0 ->
  scanCodePoint c (text ++ 35%N :: rest) s (length text) (lit "#") =
  Ok (BreakLoop (scanOf flow)).
Proof.
  unfold scanCodePoint.
  rewrite !(sliceN_app_prefix text (35%N :: rest)) by lia.
  destruct (Nat.ltb_spec 0 (multiLineCommentCount s)) as [Hcount | Hcount].
  - pose proof (slice_at_end text) as Hshort.
    rewrite !str_eqb_length by (simpl; lia).
    intros [= <-]. simpl. lia.
  - destruct (state s) as [[| | | |]|] eqn:Hstate.
    all: try change (isIdentifierCodePoint EOL) with false.
    all: try change (isIdentifierCodePoint (lit "#")) with false.
    all: try change (isNumberCodePoint EOL) with false.
    all: try change (isNumberCodePoint (lit "#")) with false.
    all: try change (EOL === lit ">") with false.
    all: try change (lit "#" === lit ">") with false.
    all: try change (EOL === lit "=") with false.
    all: try change (lit "#" === lit "=") with false.
    all: try change (EOL === lit "*") with false.
    all: try change (lit "#" === lit "*") with false.
    all: cbv iota zeta.
    all: try (destruct (sliceN text (startRow s) (length text) === lit "!"); [discriminate|]).
    all: rewrite ?startToken_EOL, ?startToken_hash by (reflexivity || exact Hstate).
    all: intros [= <-] _; reflexivity.
Qed.

Lemma scanLine_hash c text rest n :
  forall t row s s',
    length t <= n -> row + length t = length text ->
    scanLine c text s (iterateCodePointFrom row t) = Ok s' ->
    multiLineCommentCount s' = 0 ->
    scanLine c (text ++ 35%N :: rest) s (iterateCodePointFrom row (t ++ 35%N :: rest)) = Ok s'.
Proof.
  induction n as [|n IH]; intros t row s s' Hlen Hrow.
  - destruct t; [|simpl in Hlen; lia]. simpl in Hrow. rewrite Nat.add_0_r in Hrow. subst row.
    simpl app. cbn [iterateCodePointFrom].
    assert (Hhash : forall more,
              scanLine c text s [(length text, EOL)] = Ok s' ->
              multiLineCommentCount s' = 0 ->
              scanLine c (text ++ 35%N :: rest) s ((length text, [35%N]) :: more) = Ok s').
    { intros more. cbn [scanLine].
      destruct (scanCodePoint c text s (length text) EOL) as [flow|] eqn:Hturn; [|discriminate].
      intros Hs' Hzero.
      assert (Hflow : s' = scanOf flow) by (destruct flow; now injection Hs' as <-).
      subst s'. pose proof (hash_turn _ _ rest _ _ Hturn Hzero) as Hhash.
      change (lit "#") with [35%N] in Hhash. now rewrite Hhash. }
    destruct rest as [|d rest']; [apply Hhash|].
    change (isLeadSurrogate 35%N && isTrailSurrogate d) with false. cbv iota. apply Hhash.
  - destruct t as [|u t'].
    { apply (IH [] row s s'); [simpl; lia | exact Hrow]. }
    simpl in Hrow.
    assert (Hsingle :
              scanLine c text s ((row, [u]) :: iterateCodePointFrom (row + 1) t') = Ok s' ->
              multiLineCommentCount s' = 0 ->
              scanLine c (text ++ 35%N :: rest) s
                ((row, [u]) :: iterateCodePointFrom (row + 1) (t' ++ 35%N :: rest)) = Ok s').
    { cbn [scanLine]. rewrite scanCodePoint_prefix by lia.
      destruct (scanCodePoint c text s row [u]) as [[s1|s1]|]; auto.
      apply IH; [simpl in Hlen; lia | lia]. }
    simpl app. cbn [iterateCodePointFrom].
    destruct t' as [|v t'']; simpl app; cbv iota.
    + change (isTrailSurrogate 35%N) with false. rewrite andb_false_r.
      exact Hsingle.
    + destruct (isLeadSurrogate u && isTrailSurrogate v); [|exact Hsingle].
      cbn [scanLine]. rewrite scanCodePoint_prefix by (simpl in Hrow; lia).
      destruct (scanCodePoint c text s row [u; v]) as [[s1|s1]|]; auto.
      apply IH; [simpl in Hlen; lia | simpl in Hrow; lia].
Qed.

(** X20: in a line, what follows a [#] met outside block comments is not
    read: when the loop over the code points of [text] ends outside block
    comments, it ends with the same tokens and the same variables on
    [text] followed by [#] and anything. *)
Theorem line_comment_is_not_read c text rest s s' :
  scanLine c text s (iterateCodePoint text) = Ok s' ->
  multiLineCommentCount s' = 0 ->
  scanLine c (text ++ lit "#" ++ rest) s (iterateCodePoint (text ++ lit "#" ++ rest)) = Ok s'.
Proof.
  intros H Hzero.
  exact (scanLine_hash c text rest (length text) text 0 s s' (Nat.le_refl _) eq_refl H Hzero).
Qed.

Lemma line_comment_is_not_read_witness :
  scanLine 0 (lit "x -> 1 " ++ lit "#" ++ lit " one") (mkScan [] None 0 0)
    (iterateCodePoint (lit "x -> 1 " ++ lit "#" ++ lit " one")) =
  Ok (mkScan [mkToken (IdentifierToken (lit "x")) 1; mkToken AssignmentToken 3;
              mkToken (NumericLiteralToken (lit "1")) 6] None 5 0).
Proof.
  apply (line_comment_is_not_read 0 (lit "x -> 1 ") (lit " one")); reflexivity.
Defined.

(** ** What the entry point throws *)

(** In the embedding, a throw of the entry point is a TypeError or a
    ParseError whose message starts with the number, counted from 1, of a
    line of the source that is not empty. *)
Lemma compile_thrown source e :
  compile source = Throw e ->
  e = TypeError \/
  exists ln, In ln (iterateLine source) /\ locatedAt (line_column ln + 1) e.
Proof.
  unfold compile. intro H. apply bind_throw in H as [H | (lts & Htokens & H)].
  - unfold tokenise, parseToTokens in H.
    apply bind_throw in H as [H | (lx & Hlines & H)].
    + right. apply tokeniseLines_thrown in H
        as [(ln & r & Hin & _ & _ & ->) | (earlier & previous & ln & later & Hsplit & _ & ->)].
      * exists ln. split; [exact Hin | apply located_at2].
      * exists ln. split; [|apply located_at1].
        rewrite Hsplit. apply in_or_app. right. right. now left.
    + destruct (negb (commentCount lx =? 0)); [|discriminate].
      destruct (lastEmitted (lineTokens lx)) as [lt|] eqn:Hlast; injection H as <-;
        [right | now left].
      apply nth_error_In in Hlast.
      destruct (emitted_origin _ _ lt Hlines Hlast)
        as [[] | (earlier & ln & later & lx1 & lx2 & Hsplit & _ & Hline & Hpush)].
      destruct (tokeniseLine_effect _ _ Hline) as (s & _ & _ & [Hsame | [_ Hnew]]).
      * rewrite Hsame in Hpush. apply (f_equal (@length _)) in Hpush.
        rewrite length_app in Hpush. simpl in Hpush. lia.
      * rewrite Hnew in Hpush. apply app_inj_tail in Hpush as [_ <-].
        exists ln. split; [rewrite Hsplit; apply in_elt | apply located_at1].
  - unfold parse in H. apply bind_throw in H as [H | (ps & Hlines & H)].
    + apply parseLines_throws in H as (ps1 & lt & Hin & H).
      apply parseLine_located in H as [-> | Hat]; [now left | right].
      destruct (emitted_scan _ _ _ Htokens Hin) as (ln & _ & _ & Hln & Hcolumn & _).
      exists ln. rewrite <- Hcolumn. auto.
    + unfold finish in H.
      destruct (minIndent ps); [|discriminate].
      destruct (lastLineToken ps) as [lt|] eqn:Hlast; [|discriminate].
      injection H as <-. right.
      destruct (parseLines_last _ _ _ _ Hlines Hlast) as [Hnone | Hin]; [discriminate|].
      destruct (emitted_scan _ _ _ Htokens Hin) as (ln & _ & _ & Hln & Hcolumn & _).
      exists ln. rewrite <- Hcolumn. split; [exact Hln | apply located_at1].
Qed.

(** X21: every ParseError that the entry point throws, on any source, has
    a message that starts with the number, counted from 1, of a line of the
    source that is not empty, and the Error for an unexpected type of token
    is never thrown.  Nothing is said of the RangeError that the engine
    raises when a line is long enough for the recursion of
    [parseExpression] to use up the call stack. *)
Theorem compile_errors_name_a_line source message :
  (compile source = Throw (ParseError message) ->
   exists ln,
     In ln (iterateLine source) /\ locatedAt (line_column ln + 1) (ParseError message)) /\
  compile source <> Throw (JsError message).
Proof.
  split.
  - intro H. destruct (compile_thrown _ _ H) as [Htype | Hat]; [discriminate | exact Hat].
  - intro H. destruct (compile_thrown _ _ H) as [Htype | (ln & _ & Hat)]; [discriminate|].
    destruct (located_is_parse_error _ _ Hat) as (m & Hm). discriminate.
Qed.

Lemma compile_errors_name_a_line_witness :
  exists ln,
    In ln (iterateLine (unlines ["x -> 1"; "+ 2"]%string)) /\
    locatedAt (line_column ln + 1) (ParseError "2: Syntax Error").
Proof.
  apply (proj1 (compile_errors_name_a_line (unlines ["x -> 1"; "+ 2"]%string)
                  "2: Syntax Error")).
  reflexivity.
Defined.

(** ** Parentheses around an expression *)

(** X22: parentheses around a whole expression change nothing: when the
    first token is an opening parenthesis that the last token closes,
    [parseExpression] returns or throws what it returns or throws on the
    tokens between them. *)
Theorem parentheses_around_an_expression c opening tokens closing :
  type opening = ParentheseStartToken ->
  tokens <> [] ->
  scanParenthese 0 0 (opening :: tokens ++ [closing]) = Some (length tokens + 1) ->
  parseExpression c (opening :: tokens ++ [closing]) None = parseExpression c tokens None.
Proof.
  intros Hopening Hne Hscan. rewrite parseExpression_unfold.
  unfold parseExpressionBody. rewrite Hopening, Hscan.
  assert (Hinner : sliceN (opening :: tokens ++ [closing]) 1 (length tokens + 1) = tokens).
  { unfold sliceN. replace (length tokens + 1 - 1) with (length tokens + 0) by lia.
    simpl skipn. rewrite firstn_app_2. simpl. apply app_nil_r. }
  cbv zeta. rewrite Hinner.
  destruct tokens as [|token rest]; [contradiction|].
  replace (length (token :: rest) + 1 =? length (opening :: (token :: rest) ++ [closing]) - 1)
    with true
    by (symmetry; apply Nat.eqb_eq; simpl; rewrite length_app; simpl; lia).
  destruct (parseExpression c (token :: rest) None); reflexivity.
Qed.

Lemma parentheses_around_an_expression_witness :
  parseExpression 1
    (mkToken ParentheseStartToken 1 :: sampleOperands ++ [mkToken ParentheseEndToken 7]) None =
  parseExpression 1 sampleOperands None.
Proof.
  apply (parentheses_around_an_expression 1 (mkToken ParentheseStartToken 1) sampleOperands
           (mkToken ParentheseEndToken 7)).
  - reflexivity.
  - discriminate.
  - reflexivity.
Defined.

(** ** One statement for each line, in the order of the lines *)

Lemma flat_map_same {A B : Type} (f g : A -> list B) (l : list A) :
  (forall x, In x l -> f x = g x) -> flat_map f l = flat_map g l.
Proof.
  induction l as [|x l IH]; intro H; [reflexivity|].
  simpl. rewrite (H x) by now left. rewrite IH; [reflexivity|].
  intros y Hy. apply H. now right.
Qed.

Lemma listing_read h :
  forall fuel r depth,
    flat_map (preorder depth) (readStatements fuel h r) = listing fuel h r depth.
Proof.
  induction fuel as [|fuel IH]; intros r depth; [reflexivity|].
  cbn [readStatements listing].
  induction (arrays h r) as [|object rest IHrest]; [reflexivity|].
  cbn [map flat_map]. rewrite IHrest. f_equal.
  destruct object; simpl; rewrite ?IH; reflexivity.
Qed.

Lemma listing_fuel h :
  (forall r, next h <= r -> arrays h r = []) ->
  (forall r object b,
     In object (arrays h r) -> bodyOf object = Some b -> r < b /\ b < next h) ->
  forall fuel fuel' r depth,
    next h <= fuel + r -> next h <= fuel' + r ->
    listing fuel h r depth = listing fuel' h r depth.
Proof.
  intros Hempty Hbodies.
  assert (Hout : forall fuel r depth, next h <= r -> listing fuel h r depth = []).
  { intros [|fuel] r depth Hr; [reflexivity|]. cbn [listing]. now rewrite (Hempty r Hr). }
  induction fuel as [|fuel IH]; intros fuel' r depth Hfuel Hfuel'.
  - rewrite !Hout by lia. reflexivity.
  - destruct fuel' as [|fuel']; [rewrite !Hout by lia; reflexivity|].
    cbn [listing]. apply flat_map_same. intros object Hin. f_equal.
    destruct (bodyOf object) as [b|] eqn:Hb; [|reflexivity].
    destruct (Hbodies r object b Hin Hb). apply IH; lia.
Qed.

Lemma parseLine_kind ps lt ps' :
  parseLine ps lt = Ok ps' ->
  exists object r,
    lineKind lt = Some (objectKind object) /\
    frame (setLength (indent lt + 1) (statements ps)) (indent lt) = Some r /\
    ((bodyOf object = None /\
      heap ps' = push (heap ps) r object /\
      statements ps' = setLength (indent lt + 1) (statements ps)) \/
     (bodyOf object = Some (next (heap ps)) /\
      heap ps' = push (snd (alloc (heap ps))) r object /\
      statements ps' =
        setLength (indent lt + 1) (statements ps) ++ [Some (next (heap ps))])).
Proof.
  unfold parseLine, lineKind, parseBlock, pushTo. intro H. unfold alloc in H.
  destruct (_ || _); [discriminate|].
  rewrite setLength_length in H. replace (indent lt + 1 - 1) with (indent lt) in H by lia.
  assert (Hroot : negb (indent lt =? 0) = false ->
                  forall r,
                    frame (setLength (indent lt + 1) (statements ps)) 0 = Some r ->
                    frame (setLength (indent lt + 1) (statements ps)) (indent lt) = Some r).
  { intros Hz r. apply negb_false_iff, Nat.eqb_eq in Hz. now rewrite Hz. }
  unpack H.
  all: match goal with
       | Hp : match frame ?st ?i with _ => _ end = Ok _ |- _ =>
           destruct (frame st i) as [r|] eqn:Hframe; [injection Hp as <- | discriminate Hp]
       end.
  all: injection H as <-.
  all: eexists _, r.
  all: first [ refine (conj _ (conj eq_refl _))
             | refine (conj _ (conj (Hroot eq_refl r eq_refl) _)) ].
  all: try (refine (or_introl (conj _ (conj eq_refl eq_refl))); reflexivity).
  all: try (refine (or_intror (conj _ (conj eq_refl eq_refl))); reflexivity).
  all: reflexivity.
Qed.

Lemma In_firstn {A : Type} (x : A) (n : nat) (l : list A) : In x (firstn n l) -> In x l.
Proof.
  intro H. rewrite <- (firstn_skipn n l). apply in_or_app. now left.
Qed.

Lemma nth_error_firstn_some {A : Type} (n i : nat) (l : list A) (x : A) :
  nth_error (firstn n l) i = Some x <-> i < n /\ nth_error l i = Some x.
Proof.
  rewrite nth_error_firstn. destruct (Nat.ltb_spec i n); split.
  - auto.
  - now intros [_ H'].
  - discriminate.
  - intros [Hlt _]. lia.
Qed.

(** Popping frames keeps the invariant. *)
Lemma spineInvariant_firstn h spine n :
  spineInvariant h spine -> 0 < n -> spineInvariant h (firstn n spine).
Proof.
  intros [Hroot Hsorted Hbound Hempty Hbodies Hparent Hchild] Hn. constructor.
  - apply nth_error_firstn_some. auto.
  - now apply sorted_firstn.
  - apply Forall_forall. intros f Hf. rewrite Forall_forall in Hbound.
    apply Hbound. exact (In_firstn _ _ _ Hf).
  - exact Hempty.
  - exact Hbodies.
  - intros r pre object post b Harray Hbody Hin.
    destruct (Hparent r pre object post b Harray Hbody (In_firstn _ _ _ Hin))
      as (Hpost & i & Hr & Hb).
    split; [exact Hpost|]. exists i.
    apply In_nth_error in Hin as (j & Hj). apply nth_error_firstn_some in Hj as [Hjn Hj].
    pose proof (sorted_nth_injective spine j (S i) b Hsorted Hj Hb) as ->.
    split; apply nth_error_firstn_some; split; auto; lia.
  - intros i b Hb. apply nth_error_firstn_some in Hb as [Hi Hb].
    destruct (Hchild i b Hb) as (r & pre & object & Hr & Harray & Hbody).
    exists r, pre, object. split; [|auto].
    apply nth_error_firstn_some. split; [lia | exact Hr].
Qed.

(** What is below an array that is not in the stack does not change when
    the arrays that are not in the stack do not. *)
Lemma listing_stable h h' spine :
  spineInvariant h spine ->
  (forall r, ~ In r spine -> arrays h' r = arrays h r) ->
  forall fuel r depth, ~ In r spine -> listing fuel h' r depth = listing fuel h r depth.
Proof.
  intros [_ _ _ _ _ Hparent _] Hsame.
  induction fuel as [|fuel IH]; intros r depth Hr; [reflexivity|].
  cbn [listing]. rewrite (Hsame r Hr). apply flat_map_same. intros object Hin. f_equal.
  destruct (bodyOf object) as [b|] eqn:Hb; [|reflexivity].
  apply IH. intro Hspine.
  apply in_split in Hin as (pre & post & Harray).
  destruct (Hparent r pre object post b Harray Hb Hspine) as (_ & i & Hi & _).
  apply Hr. exact (nth_error_In _ _ Hi).
Qed.

Section Push.

(** A statement [object] is pushed to the top frame [r]; [h'] is the heap
    after the push. *)
Variables (h h' : Heap) (base : list ref) (r : ref) (object : StatementObject).
Hypothesis before : spineInvariant h (base ++ [r]).
Hypothesis pushed : arrays h' r = arrays h r ++ [object].
Hypothesis others : forall x, x <> r -> arrays h' x = arrays h x.
Hypothesis fresh : bodyOf object = None \/ bodyOf object = Some (next h).
Hypothesis grown : next h' = match bodyOf object with Some _ => S (next h) | None => next h end.

Lemma top_frame : nth_error (base ++ [r]) (length base) = Some r.
Proof. rewrite nth_error_app2, Nat.sub_diag by lia. reflexivity. Qed.

Lemma top_below : r < next h.
Proof.
  destruct before as [_ _ Hbound _ _ _ _]. rewrite Forall_forall in Hbound.
  apply Hbound. apply in_or_app. right. now left.
Qed.

Lemma others_stable fuel x depth :
  ~ In x (base ++ [r]) -> listing fuel h' x depth = listing fuel h x depth.
Proof.
  apply (listing_stable h h' (base ++ [r]) before).
  intros y Hy. apply others. intros ->. apply Hy. apply in_or_app. right. now left.
Qed.

Lemma pushed_listing fuel depth :
  (objectKind object, depth) ::
    match bodyOf object with Some b => listing fuel h' b (S depth) | None => [] end =
  [(objectKind object, depth)].
Proof.
  f_equal. destruct fresh as [-> | ->]; [reflexivity|].
  destruct fuel as [|fuel]; [reflexivity|]. cbn [listing].
  pose proof top_below. rewrite others by lia.
  destruct before as [_ _ _ Hempty _ _ _]. now rewrite Hempty by lia.
Qed.

Lemma grow k :
  forall i f,
    i + k = length base -> nth_error (base ++ [r]) i = Some f ->
    forall fuel,
      next h' <= fuel + f ->
      listing fuel h' f i = listing fuel h f i ++ [(objectKind object, length base)].
Proof.
  pose proof top_below as Htop. pose proof top_frame as Hframe.
  assert (Hnext : next h <= next h') by (rewrite grown; destruct (bodyOf object); lia).
  destruct before as [Hroot Hsorted Hbound Hempty Hbodies Hparent Hchild].
  induction k as [|k IH]; intros i f Hi Hf fuel Hfuel.
  - replace i with (length base) in * by lia. rewrite Hframe in Hf. injection Hf as <-.
    destruct fuel as [|fuel]; [lia|]. cbn [listing].
    rewrite pushed, flat_map_app. cbn [flat_map]. rewrite app_nil_r, pushed_listing.
    f_equal. apply flat_map_same. intros object' Hin. f_equal.
    destruct (bodyOf object') as [b|] eqn:Hb; [|reflexivity].
    apply others_stable. intro Hspine.
    apply in_split in Hin as (pre & post & Harray).
    destruct (Hparent r pre object' post b Harray Hb Hspine) as (_ & j & Hj & Hnextframe).
    pose proof (sorted_nth_injective _ _ _ _ Hsorted Hj Hframe) as ->.
    assert (Hlen : S (length base) < length (base ++ [r]))
      by (apply nth_error_Some; rewrite Hnextframe; discriminate).
    rewrite length_app in Hlen. simpl in Hlen. lia.
  - destruct (nth_error (base ++ [r]) (S i)) as [b|] eqn:Hb.
    2: { apply nth_error_None in Hb. rewrite length_app in Hb. simpl in Hb. lia. }
    destruct (Hchild i b Hb) as (f' & pre & last & Hf' & Harray & Hlast).
    rewrite Hf in Hf'. injection Hf' as <-.
    assert (Hne : f <> r).
    { intros ->. pose proof (sorted_nth_injective _ _ _ _ Hsorted Hf Hframe). lia. }
    assert (Hlt : f < b /\ b < next h).
    { apply (Hbodies f last b); [|exact Hlast]. rewrite Harray. apply in_or_app. right. now left. }
    destruct fuel as [|fuel]; [lia|]. cbn [listing].
    rewrite (others f Hne), Harray, !flat_map_app. cbn [flat_map].
    rewrite !app_nil_r, Hlast, (IH (S i) b ltac:(lia) Hb fuel ltac:(lia)).
    rewrite <- app_assoc. cbn [app]. f_equal.
    apply flat_map_same. intros object' Hin. f_equal.
    destruct (bodyOf object') as [b'|] eqn:Hb'; [|reflexivity].
    apply others_stable. intro Hspine.
    apply in_split in Hin as (pre1 & post1 & Hpre).
    destruct (Hparent f pre1 object' (post1 ++ [last]) b') as (Hpost & _); auto.
    + rewrite Harray, Hpre, <- app_assoc. reflexivity.
    + destruct post1; discriminate.
Qed.

Lemma old_frames i :
  i < length (base ++ [r]) ->
  forall new, nth_error ((base ++ [r]) ++ new) i = nth_error (base ++ [r]) i.
Proof. intros Hi new. now apply nth_error_app1. Qed.

Lemma after_push :
  spineInvariant h'
    ((base ++ [r]) ++ match bodyOf object with Some b => [b] | None => [] end).
Proof.
  pose proof top_below as Htop. pose proof top_frame as Hframe.
  assert (Hnext : next h <= next h') by (rewrite grown; destruct (bodyOf object); lia).
  assert (Hlen : length (base ++ [r]) = S (length base))
    by (rewrite length_app; simpl; lia).
  destruct before as [Hroot Hsorted Hbound Hempty Hbodies Hparent Hchild].
  assert (Hold : forall b, In b ((base ++ [r]) ++
                                  match bodyOf object with Some b => [b] | None => [] end) ->
                           b < next h -> In b (base ++ [r])).
  { intros b Hin Hb. apply in_app_or in Hin as [Hin | Hin]; [exact Hin|].
    destruct fresh as [Hnone | Hsome]; [rewrite Hnone in Hin; destruct Hin|].
    rewrite Hsome in Hin. destruct Hin as [<- | []]. lia. }
  constructor.
  - rewrite old_frames by lia. exact Hroot.
  - destruct (bodyOf object) as [b|] eqn:Hb; [|now rewrite app_nil_r].
    apply sorted_snoc; [exact Hsorted|].
    destruct fresh as [|[= ->]]; [discriminate | exact Hbound].
  - apply Forall_app. split.
    + eapply Forall_impl; [|exact Hbound]. simpl. intros. lia.
    + destruct fresh as [-> | Hsome]; [constructor|].
      rewrite grown, Hsome. constructor; [lia | constructor].
  - intros x Hx. rewrite others by lia. apply Hempty. lia.
  - intros x object' b Hin Hb.
    assert (Hwas : In object' (arrays h x) -> x < b /\ b < next h')
      by (intro Hwas; destruct (Hbodies x object' b Hwas Hb); lia).
    destruct (Nat.eq_dec x r) as [-> | Hne]; [|rewrite others in Hin by exact Hne; auto].
    rewrite pushed in Hin. apply in_app_or in Hin as [Hin | [<- | []]]; [auto|].
    destruct fresh as [Hnone | Hsome]; [congruence|].
    rewrite Hsome in Hb. injection Hb as <-. rewrite grown, Hsome. lia.
  - intros x pre object' post b Harray Hb Hin.
    assert (Hwas : arrays h x = pre ++ object' :: post ->
                   post = [] /\
                   exists i, nth_error (base ++ [r]) i = Some x /\
                             nth_error (base ++ [r]) (S i) = Some b).
    { intro Hwas. apply (Hparent x pre object' post b Hwas Hb). apply Hold; [exact Hin|].
      apply (Hbodies x object' b); [|exact Hb]. rewrite Hwas. apply in_elt. }
    destruct (Nat.eq_dec x r) as [-> | Hne].
    + rewrite pushed in Harray.
      destruct post as [|z post' _] using rev_ind.
      * apply app_inj_tail in Harray as [_ <-]. split; [reflexivity|].
        destruct fresh as [Hnone | Hsome]; [congruence|].
        rewrite Hsome in Hb. injection Hb as <-. exists (length base).
        rewrite old_frames by lia. split; [exact Hframe|].
        rewrite Hsome, nth_error_app2, Hlen, Nat.sub_diag by lia. reflexivity.
      * rewrite app_comm_cons, app_assoc in Harray.
        apply app_inj_tail in Harray as [Harray _].
        assert (Hin' : In b (base ++ [r])).
        { apply Hold; [exact Hin|]. apply (Hbodies r object' b); [|exact Hb].
          rewrite Harray. apply in_elt. }
        destruct (Hparent r pre object' post' b Harray Hb Hin') as (_ & i & Hi & Hb').
        pose proof (sorted_nth_injective _ _ _ _ Hsorted Hi Hframe) as ->.
        assert (S (length base) < length (base ++ [r]))
          by (apply nth_error_Some; rewrite Hb'; discriminate).
        lia.
    + rewrite others in Harray by exact Hne.
      destruct (Hwas Harray) as (Hpost & i & Hi & Hb'). split; [exact Hpost|].
      exists i.
      assert (S i < length (base ++ [r])) by (apply nth_error_Some; rewrite Hb'; discriminate).
      rewrite !old_frames by lia. auto.
  - intros i b Hb.
    destruct (Nat.lt_ge_cases (S i) (length (base ++ [r]))) as [Hlt | Hge].
    + rewrite old_frames in Hb by lia.
      destruct (Hchild i b Hb) as (x & pre & last & Hx & Harray & Hlast).
      exists x, pre, last. rewrite old_frames by lia.
      split; [exact Hx|]. split; [|exact Hlast].
      rewrite others; [exact Harray|].
      intros ->. pose proof (sorted_nth_injective _ _ _ _ Hsorted Hx Hframe). lia.
    + rewrite nth_error_app2 in Hb by lia.
      destruct fresh as [Hnone | Hsome]; [rewrite Hnone in Hb; destruct (S i - _); discriminate|].
      rewrite Hsome in Hb.
      destruct (S i - length (base ++ [r])) as [|n] eqn:Hdiff;
        [|destruct n; discriminate].
      injection Hb as <-. exists r, (arrays h r), object.
      replace i with (length base) by lia. rewrite old_frames by lia. auto.
Qed.

End Push.

Lemma listingInvariant_initial : listingInvariant [] initialState.
Proof.
  exists [0]. split; [reflexivity|]. split; [|reflexivity].
  constructor; simpl.
  - reflexivity.
  - repeat constructor.
  - repeat constructor.
  - intros r _. now destruct (r =? 0).
  - intros r object b Hin. destruct (r =? 0); destruct Hin.
  - intros r pre object post b Harray. destruct (r =? 0); destruct pre; discriminate.
  - intros [|i] b; discriminate.
Qed.

Lemma listingInvariant_step done ps lt ps' :
  listingInvariant done ps -> parseLine ps lt = Ok ps' ->
  exists kind,
    lineKind lt = Some kind /\ listingInvariant (done ++ [(kind, indent lt)]) ps'.
Proof.
  intros (spine & Hstack & Hinv & Hlisting) Hline.
  destruct (parseLine_kind _ _ _ Hline) as (object & r & Hkind & Hframe & Hcases).
  exists (objectKind object). split; [exact Hkind|].
  rewrite Hstack in *.
  apply frame_setLength in Hframe as (_ & Hlen & Hframe).
  rewrite length_map in Hlen.
  assert (Hnth : nth_error spine (indent lt) = Some r).
  { unfold frame in Hframe. rewrite nth_error_map in Hframe.
    destruct (nth_error spine (indent lt)); [|discriminate]. simpl in Hframe. congruence. }
  assert (Hresized : setLength (indent lt + 1) (map Some spine) =
                     map Some (firstn (indent lt + 1) spine)).
  { unfold setLength. rewrite length_map.
    replace (indent lt + 1 - length spine) with 0 by lia.
    simpl. rewrite app_nil_r. apply firstn_map. }
  rewrite Hresized in Hcases.
  apply (spineInvariant_firstn (heap ps) spine (indent lt + 1)) in Hinv; [|lia].
  destruct (nth_error_split _ _ Hnth) as (base & rest & Hsplit & Hbase).
  assert (Htop : firstn (indent lt + 1) spine = base ++ [r]).
  { rewrite Hsplit, <- Hbase, firstn_app, firstn_all2 by lia.
    replace (length base + 1 - length base) with 1 by lia. reflexivity. }
  rewrite Htop in *.
  assert (Hroot : nth_error (base ++ [r]) 0 = Some 0) by now destruct Hinv.
  assert (Hfuel : forall fuel, next (heap ps) <= fuel ->
                               listing fuel (heap ps) 0 0 = done).
  { intros fuel Hfuel. rewrite <- Hlisting. destruct Hinv as [_ _ _ Hempty Hbodies _ _].
    apply (listing_fuel (heap ps) Hempty Hbodies); lia. }
  destruct Hcases as [(Hbody & Hheap & Hstatements) | (Hbody & Hheap & Hstatements)].
  - assert (Hpushed : arrays (heap ps') r = arrays (heap ps) r ++ [object])
      by (rewrite Hheap; simpl; now rewrite Nat.eqb_refl).
    assert (Hothers : forall x, x <> r -> arrays (heap ps') x = arrays (heap ps) x).
    { intros x Hx. rewrite Hheap. simpl. now destruct (Nat.eqb_spec x r). }
    assert (Hgrown : next (heap ps') =
                     match bodyOf object with Some _ => S (next (heap ps)) | None => next (heap ps) end)
      by (rewrite Hheap, Hbody; reflexivity).
    exists (base ++ [r]). split; [exact Hstatements|]. split.
    + pose proof (after_push (heap ps) (heap ps') base r object Hinv Hpushed Hothers
                    (or_introl Hbody) Hgrown) as Hafter.
      rewrite Hbody, app_nil_r in Hafter. exact Hafter.
    + rewrite (grow (heap ps) (heap ps') base r object Hinv Hpushed Hothers
                 (or_introl Hbody) Hgrown (length base) 0 0 eq_refl Hroot) by lia.
      rewrite Hfuel, Hbase; [reflexivity|]. rewrite Hgrown, Hbody. lia.
  - assert (Hbelow : r < next (heap ps)).
    { destruct Hinv as [_ _ Hbound _ _ _ _]. rewrite Forall_forall in Hbound.
      apply Hbound. apply in_or_app. right. now left. }
    assert (Hpushed : arrays (heap ps') r = arrays (heap ps) r ++ [object]).
    { rewrite Hheap. simpl. rewrite Nat.eqb_refl.
      now destruct (Nat.eqb_spec r (next (heap ps))) as [|_]; [lia|]. }
    assert (Hothers : forall x, x <> r -> arrays (heap ps') x = arrays (heap ps) x).
    { intros x Hx. rewrite Hheap. simpl. destruct (Nat.eqb_spec x r); [contradiction|].
      destruct (Nat.eqb_spec x (next (heap ps))) as [-> |]; [|reflexivity].
      destruct Hinv as [_ _ _ Hempty _ _ _]. now rewrite Hempty. }
    assert (Hgrown : next (heap ps') =
                     match bodyOf object with Some _ => S (next (heap ps)) | None => next (heap ps) end)
      by (rewrite Hheap, Hbody; reflexivity).
    exists ((base ++ [r]) ++ [next (heap ps)]). split; [|split].
    + rewrite Hstatements, !map_app. reflexivity.
    + pose proof (after_push (heap ps) (heap ps') base r object Hinv Hpushed Hothers
                    (or_intror Hbody) Hgrown) as Hafter.
      rewrite Hbody in Hafter. exact Hafter.
    + rewrite (grow (heap ps) (heap ps') base r object Hinv Hpushed Hothers
                 (or_intror Hbody) Hgrown (length base) 0 0 eq_refl Hroot) by lia.
      rewrite Hfuel, Hbase; [reflexivity|]. rewrite Hgrown, Hbody. lia.
Qed.

Lemma listingInvariant_lines lines :
  forall done ps ps',
    listingInvariant done ps -> parseLines ps lines = Ok ps' ->
    exists entries,
      map someKind entries = map lineEntry lines /\ listingInvariant (done ++ entries) ps'.
Proof.
  induction lines as [|lt more IH]; intros done ps ps' Hinv H; simpl in H.
  - injection H as <-. exists []. rewrite app_nil_r. auto.
  - apply bind_ok in H as (ps1 & Hline & H).
    destruct (listingInvariant_step _ _ _ _ Hinv Hline) as (kind & Hkind & Hinv1).
    destruct (IH _ _ _ Hinv1 H) as (entries & Hentries & Hinv').
    exists ((kind, indent lt) :: entries). simpl. unfold lineEntry at 1, someKind at 1.
    rewrite Hkind, Hentries, <- app_assoc in *. auto.
Qed.

(** X23: a Program that [parse] returns holds one statement for each line
    it was given, and its statements, a statement read before the
    statements of its body and the statements of a body in their order,
    follow the lines in their order: the statement of a line is of the kind
    that the line asks for, and it is nested in as many blocks as the
    indent of the line. *)
Theorem statements_follow_the_lines lineTokens program :
  parse lineTokens = Ok program ->
  map someKind (flat_map (preorder 0) (program_body program)) = map lineEntry lineTokens.
Proof.
  intro H. apply parse_ok in H as (ps & Hlines & ->). simpl.
  destruct (listingInvariant_lines _ _ _ _ listingInvariant_initial Hlines)
    as (entries & Hentries & spine & _ & _ & Hlisting).
  rewrite listing_read, Hlisting. exact Hentries.
Qed.

Lemma statements_follow_the_lines_witness :
  map someKind (flat_map (preorder 0) (program_body sampleProgram)) =
  map lineEntry sampleLines.
Proof.
  apply (statements_follow_the_lines sampleLines sampleProgram). reflexivity.
Defined.

(** ** Prefix operators in a row *)

(** X24: of two prefix operators in a row the first is dropped: when the
    first token is the operator [+] or [-] and the second token is an
    operator too, [parseExpression] returns or throws what it returns or
    throws without the first token, whatever state it is entered with
    short of a left operand. *)
Theorem first_of_two_prefix_operators_is_dropped c first second rest operator state :
  type first = OperatorToken operator ->
  (operator === lit "+") || (operator === lit "-") = true ->
  (exists operator', type second = OperatorToken operator') ->
  expectsOperand state ->
  parseExpression c (first :: second :: rest) state =
  parseExpression c (second :: rest) state.
Proof.
  intros Hfirst Hsign (operator' & Hsecond) Hstate.
  rewrite (parseExpression_unfold c (first :: second :: rest)).
  rewrite (parseExpression_unfold c (second :: rest) state).
  unfold parseExpressionBody at 1. rewrite Hfirst.
  apply orb_true_iff in Hsign.
  assert (Hcheck : negb (operator === lit "+") && negb (operator === lit "-") = false)
    by (destruct Hsign as [-> | ->]; [reflexivity | apply andb_false_r]).
  change (sliceFrom (first :: second :: rest) 1) with (second :: rest).
  assert (Hdrop : parseExpression c (second :: rest) (Some (unary operator)) =
                  parseExpressionBody (parseExpression c) c (second :: rest) state).
  { rewrite parseExpression_unfold. unfold parseExpressionBody. rewrite Hsecond.
    destruct state as [[lhs | previous]|]; [contradiction | reflexivity | reflexivity]. }
  destruct state as [[lhs | previous]|]; [contradiction | |]; rewrite Hcheck; exact Hdrop.
Qed.

Lemma first_of_two_prefix_operators_is_dropped_witness :
  parseExpression 1
    (mkToken (OperatorToken (lit "-")) 1 :: mkToken (OperatorToken (lit "+")) 3 ::
       [mkToken (NumericLiteralToken (lit "1")) 5]) None =
  parseExpression 1
    (mkToken (OperatorToken (lit "+")) 3 :: [mkToken (NumericLiteralToken (lit "1")) 5]) None.
Proof.
  apply (first_of_two_prefix_operators_is_dropped 1
           (mkToken (OperatorToken (lit "-")) 1) (mkToken (OperatorToken (lit "+")) 3)
           [mkToken (NumericLiteralToken (lit "1")) 5] (lit "-") None).
  - reflexivity.
  - reflexivity.
  - exists (lit "+"). reflexivity.
  - exact I.
Defined.

(** ** What follows the parameters of a [def] *)

Lemma scanList_stops offset tokens more entries :
  forall count start slices index result k,
    length tokens = index + offset + length entries ->
    scanList offset tokens count start slices index entries = (result, Some k) ->
    scanList offset (tokens ++ more) count start slices index (entries ++ more) =
    (result, Some k).
Proof.
  induction entries as [|t rest IH]; intros count start slices index result k Hlen;
    [discriminate|].
  simpl in Hlen. cbn [scanList app].
  rewrite !(sliceN_app_prefix tokens more) by lia.
  destruct (type t); try (apply IH; lia).
  - destruct (count =? 1)%Z; apply IH; lia.
  - destruct (count - 1 =? 0)%Z; [auto | apply IH; lia].
Qed.

(** [parseLine] does not read [lastLineToken]. *)
Lemma parseLine_sameButLast ps ps' lt :
  sameButLast ps ps' -> parseLine ps lt = parseLine ps' lt.
Proof.
  destruct ps, ps'. intros (Hheap & Hstatements & Hmin & Hmax & _).
  simpl in *. subst. reflexivity.
Qed.

Lemma finish_sameButLast ps ps' : sameButLast ps ps' -> finish ps = finish ps'.
Proof.
  destruct ps as [h st mi ma last], ps' as [h' st' mi' ma' last'].
  intros (Hheap & Hstatements & Hmin & Hmax & Hlast). simpl in *. subst.
  unfold finish. simpl. destruct mi'; [|reflexivity].
  destruct last, last'; simpl in Hlast; try discriminate; try reflexivity.
  now injection Hlast as ->.
Qed.

Lemma parseLines_sameButLast lines ps ps' :
  sameButLast ps ps' ->
  bind (parseLines ps lines) finish = bind (parseLines ps' lines) finish.
Proof.
  intro Hsame. destruct lines as [|lt more]; simpl.
  - now apply finish_sameButLast.
  - now rewrite (parseLine_sameButLast ps ps' lt Hsame).
Qed.

Lemma def_line_followed ps lt more first slices k :
  hd_error (tokens lt) = Some first -> type first = DefToken ->
  scanList 2 (tokens lt) 0 0 [] 0 (sliceFrom (tokens lt) 2) = (slices, Some k) ->
  match parseLine ps (followedBy more lt), parseLine ps lt with
  | Ok ps1', Ok ps1 => sameButLast ps1' ps1
  | Throw e', Throw e => e' = e
  | _, _ => False
  end.
Proof.
  intros Hfirst Htype Hscan. unfold parseLine, followedBy. cbn [column indent tokens].
  destruct (_ || _); [reflexivity|].
  destruct (tokens lt) as [|t0 [|t1 [|t2 rest]]] eqn:Htokens; try discriminate.
  injection Hfirst as ->. cbn [app]. rewrite Htype.
  destruct (negb (indent lt =? 0)); [reflexivity|].
  cbn [nth_error].
  destruct (type t1); try reflexivity.
  destruct (parseExpression (column lt) [t1] None) as [identifier | e]; [|reflexivity].
  cbn [bind]. destruct (type t2); try reflexivity.
  change (sliceFrom (first :: t1 :: t2 :: rest ++ more) 2) with ((t2 :: rest) ++ more).
  change (first :: t1 :: t2 :: rest ++ more) with ((first :: t1 :: t2 :: rest) ++ more).
  rewrite (scanList_stops 2 (first :: t1 :: t2 :: rest) more (t2 :: rest)
             0 0 [] 0 slices k eq_refl Hscan), Hscan.
  destruct (mapM _ slices) as [params | e]; [|reflexivity]. cbn [bind].
  destruct (existsb _ params); [reflexivity|].
  unfold pushTo, alloc.
  destruct (frame _ 0); [|reflexivity].
  cbn [bind]. repeat split.
Qed.

(** X25: nothing is read after the parenthesis that closes the parameters
    of a [def]: [parse] returns or throws the same whatever tokens stand
    there. *)
Theorem tokens_after_def_parameters_are_ignored earlier lt later more first slices k :
  hd_error (tokens lt) = Some first -> type first = DefToken ->
  scanList 2 (tokens lt) 0 0 [] 0 (sliceFrom (tokens lt) 2) = (slices, Some k) ->
  parse (earlier ++ followedBy more lt :: later) = parse (earlier ++ lt :: later).
Proof.
  intros Hfirst Htype Hscan. unfold parse. rewrite !parseLines_app.
  destruct (parseLines initialState earlier) as [ps | e]; [|reflexivity].
  cbn [bind parseLines].
  pose proof (def_line_followed ps lt more first slices k Hfirst Htype Hscan) as Hline.
  destruct (parseLine ps (followedBy more lt)) as [ps1' | e'],
           (parseLine ps lt) as [ps1 | e]; try contradiction.
  - cbn [bind]. now apply parseLines_sameButLast.
  - now subst.
Qed.

Lemma tokens_after_def_parameters_are_ignored_witness :
  parse ([] ++ followedBy [mkToken AssignmentToken 10; mkToken IfToken 13] sampleDef
            :: [mkLineToken 2 1 [mkToken (IdentifierToken (lit "a")) 3;
                                 mkToken AssignmentToken 5;
                                 mkToken (NumericLiteralToken (lit "1")) 8]]) =
  parse ([] ++ sampleDef
            :: [mkLineToken 2 1 [mkToken (IdentifierToken (lit "a")) 3;
                                 mkToken AssignmentToken 5;
                                 mkToken (NumericLiteralToken (lit "1")) 8]]).
Proof.
  apply (tokens_after_def_parameters_are_ignored [] sampleDef _ _ (mkToken DefToken 1)
           [[mkToken (IdentifierToken (lit "a")) 7]] 4); reflexivity.
Defined.

(** ** Inside a block comment *)

Lemma slice_In {A : Type} (x : A) (l : list A) (from to : Z) :
  In x (slice l from to) -> In x l.
Proof.
  unfold slice. cbv zeta. intro H.
  apply In_firstn in H. rewrite <- (firstn_skipn (Z.to_nat
    (if (from <? 0)%Z then Z.max (Z.of_nat (length l) + from) 0
     else Z.min from (Z.of_nat (length l)))) l).
  apply in_or_app. now right.
Qed.

(** In a comment, a turn on a text that holds no [/] changes nothing. *)
Lemma comment_turn c text s r codePoint :
  0 < multiLineCommentCount s -> ~ In 47%N text ->
  scanCodePoint c text s r codePoint = Ok (ContinueLoop s).
Proof.
  intros Hcount Hslash. unfold scanCodePoint.
  destruct (Nat.ltb_spec 0 (multiLineCommentCount s)) as [_|]; [|lia].
  assert (Hno : forall operator,
             In 47%N operator ->
             (slice text (Z.of_nat r - 1) (Z.of_nat r + 1) === operator) = false).
  { intros operator Hin.
    destruct (slice text (Z.of_nat r - 1) (Z.of_nat r + 1) === operator) eqn:Heq;
      [|reflexivity].
    apply str_eqb_eq in Heq. exfalso. apply Hslash.
    apply (slice_In _ _ (Z.of_nat r - 1) (Z.of_nat r + 1)). now rewrite Heq. }
  rewrite !Hno; [reflexivity | right; now left | now left].
Qed.

(** X26: a line read inside a block comment that holds no [/] gives no
    token and changes nothing: the code-point loop ends with the variables
    it started with, the count of open comments among them. *)
Theorem comment_body_is_skipped c text s :
  0 < multiLineCommentCount s -> ~ In 47%N text ->
  scanLine c text s (iterateCodePoint text) = Ok s.
Proof.
  intros Hcount Hslash.
  assert (Hstep : forall r codePoint s1 flow,
             s1 = s -> yielded text r codePoint ->
             scanCodePoint c text s1 r codePoint = Ok flow ->
             scanOf flow = s).
  { intros r codePoint s1 flow -> _ Hturn.
    rewrite (comment_turn c text s r codePoint Hcount Hslash) in Hturn.
    now injection Hturn as <-. }
  destruct (scanLine c text s (iterateCodePoint text)) as [s' | e] eqn:Hscan.
  - destruct (scanLine_rule c text (fun _ s1 => s1 = s) Hstep s s' eq_refl Hscan)
      as (_ & ->).
    reflexivity.
  - destruct (scanLine_throws c text (fun _ s1 => s1 = s) Hstep s e eq_refl Hscan)
      as (r & codePoint & s1 & -> & _ & Hturn).
    rewrite (comment_turn c text s r codePoint Hcount Hslash) in Hturn. discriminate.
Qed.

Lemma comment_body_is_skipped_witness :
  scanLine 3 (lit "x -> 1 # if") (mkScan [] None 0 2)
    (iterateCodePoint (lit "x -> 1 # if")) =
  Ok (mkScan [] None 0 2).
Proof.
  apply (comment_body_is_skipped 3 (lit "x -> 1 # if") (mkScan [] None 0 2)).
  - simpl. lia.
  - simpl. intuition discriminate.
Defined.

(** ** Declarations cut short *)

(** X27: at the root, a [const] or [def] line that stops after the keyword,
    or after the identifier that follows it, makes [parse] throw a
    TypeError wherever it stands after lines that [parse] accepts: the
    token that is missing is read as [undefined]. *)
Theorem truncated_declaration_is_a_type_error earlier program lt later :
  parse earlier = Ok program ->
  indent lt = 0 ->
  truncatedDeclaration lt ->
  parse (earlier ++ lt :: later) = Throw TypeError.
Proof.
  intros H Hroot Hcut. unfold parse in *. rewrite parseLines_app.
  apply bind_ok in H as (ps & Hlines & Hfinish). rewrite Hlines. cbn [bind parseLines].
  pose proof (@parseInvariant_lines earlier _ _ parseInvariant_initial Hlines) as Hinv.
  assert (Hmin : minIndent ps = None).
  { unfold finish in Hfinish. destruct (minIndent ps) as [m|] eqn:Hmin; [|reflexivity].
    destruct (@inv_min ps Hinv m Hmin) as (_ & _ & _ & Hlast).
    destruct (lastLineToken ps); [discriminate | congruence]. }
  assert (Hline : parseLine ps lt = Throw TypeError); [|now rewrite Hline].
  unfold parseLine. rewrite Hmin, Hroot.
  replace (match maxIndent ps with Some m => m <? 0 | None => false end) with false
    by (destruct (maxIndent ps); reflexivity).
  cbn [orb]. unfold truncatedDeclaration, isDeclarationWord in Hcut.
  destruct (tokens lt) as [|keyword [|name [|]]]; try contradiction.
  - destruct (type keyword); try discriminate; reflexivity.
  - destruct Hcut as (Hkeyword & value & Hname).
    assert (Hidentifier : parseExpression (column lt) [name] None = Ok (Identifier value)).
    { rewrite parseExpression_unfold. unfold parseExpressionBody. now rewrite Hname. }
    destruct (type keyword); try discriminate; cbn [Nat.eqb negb nth_error];
      rewrite Hname, Hidentifier; reflexivity.
Qed.

Lemma truncated_declaration_is_a_type_error_witness :
  parse (sampleLines ++
           mkLineToken 4 0 [mkToken DefToken 1; mkToken (IdentifierToken (lit "f")) 5] :: []) =
  Throw TypeError.
Proof.
  apply (truncated_declaration_is_a_type_error sampleLines sampleProgram
           (mkLineToken 4 0 [mkToken DefToken 1; mkToken (IdentifierToken (lit "f")) 5]) []).
  - reflexivity.
  - reflexivity.
  - split; [reflexivity | exists (lit "f"); reflexivity].
Defined.

(** ** Every token of an expression is read *)

Lemma nth_error_slice {A : Type} (l : list A) (n : nat) (x : A) :
  sliceN l n (n + 1) = [x] -> nth_error l n = Some x.
Proof.
  unfold sliceN. replace (n + 1 - n) with 1 by lia. intro H.
  rewrite <- (Nat.add_0_r n), <- nth_error_skipn.
  destruct (skipn n l); [discriminate|]. simpl in H. simpl. congruence.
Qed.

Lemma scanList_closing offset tokens entries :
  forall count start slices index arguments k,
    skipn (index + offset) tokens = entries ->
    (index = 0 /\ count = 0%Z) \/ 1 <= index ->
    scanList offset tokens count start slices index entries = (arguments, Some k) ->
    offset + 1 <= k /\ exists t, nth_error tokens k = Some t /\ isParentheseEnd t = true.
Proof.
  induction entries as [|t more IH]; intros count start slices index arguments k Hskip Hindex;
    [discriminate|].
  destruct (@skipn_head _ _ _ _ _ Hskip) as [Ht Hmore].
  replace (index + offset + 1) with (S index + offset) in Hmore by lia.
  cbn [scanList].
  destruct (type t) eqn:Htype; try (apply (IH _ _ _ _ _ _ Hmore); lia).
  - destruct (count =? 1)%Z; apply (IH _ _ _ _ _ _ Hmore); lia.
  - destruct (Z.eqb_spec (count - 1) 0) as [Hzero | _]; [|apply (IH _ _ _ _ _ _ Hmore); lia].
    intros [= _ <-]. split; [lia|]. exists t. split; [now apply nth_error_slice|].
    unfold isParentheseEnd. now rewrite Htype.
Qed.

(** [tokens] cut at [a] and at the token at [b]. *)
Lemma forallb_cut (p : Token -> bool) (tokens : list Token) (a b : nat) (t : Token) :
  a <= b -> nth_error tokens b = Some t ->
  forallb p (firstn a tokens) = true -> forallb p (sliceN tokens a b) = true ->
  p t = true -> forallb p (skipn (b + 1) tokens) = true ->
  forallb p tokens = true.
Proof.
  intros Hab Hb Hhead Hslice Ht Hrest.
  rewrite <- (firstn_skipn a tokens), forallb_app, Hhead. simpl.
  rewrite <- (firstn_skipn (b - a) (skipn a tokens)), forallb_app.
  fold (sliceN tokens a b). rewrite Hslice. simpl.
  rewrite skipn_skipn. replace (b - a + a) with b by lia.
  destruct (nth_error_split _ _ Hb) as (l1 & l2 & Heq & Hlen).
  assert (Hskip : skipn b tokens = t :: skipn (b + 1) tokens).
  { clear - Heq Hlen. subst tokens b. rewrite !skipn_app.
    replace (length l1 + 1 - length l1) with 1 by lia.
    rewrite Nat.sub_diag, skipn_all, (skipn_all2 l1 (n := length l1 + 1)) by lia.
    reflexivity. }
  rewrite Hskip. simpl. now rewrite Ht, Hrest.
Qed.

Lemma withSeparators_allowed groups :
  Forall (fun g => isSeparator (snd g) = true) groups ->
  forallb (forallb allowedInExpression) (map fst groups) = true ->
  forallb allowedInExpression (withSeparators groups) = true.
Proof.
  induction 1 as [|[slice separator] groups Hsep _ IH]; [reflexivity|].
  simpl. intro H. apply andb_true_iff in H as [Hslice Hrest].
  rewrite !forallb_app, Hslice, (IH Hrest). simpl.
  unfold isSeparator in Hsep. unfold allowedInExpression. simpl in Hsep.
  destruct (type separator); try discriminate. reflexivity.
Qed.

Lemma mapM_all {A B : Type} (f : A -> result B) (xs : list A) (ys : list B) :
  mapM f xs = Ok ys -> Forall (fun x => exists y, f x = Ok y) xs.
Proof.
  revert ys. induction xs as [|x xs IH]; intros ys H; [constructor|].
  simpl in H. apply bind_ok in H as (y & Hy & H). apply bind_ok in H as (ys' & Hys & _).
  constructor; [eauto | exact (IH _ Hys)].
Qed.

Section Read.

Variable recur : list Token -> option ExpressionState -> result Expression.
Variable column : nat.
Hypothesis recur_read :
  forall tokens state e,
    recur tokens state = Ok e -> forallb allowedInExpression tokens = true.

Lemma continueWith_read expression remains e :
  continueWith recur expression remains = Ok e ->
  forallb allowedInExpression remains = true.
Proof.
  destruct remains as [|t remains]; [reflexivity|]. simpl. apply recur_read.
Qed.

Lemma parseMember_read tokens state target bracketRow e :
  forallb allowedInExpression (firstn 2 tokens) = true ->
  parseMember recur column tokens state target bracketRow = Ok e ->
  forallb allowedInExpression tokens = true.
Proof.
  intros Hhead. unfold parseMember.
  destruct (scanBracket 0 0 (sliceFrom tokens 1)) as [k|] eqn:Hscan; [|discriminate].
  apply scanBracket_closes in Hscan as (j & -> & (closing & Hclosing & Hend) & _).
  simpl. unfold sliceFrom in Hclosing. rewrite nth_error_skipn in Hclosing.
  replace (1 + j) with (j + 1) in Hclosing by lia.
  destruct (sliceN tokens 2 (j + 1)) as [|t0 property] eqn:Hproperty; [discriminate|].
  intro H. apply bind_ok in H as (p & Hp & H).
  apply recur_read in Hp. apply continueWith_read in H.
  assert (Hj : 2 <= j + 1).
  { destruct j as [|j]; [|lia]. unfold sliceN in Hproperty. simpl in Hproperty.
    discriminate. }
  apply (forallb_cut allowedInExpression tokens 2 (j + 1) closing Hj Hclosing Hhead).
  - now rewrite Hproperty.
  - unfold isBracketEnd in Hend. unfold allowedInExpression.
    destruct (type closing); try discriminate; reflexivity.
  - exact H.
Qed.

Lemma call_read tokens token token1 rest' argumentTokens k state callee e :
  tokens = token :: token1 :: rest' ->
  allowedInExpression token = true -> type token1 = ParentheseStartToken ->
  scanList 1 tokens 0 0 [] 0 (token1 :: rest') = (argumentTokens, Some k) ->
  (arguments <- mapM (fun tokens => recur tokens None) argumentTokens ;;
   continueWith recur (wrapUnary state (CallExpression callee arguments))
     (sliceFrom tokens (k + 1))) = Ok e ->
  forallb allowedInExpression tokens = true.
Proof.
  intros Htokens Htoken Htype1 Hscan H.
  apply bind_ok in H as (arguments & Hargs & H).
  apply continueWith_read in H. apply mapM_all in Hargs.
  assert (Hslices : forall slice, In slice argumentTokens ->
                                  forallb allowedInExpression slice = true).
  { intros slice Hin. rewrite Forall_forall in Hargs.
    destruct (Hargs slice Hin) as (y & Hy). exact (recur_read _ _ _ Hy). }
  assert (Hskip : skipn (0 + 1) tokens = token1 :: rest') by now rewrite Htokens.
  destruct (scanList_closing 1 tokens (token1 :: rest') 0 0 [] 0 argumentTokens k Hskip
              (or_introl (conj eq_refl eq_refl)) Hscan)
    as (Hk & closing & Hclosing & Hend).
  destruct (scanList_joins 1 tokens (token1 :: rest') 0 0 [] 0 argumentTokens k [] Hskip
              (or_introl (conj eq_refl (conj eq_refl eq_refl))) (Forall_nil _) eq_refl
              ltac:(rewrite Htokens; reflexivity) Hscan)
    as (groups & last & Hsep & Hmiddle & Harguments).
  apply (forallb_cut allowedInExpression tokens 2 k closing Hk Hclosing).
  - rewrite Htokens. simpl. rewrite Htoken. unfold allowedInExpression. now rewrite Htype1.
  - change (1 + 1) with 2 in Hmiddle. rewrite Hmiddle, forallb_app.
    apply andb_true_iff. split.
    + apply (withSeparators_allowed groups Hsep). apply forallb_forall.
      intros slice Hin. apply Hslices. rewrite Harguments. apply in_or_app. now left.
    + destruct last as [|t0 last'] eqn:Hlast; [reflexivity|].
      apply Hslices. rewrite Harguments. apply in_or_app. right. now left.
  - unfold isParentheseEnd in Hend. unfold allowedInExpression.
    destruct (type closing); try discriminate; reflexivity.
  - exact H.
Qed.

Lemma parseExpressionBody_read tokens state e :
  parseExpressionBody recur column tokens state = Ok e ->
  forallb allowedInExpression tokens = true.
Proof.
  unfold parseExpressionBody.
  destruct tokens as [|token rest] eqn:Htokens; [discriminate|].
  change (sliceFrom (token :: rest) 1) with rest.
  assert (Hrest : forall state' e',
             allowedInExpression token = true ->
             recur rest state' = Ok e' ->
             forallb allowedInExpression (token :: rest) = true).
  { intros state' e' Htoken H. simpl. now rewrite Htoken, (recur_read _ _ _ H). }
  rewrite <- Htokens.
  destruct (type token) eqn:Htype; try discriminate.
  all: assert (Htoken : allowedInExpression token = true)
    by (unfold allowedInExpression; now rewrite Htype).
  all: destruct state as [[lhs | operator]|]; try discriminate.
  all: intro H.
  all: try (apply bind_ok in H as (rhs & Hrhs & H); rewrite Htokens;
            exact (Hrest _ _ Htoken Hrhs)).
  - (* an identifier, after a prefix operator *)
    destruct rest as [|token1 rest'] eqn:Hrest'.
    { rewrite Htokens. simpl. now rewrite Htoken. }
    destruct (type token1) eqn:Htype1;
      try (rewrite Htokens; exact (Hrest _ _ Htoken H)).
    + destruct (scanList 1 tokens 0 0 [] 0 (token1 :: rest')) as [argumentTokens [k|]]
        eqn:Hscan; [|discriminate].
      exact (call_read _ _ _ _ _ _ _ _ _ Htokens Htoken Htype1 Hscan H).
    + apply parseMember_read in H; [exact H|].
      rewrite Htokens. simpl. rewrite Htoken. unfold allowedInExpression. now rewrite Htype1.
  - (* an identifier *)
    destruct rest as [|token1 rest'] eqn:Hrest'.
    { rewrite Htokens. simpl. now rewrite Htoken. }
    destruct (type token1) eqn:Htype1;
      try (rewrite Htokens; exact (Hrest _ _ Htoken H)).
    + destruct (scanList 1 tokens 0 0 [] 0 (token1 :: rest')) as [argumentTokens [k|]]
        eqn:Hscan; [|discriminate].
      exact (call_read _ _ _ _ _ _ _ _ _ Htokens Htoken Htype1 Hscan H).
    + apply parseMember_read in H; [exact H|].
      rewrite Htokens. simpl. rewrite Htoken. unfold allowedInExpression. now rewrite Htype1.
  - (* [memory], after a prefix operator *)
    destruct rest as [|token1 rest'] eqn:Hrest'; [discriminate|].
    destruct (isBracketStart token1) eqn:Hbracket; [|discriminate].
    apply parseMember_read in H; [exact H|].
    rewrite Htokens. simpl. rewrite Htoken. unfold allowedInExpression.
    unfold isBracketStart in Hbracket. destruct (type token1); try discriminate; reflexivity.
  - (* [memory] *)
    destruct rest as [|token1 rest'] eqn:Hrest'; [discriminate|].
    destruct (isBracketStart token1) eqn:Hbracket; [|discriminate].
    apply parseMember_read in H; [exact H|].
    rewrite Htokens. simpl. rewrite Htoken. unfold allowedInExpression.
    unfold isBracketStart in Hbracket. destruct (type token1); try discriminate; reflexivity.
  - (* a literal, after a prefix operator *)
    destruct (parseInt10 value) as [raw|]; [|discriminate].
    match type of H with
    | (if ?b then _ else _) = _ => destruct b; [discriminate|]
    end.
    apply continueWith_read in H. rewrite Htokens. simpl. now rewrite Htoken, H.
  - (* a literal *)
    destruct (parseInt10 value) as [raw|]; [|discriminate].
    match type of H with
    | (if ?b then _ else _) = _ => destruct b; [discriminate|]
    end.
    apply continueWith_read in H. rewrite Htokens. simpl. now rewrite Htoken, H.
  - (* a prefix operator, after a prefix operator *)
    match type of H with
    | (if ?b then _ else _) = _ => destruct b; [discriminate|]
    end.
    rewrite Htokens. exact (Hrest _ _ Htoken H).
  - (* a prefix operator *)
    match type of H with
    | (if ?b then _ else _) = _ => destruct b; [discriminate|]
    end.
    rewrite Htokens. exact (Hrest _ _ Htoken H).
  - (* a parenthesis, after a prefix operator *)
    destruct (scanParenthese 0 0 tokens) as [k|] eqn:Hscan; [|discriminate].
    apply scanParenthese_closes in Hscan as (j & -> & (closing & Hclosing & Hend) & _).
    simpl in H, Hclosing.
    destruct (sliceN tokens 1 j) as [|t0 inner] eqn:Hinner; [discriminate|].
    apply bind_ok in H as (p & Hp & H). apply recur_read in Hp.
    assert (Hj : 1 <= j).
    { destruct j; [|lia]. unfold sliceN in Hinner. simpl in Hinner. discriminate. }
    apply (forallb_cut allowedInExpression tokens 1 j closing Hj Hclosing).
    + rewrite Htokens. simpl. now rewrite Htoken.
    + now rewrite Hinner.
    + unfold isParentheseEnd in Hend. unfold allowedInExpression.
      destruct (type closing); try discriminate; reflexivity.
    + destruct (Nat.eqb_spec j (length tokens - 1)) as [Hlast | _].
      * rewrite skipn_all2 by lia. reflexivity.
      * exact (recur_read _ _ _ H).
  - (* a parenthesis *)
    destruct (scanParenthese 0 0 tokens) as [k|] eqn:Hscan; [|discriminate].
    apply scanParenthese_closes in Hscan as (j & -> & (closing & Hclosing & Hend) & _).
    simpl in H, Hclosing.
    destruct (sliceN tokens 1 j) as [|t0 inner] eqn:Hinner; [discriminate|].
    apply bind_ok in H as (p & Hp & H). apply recur_read in Hp.
    assert (Hj : 1 <= j).
    { destruct j; [|lia]. unfold sliceN in Hinner. simpl in Hinner. discriminate. }
    apply (forallb_cut allowedInExpression tokens 1 j closing Hj Hclosing).
    + rewrite Htokens. simpl. now rewrite Htoken.
    + now rewrite Hinner.
    + unfold isParentheseEnd in Hend. unfold allowedInExpression.
      destruct (type closing); try discriminate; reflexivity.
    + destruct (Nat.eqb_spec j (length tokens - 1)) as [Hlast | _].
      * rewrite skipn_all2 by lia. reflexivity.
      * exact (recur_read _ _ _ H).
Qed.

End Read.

Lemma parseExpressionFuel_read fuel :
  forall column tokens state e,
    parseExpressionFuel fuel column tokens state = Ok e ->
    forallb allowedInExpression tokens = true.
Proof.
  induction fuel as [|fuel IH]; intros column tokens state e; simpl; [discriminate|].
  apply parseExpressionBody_read. apply IH.
Qed.

(** X28: the test that keeps [if], [while], [def], [const] and [->] out of
    an expression reaches every token: no token is skipped, and the tokens
    of which [parseExpression] returns an expression hold none of them. *)
Theorem accepted_expression_holds_no_keyword column tokens state e :
  parseExpression column tokens state = Ok e ->
  forallb allowedInExpression tokens = true.
Proof.
  apply parseExpressionFuel_read.
Qed.

Lemma accepted_expression_holds_no_keyword_witness :
  forallb allowedInExpression sampleCall = true.
Proof.
  apply (accepted_expression_holds_no_keyword 1 sampleCall None
           (CallExpression (Identifier (lit "f")) [Identifier (lit "a"); NumericLiteral 2])).
  reflexivity.
Defined.

(** * The place of every token *)

Lemma sliceN_first {A : Type} (l : list A) (a b : nat) (x : A) (rest : list A) :
  sliceN l a b = x :: rest -> nth_error l a = Some x.
Proof.
  unfold sliceN. intro H. rewrite <- (Nat.add_0_r a), <- nth_error_skipn.
  destruct (skipn a l) as [|y more]; [now rewrite firstn_nil in H|].
  destruct (b - a); simpl in H; [discriminate|]. now injection H as -> _.
Qed.

Lemma sliceN_inside {A : Type} (l : list A) (a b : nat) :
  b <= length l -> length (sliceN l a b) = b - a.
Proof.
  intro Hb. unfold sliceN. rewrite length_firstn, length_skipn. lia.
Qed.

Lemma sliceN_outside {A : Type} (l : list A) (a b : nat) :
  length l <= b -> length l <= a + length (sliceN l a b).
Proof.
  intro Hb. unfold sliceN. rewrite length_firstn, length_skipn. lia.
Qed.

(** Every element of a slice that ends at [b] and is not empty is found in
    the list; the last one stands just before [b]. *)
Lemma sliceN_last_unit (p : code_unit -> bool) (text : jsstring) (a b : nat) (u : code_unit) :
  forallb p (sliceN text a b) = true -> a < b ->
  nth_error text (b - 1) = Some u -> p u = true.
Proof.
  intros Hall Hab Hu. rewrite forallb_forall in Hall. apply Hall.
  unfold sliceN. apply (nth_error_In _ (b - 1 - a)).
  rewrite nth_error_firstn.
  destruct (Nat.ltb_spec (b - 1 - a) (b - a)) as [_|]; [|lia].
  rewrite nth_error_skipn. now replace (a + (b - 1 - a)) with (b - 1) by lia.
Qed.

(** What a yielded code point tells about the text: the sentinel stands
    for its end; otherwise the first unit of the code point is the unit of
    the text at the offset, and a code point of two units starts with a
    lead surrogate. *)
Lemma yielded_unit text r codePoint :
  yielded text r codePoint ->
  (codePoint = EOL /\ length text <= r) \/
  (exists u more,
     codePoint = u :: more /\ nth_error text r = Some u /\
     r + length codePoint <= length text /\
     (more = [] \/ isLeadSurrogate u = true)).
Proof.
  intros [[-> Hend] | [(u & -> & H) | (u & v & -> & Hlead & _ & H)]].
  - left. split; [reflexivity|].
    apply (f_equal (@length _)) in Hend. rewrite length_skipn in Hend. simpl in Hend.
    unfold code_unit in *. lia.
  - right. exists u, []. repeat split; auto.
    + exact (sliceN_first _ _ _ _ _ H).
    + pose proof (sliceN_length text r (r + 1)) as Hlen. rewrite H in Hlen.
      simpl in *. unfold code_unit in *. lia.
  - right. exists u, [v]. repeat split; auto.
    + exact (sliceN_first _ _ _ _ _ H).
    + pose proof (sliceN_length text r (r + 2)) as Hlen. rewrite H in Hlen.
      simpl in *. unfold code_unit in *. lia.
Qed.

Lemma pair_is_identifier_code_point u v :
  isLeadSurrogate u = true -> isIdentifierCodePoint [u; v] = true.
Proof.
  intro Hlead. unfold isLeadSurrogate in Hlead.
  apply andb_true_iff in Hlead as [H1 H2]. apply N.leb_le in H1.
  unfold isIdentifierCodePoint, charCodeAt0. simpl.
  destruct (N.eqb_spec u 69) as [E|_]; [lia|]. simpl.
  rewrite !andb_false_r. simpl.
  destruct (N.leb_spec 256 u) as [_|E]; [|lia].
  now rewrite !orb_true_r.
Qed.

Lemma yielded_end text r i : yielded text r EOL -> r <= i -> nth_error text i = None.
Proof.
  intros [[_ Hend] | [(u & E & _) | (u & v & E & _)]] Hi; try discriminate.
  apply nth_error_None.
  apply (f_equal (@length _)) in Hend. rewrite length_skipn in Hend. simpl in Hend.
  unfold code_unit in *. lia.
Qed.

(** After a code point that is not an identifier character, no identifier
    unit stands just before the next offset. *)
Lemma free_after_other text r codePoint :
  yielded text r codePoint -> isIdentifierCodePoint codePoint = false ->
  freeBefore text (r + length codePoint) isIdentifierUnit.
Proof.
  intros Hy Hid u _ Hu.
  pose proof Hy as [[-> Hend] | [(v & -> & H) | (v & w & -> & Hlead & _ & H)]].
  - rewrite (yielded_end text r _ Hy) in Hu by (simpl; lia). discriminate.
  - simpl in Hu. replace (r + 1 - 1) with r in Hu by lia.
    rewrite (sliceN_first _ _ _ _ _ H) in Hu. injection Hu as <-.
    now rewrite single_identifier_code_point in Hid.
  - rewrite (pair_is_identifier_code_point v w Hlead) in Hid. discriminate.
Qed.

(** A code point other than a given character does not start with it. *)
Lemma other_first_unit text r codePoint (c : code_unit) :
  yielded text r codePoint -> (codePoint === [c]) = false ->
  isLeadSurrogate c = false ->
  forall u, nth_error text r = Some u -> (u =? c)%N = false.
Proof.
  intros Hy Hne Hc u Hu.
  pose proof Hy as [[-> Hend] | [(v & -> & H) | (v & w & -> & Hlead & _ & H)]].
  - rewrite (yielded_end text r _ Hy) in Hu by lia. discriminate.
  - rewrite (sliceN_first _ _ _ _ _ H) in Hu. injection Hu as <-.
    simpl in Hne. now rewrite andb_true_r in Hne.
  - rewrite (sliceN_first _ _ _ _ _ H) in Hu. injection Hu as <-.
    destruct (N.eqb_spec v c) as [->|]; [congruence | reflexivity].
Qed.

Lemma number_is_identifier_code_point text r codePoint :
  yielded text r codePoint -> isIdentifierCodePoint codePoint = false ->
  isNumberCodePoint codePoint = false.
Proof.
  intros Hy Hid. destruct (isNumberCodePoint codePoint) eqn:Hnum; [|reflexivity].
  destruct (number_code_point _ _ _ Hy Hnum) as (u & -> & Hu & _).
  rewrite single_identifier_code_point in Hid.
  unfold isIdentifierUnit in Hid. unfold isDigit in Hu. rewrite Hu in Hid.
  rewrite !orb_true_r in Hid. discriminate.
Qed.

Lemma freeBefore_letter text r :
  freeBefore text r isIdentifierUnit -> freeBefore text r isLetterUnit.
Proof.
  intros H u Hr Hu. unfold isLetterUnit. now rewrite (H u Hr Hu).
Qed.

Lemma sorted_apart_snoc (tokens : list Token) (t : Token) :
  StronglySorted apart tokens -> Forall (fun t' => endRow t' <= row t) tokens ->
  StronglySorted apart (tokens ++ [t]).
Proof.
  induction 1 as [|t0 l Hs IH Hall]; intro Hb; simpl.
  - constructor; constructor.
  - inversion Hb as [|? ? H0 Hl]; subst. constructor.
    + now apply IH.
    + apply Forall_app. split; [exact Hall | now constructor].
Qed.

(** The dispatch on a code point, entered with no token in progress and
    outside any comment, when no identifier character stands just before
    an identifier character that is read. *)
Lemma startToken_place text r codePoint s :
  state s = None -> multiLineCommentCount s = 0 ->
  Forall (wholeIn text) (scan_tokens s) ->
  StronglySorted apart (scan_tokens s) ->
  Forall (fun t => endRow t <= r + 1) (scan_tokens s) ->
  yielded text r codePoint ->
  (isIdentifierCodePoint codePoint = true -> freeBefore text r isLetterUnit) ->
  (isNumberCodePoint codePoint = true -> freeBefore text r isIdentifierUnit) ->
  placeInvariant text (r + length codePoint) (scanOf (startToken s r codePoint)).
Proof.
  intros Hstate Hcount Hwhole Hsorted Hends Hy Hword Hnumber.
  pose proof (yielded_length _ _ _ Hy) as Hlen.
  assert (Hlater : Forall (fun t => endRow t <= r + length codePoint + 1) (scan_tokens s))
    by (eapply Forall_impl; [|exact Hends]; simpl; intros; lia).
  assert (Hsame : isIdentifierCodePoint codePoint = false ->
                  placeInvariant text (r + length codePoint) s).
  { intro Hid. split; [exact Hwhole | split; [exact Hsorted|]]. rewrite Hstate.
    split; [exact Hlater | intros _; now apply free_after_other]. }
  assert (Henter : forall st,
             match st with minus | angle_or_exclamation | slash => True | _ => False end ->
             length codePoint = 1 -> isIdentifierCodePoint codePoint = false ->
             placeInvariant text (r + length codePoint) (enter s st r)).
  { intros st Hst Hone Hid. split; [exact Hwhole | split; [exact Hsorted|]]. simpl.
    split; [lia | split; [exact Hends|]].
    destruct st; try destruct Hst; (split; [lia | now apply free_after_other]). }
  assert (Hpush : forall t,
             length (lexeme t) = 1 -> length codePoint = 1 ->
             isIdentifierCodePoint codePoint = false ->
             (forall u, joinsBefore t u = false) -> (forall u, joinsAfter t u = false) ->
             placeInvariant text (r + length codePoint) (pushToken s t (r + 1))).
  { intros t Ht Hone Hid Hb Ha. split; [|split]; simpl.
    - apply Forall_app. split; [exact Hwhole|]. constructor; [|constructor].
      split; intros u; intros; simpl; auto.
    - apply sorted_apart_snoc; [exact Hsorted|]. simpl. exact Hends.
    - rewrite Hstate. split.
      + apply Forall_app. split; [exact Hlater|]. constructor; [|constructor].
        unfold endRow. simpl. lia.
      + intros _. now apply free_after_other. }
  unfold startToken. rewrite Hstate.
  test_code_point H1; [apply str_eqb_eq in H1; subst; now apply Hsame|].
  test_code_point H2; [apply str_eqb_eq in H2; subst; now apply Henter|].
  destruct ((codePoint === lit "<") || (codePoint === lit ">") || (codePoint === lit "!"))
    eqn:H3.
  { apply orb_true_iff in H3 as [H3 | H3]; [apply orb_true_iff in H3 as [H3 | H3]|];
      apply str_eqb_eq in H3; subst; now apply Henter. }
  test_code_point H4; [apply str_eqb_eq in H4; subst; now apply Henter|].
  destruct ((codePoint === lit "+") || (codePoint === lit "=") || (codePoint === lit "*"))
    eqn:H5.
  { apply orb_true_iff in H5 as [H5 | H5]; [apply orb_true_iff in H5 as [H5 | H5]|];
      apply str_eqb_eq in H5; subst; now apply Hpush. }
  test_code_point H6; [apply str_eqb_eq in H6; subst; now apply Hpush|].
  test_code_point H7; [apply str_eqb_eq in H7; subst; now apply Hpush|].
  test_code_point H8; [apply str_eqb_eq in H8; subst; now apply Hpush|].
  test_code_point H9; [apply str_eqb_eq in H9; subst; now apply Hpush|].
  test_code_point H10; [apply str_eqb_eq in H10; subst; now apply Hpush|].
  destruct (isNumberCodePoint codePoint) eqn:Hnum.
  { split; [exact Hwhole | split; [exact Hsorted|]]. simpl.
    split; [lia | split; [exact Hends | now apply Hnumber]]. }
  destruct (isIdentifierCodePoint codePoint) eqn:Hid; [|now apply Hsame].
  split; [exact Hwhole | split; [exact Hsorted|]]. simpl.
  split; [lia | split; [exact Hends | now apply Hword]].
Qed.

(** The test that closes a comment at offset [r] reads a slash there. *)
Lemma comment_closed_at text r :
  slice text (Z.of_nat r - 1) (Z.of_nat r + 1) = lit "*/" ->
  nth_error text r = Some 47%N.
Proof.
  intro H.
  assert (Hlen : length (slice text (Z.of_nat r - 1) (Z.of_nat r + 1)) = 2)
    by now rewrite H.
  destruct r as [|r].
  { pose proof (slice_at_start text 1 ltac:(lia)) as Hs. simpl in Hlen. simpl in Hs.
    unfold code_unit in *. lia. }
  assert (Hin : S r + 1 <= length text).
  { revert Hlen. unfold slice. cbv zeta. rewrite length_firstn, length_skipn.
    destruct (Z.ltb_spec (Z.of_nat (S r) - 1) 0); [lia|].
    destruct (Z.ltb_spec (Z.of_nat (S r) + 1) 0); [lia|].
    unfold code_unit in *. lia. }
  rewrite slice_inside in H by lia.
  unfold sliceN in H. replace (S r + 1 - (S r - 1)) with 2 in H by lia.
  replace (S r - 1) with r in H by lia.
  replace (S r) with (r + 1) by lia. rewrite <- nth_error_skipn.
  destruct (skipn r text) as [|a [|b rest]]; try discriminate.
  simpl in H. now injection H as _ ->.
Qed.

Lemma joinsBefore_word word u : joinsBefore (wordToken word) u = isLetterUnit u.
Proof.
  destruct (wordToken_cases word) as [-> | H]; [reflexivity|].
  simpl in H. destruct H as [<- | [<- | [<- | [<- | [<- | []]]]]]; reflexivity.
Qed.

Lemma joinsAfter_word word u : joinsAfter (wordToken word) u = isIdentifierUnit u.
Proof.
  destruct (wordToken_cases word) as [-> | H]; [reflexivity|].
  simpl in H. destruct H as [<- | [<- | [<- | [<- | [<- | []]]]]]; reflexivity.
Qed.

Lemma sliceN_width {A : Type} (l : list A) (a b : nat) : length (sliceN l a b) <= b - a.
Proof. unfold sliceN. rewrite length_firstn. lia. Qed.

(** The unit just after a slice that ends where a code point is yielded is
    the first unit of the code point, when there is one. *)
Lemma free_at_end text a r codePoint (p : code_unit -> bool) :
  yielded text r codePoint -> a <= r ->
  (forall u, nth_error text r = Some u -> p u = false) ->
  freeAt text (a + length (sliceN text a r)) p.
Proof.
  intros Hy Har Hp u Hu.
  destruct (yielded_unit _ _ _ Hy) as [[-> Hend] | (v & more & -> & Hv & Hlen & _)].
  - pose proof (sliceN_outside text a r Hend) as Hout.
    apply nth_error_None in Hout. unfold code_unit in *. congruence.
  - rewrite sliceN_inside in Hu by (simpl in Hlen; lia).
    replace (a + (r - a)) with r in Hu by lia. now apply Hp.
Qed.

Lemma first_unit_other text r codePoint :
  yielded text r codePoint -> isIdentifierCodePoint codePoint = false ->
  forall u, nth_error text r = Some u -> isIdentifierUnit u = false.
Proof.
  intros Hy Hid u Hu.
  pose proof Hy as [[-> Hend] | [(v & -> & H) | (v & w & -> & Hlead & _ & H)]].
  - rewrite (yielded_end text r _ Hy) in Hu by lia. discriminate.
  - rewrite (sliceN_first _ _ _ _ _ H) in Hu. injection Hu as <-.
    now rewrite single_identifier_code_point in Hid.
  - rewrite (pair_is_identifier_code_point v w Hlead) in Hid. discriminate.
Qed.

Lemma first_unit_no_digit text r codePoint :
  yielded text r codePoint -> isNumberCodePoint codePoint = false ->
  forall u, nth_error text r = Some u -> isDigit u = false.
Proof.
  intros Hy Hnum u Hu.
  pose proof Hy as [[-> Hend] | [(v & -> & H) | (v & w & -> & Hlead & _ & H)]].
  - rewrite (yielded_end text r _ Hy) in Hu by lia. discriminate.
  - rewrite (sliceN_first _ _ _ _ _ H) in Hu. injection Hu as <-.
    now rewrite single_number_code_point in Hnum.
  - rewrite (sliceN_first _ _ _ _ _ H) in Hu. injection Hu as <-.
    now destruct (surrogate_is_identifier_unit v (or_introl Hlead)).
Qed.

(** One turn of the code-point loop keeps the invariant on places. *)
Lemma scanCodePoint_place c text r codePoint s flow :
  valueInvariant text r s -> placeInvariant text r s ->
  yielded text r codePoint ->
  scanCodePoint c text s r codePoint = Ok flow ->
  placeInvariant text (r + length codePoint) (scanOf flow).
Proof.
  intros (Hvalid & Hcomment & Hpending) (Hwhole & Hsorted & Hplace) Hy.
  pose proof (yielded_length _ _ _ Hy) as Hlen.
  unfold scanCodePoint.
  destruct (0 <? multiLineCommentCount s) eqn:Hcount.
  { apply Nat.ltb_lt in Hcount. specialize (Hcomment Hcount). rewrite Hcomment in Hplace.
    destruct Hplace as [Hends _].
    assert (Hlater : Forall (fun t => endRow t <= r + length codePoint + 1) (scan_tokens s))
      by (eapply Forall_impl; [|exact Hends]; simpl; intros; lia).
    assert (Hopen : forall n, 0 < n -> placeInvariant text (r + length codePoint) (setCount s n)).
    { intros n Hn. split; [exact Hwhole | split; [exact Hsorted|]]. simpl. rewrite Hcomment.
      split; [exact Hlater | intro; lia]. }
    destruct (_ === lit "/*"); [intros [= <-]; apply Hopen; lia|].
    destruct (_ === lit "*/") eqn:Hclose; intros [= <-].
    - split; [exact Hwhole | split; [exact Hsorted|]]. simpl. rewrite Hcomment.
      split; [exact Hlater|]. intros _.
      apply str_eqb_eq, comment_closed_at in Hclose.
      apply free_after_other; [exact Hy|].
      pose proof Hy as [[-> Hend] | [(v & -> & H) | (v & w & -> & Hlead & _ & H)]].
      + rewrite (yielded_end text r _ Hy) in Hclose by lia. discriminate.
      + rewrite (sliceN_first _ _ _ _ _ H) in Hclose. now injection Hclose as ->.
      + rewrite (sliceN_first _ _ _ _ _ H) in Hclose. injection Hclose as ->. discriminate.
    - replace s with (setCount s (multiLineCommentCount s)) by (now destruct s).
      now apply Hopen. }
  apply Nat.ltb_ge in Hcount.
  assert (Hzero : multiLineCommentCount s = 0) by lia.
  destruct (state s) as [st|] eqn:Hstate.
  2: { intros [= <-]. destruct Hplace as [Hends Hfree]. specialize (Hfree Hzero).
       apply startToken_place; auto. intros _. now apply freeBefore_letter. }
  destruct Hplace as (Hstart & Hends & Hst).
  assert (Hnew : forall t bound,
             freeBefore text (startRow s) (joinsBefore t) ->
             freeAt text (startRow s + length (lexeme t)) (joinsAfter t) ->
             startRow s + length (lexeme t) <= bound ->
             Forall (wholeIn text) (scan_tokens s ++ [mkToken t (startRow s + 1)]) /\
             StronglySorted apart (scan_tokens s ++ [mkToken t (startRow s + 1)]) /\
             Forall (fun t => endRow t <= bound + 1)
               (scan_tokens s ++ [mkToken t (startRow s + 1)])).
  { intros t bound Hb Ha Hl. split; [|split].
    - apply Forall_app. split; [exact Hwhole|]. constructor; [|constructor].
      unfold wholeIn, endRow. simpl.
      replace (startRow s + 1 - 1) with (startRow s) by lia.
      replace (startRow s + 1 + length (lexeme t) - 1)
        with (startRow s + length (lexeme t)) by lia.
      auto.
    - apply sorted_apart_snoc; [exact Hsorted|]. simpl. exact Hends.
    - apply Forall_app. split.
      + eapply Forall_impl; [|exact Hends]. simpl. intros. lia.
      + constructor; [|constructor]. unfold endRow. simpl. lia. }
  assert (Hemit : forall t,
             freeBefore text (startRow s) (joinsBefore t) ->
             freeAt text (startRow s + length (lexeme t)) (joinsAfter t) ->
             startRow s + length (lexeme t) <= r ->
             (isIdentifierCodePoint codePoint = true -> freeBefore text r isLetterUnit) ->
             (isNumberCodePoint codePoint = true -> freeBefore text r isIdentifierUnit) ->
             placeInvariant text (r + length codePoint)
               (scanOf (startToken (emit s t (startRow s + 1)) r codePoint))).
  { intros t Hb Ha Hl Hword Hnumber.
    destruct (Hnew t r Hb Ha Hl) as (H1 & H2 & H3).
    apply startToken_place; auto. }
  assert (Hdone : forall t,
             freeBefore text (startRow s) (joinsBefore t) ->
             freeAt text (startRow s + length (lexeme t)) (joinsAfter t) ->
             startRow s + length (lexeme t) <= r + length codePoint ->
             isIdentifierCodePoint codePoint = false ->
             placeInvariant text (r + length codePoint) (emit s t (startRow s + 1))).
  { intros t Hb Ha Hl Hid.
    destruct (Hnew t (r + length codePoint) Hb Ha Hl) as (H1 & H2 & H3).
    split; [exact H1 | split; [exact H2|]]. simpl.
    split; [exact H3 | intros _; now apply free_after_other]. }
  assert (Hnone : freeBefore text (startRow s) (fun _ => false)).
  { intros u _ _. reflexivity. }
  destruct st.
  - (* identifier *)
    destruct Hpending as [_ Hword].
    destruct (isIdentifierCodePoint codePoint) eqn:Hid; intros [= <-].
    + unfold placeInvariant. simpl scanOf. rewrite Hstate.
      split; [exact Hwhole | split; [exact Hsorted|]].
      split; [lia | split; [exact Hends | exact Hst]].
    + apply Hemit.
      * intros u Hr Hu. rewrite joinsBefore_word. now apply Hst.
      * rewrite lexeme_wordToken. apply free_at_end with (codePoint := codePoint); [exact Hy | lia|].
        intros u Hu. rewrite joinsAfter_word. now apply (first_unit_other text r codePoint).
      * rewrite lexeme_wordToken. pose proof (sliceN_width text (startRow s) r). lia.
      * congruence.
      * rewrite (number_is_identifier_code_point _ _ _ Hy Hid). discriminate.
  - (* literal *)
    destruct Hpending as [_ [Hne Hdigits]].
    destruct (isNumberCodePoint codePoint) eqn:Hnum; intros [= <-].
    + unfold placeInvariant. simpl scanOf. rewrite Hstate.
      split; [exact Hwhole | split; [exact Hsorted|]].
      split; [lia | split; [exact Hends | exact Hst]].
    + apply Hemit.
      * exact Hst.
      * simpl lexeme. apply free_at_end with (codePoint := codePoint); [exact Hy | lia|].
        intros u Hu. simpl. now apply (first_unit_no_digit text r codePoint).
      * simpl lexeme. pose proof (sliceN_width text (startRow s) r). lia.
      * intros _ u Hr Hu. unfold isLetterUnit.
        rewrite (sliceN_last_unit isDigit text (startRow s) r u Hdigits Hstart Hu).
        apply andb_false_r.
      * discriminate.
  - (* minus *)
    destruct Hst as [Hnext Hfree].
    destruct (codePoint === lit ">") eqn:Hgt; intros [= <-].
    + apply str_eqb_eq in Hgt. subst codePoint.
      apply Hdone; [exact Hnone | intros u _; reflexivity | simpl; lia | reflexivity].
    + apply Hemit.
      * exact Hnone.
      * simpl lexeme. simpl length. rewrite Hnext. intros u Hu. simpl.
        rewrite (other_first_unit text r codePoint 62%N Hy Hgt eq_refl u Hu). reflexivity.
      * simpl. lia.
      * intros _. now apply freeBefore_letter.
      * intros _. exact Hfree.
  - (* angle or exclamation *)
    destruct Hst as [Hnext Hfree]. destruct Hpending as [_ Hfirst].
    destruct (codePoint === lit "=") eqn:Heq; [intros [= <-]|].
    + destruct (yielded_read _ _ _ Hy) as [-> | Hread]; [discriminate Heq|].
      apply str_eqb_eq in Heq. subst codePoint. simpl in Hread.
      assert (Hvalue : In (sliceN text (startRow s) (r + 1)) (map lit ["<="; ">="; "!="]%string)).
      { rewrite (sliceN_split text (startRow s) r (r + 1)) by lia. rewrite Hread.
        simpl in Hfirst. destruct Hfirst as [<- | [<- | [<- | []]]]; simpl; tauto. }
      apply Hdone; [exact Hnone | | | reflexivity].
      * intros u _. simpl in Hvalue.
        destruct Hvalue as [<- | [<- | [<- | []]]]; reflexivity.
      * simpl lexeme. simpl in Hvalue.
        destruct Hvalue as [<- | [<- | [<- | []]]]; simpl; lia.
    + destruct (_ === lit "!") eqn:Hbang; [discriminate|]. intros [= <-].
      assert (Hvalue : In (sliceN text (startRow s) r) (map lit ["<"; ">"]%string)).
      { simpl in Hfirst. destruct Hfirst as [Hf | [Hf | [Hf | []]]]; rewrite <- Hf in *;
          try discriminate Hbang; simpl; tauto. }
      apply Hemit.
      * exact Hnone.
      * simpl lexeme. simpl in Hvalue.
        destruct Hvalue as [<- | [<- | []]]; simpl length; rewrite Hnext; intros u Hu; simpl;
          rewrite (other_first_unit text r codePoint 61%N Hy Heq eq_refl u Hu); reflexivity.
      * simpl lexeme. simpl in Hvalue.
        destruct Hvalue as [<- | [<- | []]]; simpl; lia.
      * intros _. now apply freeBefore_letter.
      * intros _. exact Hfree.
  - (* slash *)
    destruct Hst as [Hnext Hfree].
    destruct (codePoint === lit "*") eqn:Hstar; intros [= <-].
    + split; [exact Hwhole | split; [exact Hsorted|]]. simpl.
      split; [|intro; discriminate].
      eapply Forall_impl; [|exact Hends]. simpl. intros. lia.
    + apply Hemit.
      * exact Hnone.
      * simpl lexeme. simpl length. rewrite Hnext. intros u Hu. simpl.
        rewrite (other_first_unit text r codePoint 42%N Hy Hstar eq_refl u Hu). reflexivity.
      * simpl. lia.
      * intros _. now apply freeBefore_letter.
      * intros _. exact Hfree.
Qed.

(** The code-point loop, run on a whole line, ends with tokens that are all
    placed in the text of the line, none reaching into the next. *)
Lemma scanLine_placed c text count s :
  scanLine c text (mkScan [] None 0 count) (iterateCodePoint text) = Ok s ->
  Forall (placed text) (scan_tokens s) /\ StronglySorted apart (scan_tokens s).
Proof.
  intro Hscan.
  pose proof (scanLine_tokens _ _ _ Hscan) as Hat.
  assert (Hstart : valueInvariant text 0 (mkScan [] None 0 count) /\
                   placeInvariant text 0 (mkScan [] None 0 count)).
  { split.
    - split; [constructor | split; [reflexivity | exact I]].
    - split; [constructor | split; [constructor|]]. simpl.
      split; [constructor|]. intros _ u Hr. lia. }
  destruct (scanLine_rule c text
              (fun r s => valueInvariant text r s /\ placeInvariant text r s))
    with (s := mkScan [] None 0 count) (s' := s)
    as (r' & (Hvalid & _) & (Hwhole & Hsorted & _)); auto.
  { intros r codePoint s0 flow [Hv Hp] Hy Hturn. split.
    - exact (scanCodePoint_values _ _ _ _ _ _ Hv Hy Hturn).
    - exact (scanCodePoint_place _ _ _ _ _ _ Hv Hp Hy Hturn). }
  split; [|exact Hsorted].
  rewrite Forall_forall in *. intros t Ht. repeat split; auto.
  - now apply Hat.
  - now apply Hat.
  - now apply Hwhole.
  - now apply Hwhole.
Qed.

(** The line that [iterateLine] yields with the column [c] is made from
    the match of index [c] of the line expression. *)
Lemma iterateMatches_nth matches :
  forall c ln,
    In ln (iterateMatches c matches) ->
    exists raw,
      c <= line_column ln /\ nth_error matches (line_column ln - c) = Some raw /\
      raw <> [] /\ line_text ln = trim raw /\
      line_space ln = countSpace (leadingSpace raw).
Proof.
  induction matches as [|raw more IH]; intros c ln Hin; simpl in Hin; [destruct Hin|].
  assert (Hmore : In ln (iterateMatches (S c) more) ->
                  exists raw0,
                    c <= line_column ln /\
                    nth_error (raw :: more) (line_column ln - c) = Some raw0 /\
                    raw0 <> [] /\ line_text ln = trim raw0 /\
                    line_space ln = countSpace (leadingSpace raw0)).
  { intro H. destruct (IH _ _ H) as (raw0 & Hc & Hnth & Hrest).
    exists raw0. split; [lia|]. split; [|exact Hrest].
    replace (line_column ln - c) with (S (line_column ln - S c)) by lia. exact Hnth. }
  destruct raw as [|u raw']; [now apply Hmore|].
  destruct Hin as [<- | Hin]; [|now apply Hmore].
  exists (u :: raw'). simpl. rewrite Nat.sub_diag. repeat split; auto. discriminate.
Qed.

Lemma iterateLine_nth source ln :
  In ln (iterateLine source) ->
  exists raw,
    nth_error (matchAllLines [] source) (line_column ln) = Some raw /\
    raw <> [] /\ line_text ln = trim raw /\
    line_space ln = countSpace (leadingSpace raw).
Proof.
  intro Hin. destruct (iterateMatches_nth _ _ _ Hin) as (raw & _ & Hnth & Hrest).
  rewrite Nat.sub_0_r in Hnth. eauto.
Qed.

(** C3, amended: for every source that [tokenise] accepts and every emitted
    token, [row] is 1 plus the offset, in UTF-16 code units (so that a
    character outside the BMP counts two), at which the text of the token
    begins in its line once the line is trimmed of its leading and trailing
    white space; the leading white space of the line is not counted.  The
    line of a LineToken of column [c] is the match of index [c - 1] of the
    line expression.  At the offset [row - 1] the trimmed line reads the
    text of the token, and reads it as a whole token: an identifier or a
    keyword is a word that no identifier character other than a digit
    precedes and no identifier character follows, a numeric literal is a run
    of digits that no identifier character precedes and no digit follows,
    [-] is not followed by [>], [<] and [>] are not followed by [=], and
    [/] is not followed by [*].  The tokens of a line do not overlap: each
    begins at or after the offset where the one before it ends. *)
Theorem row_is_offset_in_trimmed_line source lts :
  tokenise source = Ok lts ->
  forall lt, In lt lts ->
  exists ln raw,
    In ln (iterateLine source) /\
    nth_error (matchAllLines [] source) (line_column ln) = Some raw /\
    column lt = line_column ln + 1 /\
    line_text ln = trim raw /\
    Forall (placed (trim raw)) (tokens lt) /\
    StronglySorted apart (tokens lt).
Proof.
  intros H lt Hin.
  destruct (emitted_scan _ _ _ H Hin) as (ln & count & s & Hln & Hcolumn & Hscan & Heq & _).
  destruct (iterateLine_nth _ _ Hln) as (raw & Hraw & _ & Htext & _).
  exists ln, raw. repeat split; auto.
  - rewrite Heq, <- Htext. now apply (scanLine_placed _ _ _ _ Hscan).
  - rewrite Heq. now apply (scanLine_placed _ _ _ _ Hscan).
Qed.

Lemma row_is_offset_in_trimmed_line_witness :
  exists ln raw,
    In ln (iterateLine (lit "  x1 -> 12a")) /\
    nth_error (matchAllLines [] (lit "  x1 -> 12a")) (line_column ln) = Some raw /\
    1 = line_column ln + 1 /\
    line_text ln = trim raw /\
    Forall (placed (trim raw))
      [mkToken (IdentifierToken (lit "x1")) 1; mkToken AssignmentToken 4;
       mkToken (NumericLiteralToken (lit "12")) 7;
       mkToken (IdentifierToken (lit "a")) 9] /\
    StronglySorted apart
      [mkToken (IdentifierToken (lit "x1")) 1; mkToken AssignmentToken 4;
       mkToken (NumericLiteralToken (lit "12")) 7;
       mkToken (IdentifierToken (lit "a")) 9].
Proof.
  apply (row_is_offset_in_trimmed_line (lit "  x1 -> 12a")
           [mkLineToken 1 1
              [mkToken (IdentifierToken (lit "x1")) 1; mkToken AssignmentToken 4;
               mkToken (NumericLiteralToken (lit "12")) 7;
               mkToken (IdentifierToken (lit "a")) 9]]
           eq_refl
           (mkLineToken 1 1
              [mkToken (IdentifierToken (lit "x1")) 1; mkToken AssignmentToken 4;
               mkToken (NumericLiteralToken (lit "12")) 7;
               mkToken (IdentifierToken (lit "a")) 9])).
  left. reflexivity.
Defined.

(** The first token of a line does not have the row 1 when the trimmed
    line begins with something that is not read into it: a comment, or a
    character that starts no token. *)
Lemma first_row_after_comment :
  tokenise (lit "  /**/x") = Ok [mkLineToken 1 1 [mkToken (IdentifierToken (lit "x")) 5]] /\
  tokenise (lit "  %x") = Ok [mkLineToken 1 1 [mkToken (IdentifierToken (lit "x")) 2]].
Proof. split; reflexivity. Qed.

(** * The line named by the error of the unclosed comment *)









(** On that source the error names line 3, the last line with tokens, and
    not line 4, the last line of the input. *)
Lemma unclosed_comment_sample :
  tokenise openCommentSample =
  Throw (ParseError "3: The multi-line comment is not closed") /\
  lastLineNumber openCommentSample = 4.
Proof. split; reflexivity. Qed.

(** The indent of a line is checked inside a comment too: a line of the
    comment that is indented less than the line before it, to a width that
    is not on the stack, makes [tokenise] throw before the end of the input
    is reached. *)
Lemma indent_error_inside_comment :
  tokenise (unlines ["x"; "/*"; "  a"; " b"]%string) =
  Throw (ParseError "4: Invalid indent space") /\
  ~ commentOpenAtEnd (unlines ["x"; "/*"; "  a"; " b"]%string).
Proof.
  split; [reflexivity|].
  intros (lx & H & _). vm_compute in H. discriminate.
Qed.
